(** * y0: conditional independencies of an ADMG

    A shallow embedding of [y0/algorithm/conditional_independencies.py]
    together with the parts of ananke, networkx and itertools it calls. *)

From Stdlib Require OrderedTypeEx.
From stdpp Require Import gmap strings list fin_maps sorting.

#[local] Set Warnings "-clear-no-such-hyp".

(** ** Variables and dynamically typed arguments *)

(** Modelled from the spec: [y0.dsl.Variable] is not among the sources at
    hand.  "opaque, hashable, totally-orderable identifier (by name) for a
    graph node.  Immutable.  No internal structure beyond identity/name":
    a record with the one field [name], which is also what [str] returns
    and what the order compares.  ([Variable] is a reserved word here,
    hence the lower case.) *)
Record variable := Var { name : string }.

#[global] Instance variable_eq_dec : EqDecision variable.
Proof. solve_decision. Defined.

#[global] Instance variable_countable : Countable variable :=
  inj_countable' name Var (fun v => match v with Var _ => eq_refl end).

(** What a caller can pass where a [Variable] is expected. *)
Inductive value :=
| VVariable (v : variable)
| VStr (s : string)
| VInt (n : Z).

Definition isinstance_Variable (x : value) : bool :=
  match x with VVariable _ => true | _ => false end.

(** ** Exceptions *)

Inductive exn :=
| NoAnankeError
| TypeError (msg : string)   (* the message up to the interpolated values *)
| KeyError (key : string)
| ValueError
| AttributeError
| NodeNotFound
| NetworkXUnfeasible.

#[global] Instance exn_eq_dec : EqDecision exn.
Proof. solve_decision. Defined.

Definition result (A : Type) : Type := exn + A.

#[global] Instance result_ret : MRet result := fun A x => inr x.

#[global] Instance result_bind : MBind result := fun A B k r =>
  match r with
  | inl e => inl e
  | inr x => k x
  end.

#[global] Instance result_fmap : FMap result := fun A B f r =>
  match r with
  | inl e => inl e
  | inr x => inr (f x)
  end.

Definition is_ok {A} (r : result A) : bool :=
  match r with inr _ => true | inl _ => false end.

(** ** itertools *)

Module Itertools.

(** [itertools.combinations(l, r)]: the length-[r] subsequences of [l],
    in lexicographic order of positions. *)
Fixpoint combinations {A} (l : list A) (r : nat) : list (list A) :=
  match r with
  | 0 => [[]]
  | S r' =>
      match l with
      | [] => []
      | x :: xs => map (cons x) (combinations xs r') ++ combinations xs r
      end
  end.

(** The unpacking [for u, v in combinations(l, 2)]. *)
Definition unpack2 {A} (t : list A) : option (A * A) :=
  match t with
  | [u; v] => Some (u, v)
  | _ => None
  end.

Definition combinations2 {A} (l : list A) : list (A * A) :=
  omap unpack2 (combinations l 2).

End Itertools.

(** ** Closure of a set of nodes under an edge relation

    Both ananke's [ancestors] (a stack-driven walk over the parents) and
    networkx's path search (a breadth-first search) compute the set of
    nodes reachable from a start set. *)

Section reach.
Context {K : Type} `{Countable K}.

Definition successors (es : gset (K * K)) (X : gset K) : gset K :=
  set_map snd (filter (fun e => e.1 ∈ X) es).

Fixpoint reach (es : gset (K * K)) (fuel : nat) (X : gset K) : gset K :=
  match fuel with
  | 0 => X
  | S n => reach es n (X ∪ successors es X)
  end.

Definition flip_edges (es : gset (K * K)) : gset (K * K) :=
  set_map (fun e => (e.2, e.1)) es.

End reach.

(** ** ananke: segregated graphs and ADMGs *)

Module Ananke.

(** [ananke.graphs.ADMG]: vertices are names; the edge collections are
    sets of pairs of names. *)
Record ADMG := mkADMG {
  vertices : gset string;
  di_edges : gset (string * string);
  bi_edges : gset (string * string);
  ud_edges : gset (string * string)
}.

Definition first_missing (g : ADMG) (vs : list string) : option string :=
  List.find (fun v => bool_decide (v ∉ vertices g)) vs.

(** Every vertex named in a query is looked up in the vertex dictionary;
    a missing one is a [KeyError]. *)
Definition lookup_all {A} (g : ADMG) (vs : gset string) (k : A) : result A :=
  match first_missing g (elements vs) with
  | Some v => inl (KeyError v)
  | None => inr k
  end.

(** [ADMG(vertices, di_edges, bi_edges)] *)
Definition new (vs : gset string) (di bi : gset (string * string)) : result ADMG :=
  let g := mkADMG vs ∅ ∅ ∅ in
  match first_missing g (flat_map (fun e => [e.1; e.2]) (elements di ++ elements bi)) with
  | Some v => inl (KeyError v)
  | None => inr (mkADMG vs di bi ∅)
  end.

(** [graph.parents(vs)] *)
Definition parents (g : ADMG) (vs : gset string) : result (gset string) :=
  lookup_all g vs (successors (flip_edges (di_edges g)) vs).

(** [graph.ancestors(vs)]: the vertices themselves and everything that
    reaches them along directed edges. *)
Definition ancestors (g : ADMG) (vs : gset string) : result (gset string) :=
  lookup_all g vs (reach (flip_edges (di_edges g)) (size (vertices g)) vs).

Definition induced (vs : gset string) (es : gset (string * string)) :
    gset (string * string) :=
  filter (fun e => e.1 ∈ vs ∧ e.2 ∈ vs) es.

(** [graph.subgraph(vs)]: a new ADMG on [vs] with the directed and
    bidirected edges between them. *)
Definition subgraph (g : ADMG) (vs : gset string) : result ADMG :=
  lookup_all g vs
    (mkADMG vs (induced vs (di_edges g)) (induced vs (bi_edges g)) ∅).

(** [graph.add_udedge(u, v)] *)
Definition add_udedge (g : ADMG) (u v : string) : result ADMG :=
  lookup_all g {[u; v]}
    (mkADMG (vertices g) (di_edges g) (bi_edges g) ({[(u, v)]} ∪ ud_edges g)).

End Ananke.

(** ** networkx: undirected graphs *)

Module Nx.

(** [networkx.Graph]: a node set and a symmetric adjacency structure
    ([adj] holds both [(u, v)] and [(v, u)] for an edge). *)
Record Graph := mkGraph {
  nodes : gset string;
  adj : gset (string * string)
}.

Definition empty : Graph := mkGraph ∅ ∅.

Definition add_nodes_from (g : Graph) (vs : list string) : Graph :=
  mkGraph (nodes g ∪ list_to_set vs) (adj g).

Definition add_edge (g : Graph) (e : string * string) : Graph :=
  mkGraph (nodes g ∪ {[e.1; e.2]}) (adj g ∪ {[(e.1, e.2); (e.2, e.1)]}).

Definition add_edges_from (g : Graph) (es : list (string * string)) : Graph :=
  foldl add_edge g es.

(** [G.subgraph(keep)]: the graph induced on the nodes of [G] in [keep]. *)
Definition subgraph (g : Graph) (keep : gset string) : Graph :=
  mkGraph (nodes g ∩ keep)
          (filter (fun e => e.1 ∈ keep ∧ e.2 ∈ keep) (adj g)).

(** [networkx.has_path(G, source, target)] *)
Definition has_path (g : Graph) (source target : string) : result bool :=
  if bool_decide (source ∈ nodes g ∧ target ∈ nodes g) then
    inr (bool_decide (target ∈ reach (adj g) (size (nodes g)) {[source]}))
  else inl NodeNotFound.

End Nx.

(** ** Python comparison and sorting *)

(** The [<] of the values used as sort keys. *)
Class PyOrd (K : Type) := py_lt : K → K → bool.

#[global] Instance nat_ord : PyOrd nat := Nat.ltb.
#[global] Instance string_ord : PyOrd string := String.ltb.
#[global] Instance variable_ord : PyOrd variable :=
  fun u v => String.ltb (name u) (name v).

(** Tuples compare at the first component that differs. *)
#[global] Instance pair_ord {A B} `{EqDecision A, PyOrd A, PyOrd B} : PyOrd (A * B) :=
  fun x y => if decide (x.1 = y.1) then py_lt x.2 y.2 else py_lt x.1 y.1.

Section sorting.
Context {A K : Type} `{PyOrd K} (key : A → K).

Fixpoint insort (x : A) (l : list A) : list A :=
  match l with
  | [] => [x]
  | y :: l' => if py_lt (key x) (key y) then x :: l else y :: insort x l'
  end.

(** [sorted(l, key=key)]: a stable sort that only uses [<] on keys. *)
Definition sorted (l : list A) : list A :=
  foldl (fun acc x => insort x acc) [] l.

Fixpoint min_from (best : A) (l : list A) : A :=
  match l with
  | [] => best
  | x :: l' => min_from (if py_lt (key x) (key best) then x else best) l'
  end.

(** [min(l, key=key)]: the first element whose key is least. *)
Definition py_min (l : list A) : result A :=
  match l with
  | [] => inl ValueError
  | x :: l' => inr (min_from x l')
  end.

(** [itertools.groupby(l, key)]: maximal runs of equal keys. *)
Fixpoint groupby `{EqDecision K} (l : list A) : list (K * list A) :=
  match l with
  | [] => []
  | x :: l' =>
      match groupby l' with
      | (k, vs) :: rest =>
          if decide (key x = k) then (k, x :: vs) :: rest
          else (key x, [x]) :: (k, vs) :: rest
      | [] => [(key x, [x])]
      end
  end.

End sorting.

(** ** The mixed graph wrapper *)

Module MixedGraph.

(** Modelled from the spec: [y0.graph.NxMixedGraph] is not among the
    sources at hand.  It is the "Mixed Graph" of the data model: a node
    set, directed edges and bidirected edges (kept in an undirected
    networkx graph), with [nodes()], [to_admg()] (the conversion to the
    ananke representation, over names) and [topological_sort()].  As in
    networkx, the endpoints of an edge are nodes. *)
Record NxMixedGraph := mkMixed {
  added_nodes : gset variable;
  directed : gset (variable * variable);
  undirected : gset (variable * variable)
}.

Definition endpoints (es : gset (variable * variable)) : gset variable :=
  set_map fst es ∪ set_map snd es.

(** Modelled from the spec: [graph.nodes()], "enumerating all nodes". *)
Definition nodes (g : NxMixedGraph) : gset variable :=
  added_nodes g ∪ endpoints (directed g) ∪ endpoints (undirected g).

Definition names (es : gset (variable * variable)) : gset (string * string) :=
  set_map (fun e => (name e.1, name e.2)) es.

(** Modelled from the spec: [graph.to_admg()], "converting to an
    ancestral-graph representation", an ananke ADMG over the names of the
    nodes with the directed and the bidirected edges. *)
Definition to_admg (g : NxMixedGraph) : result Ananke.ADMG :=
  Ananke.new (set_map name (nodes g)) (names (directed g)) (names (undirected g)).

(** The nodes of [remaining] with no predecessor in [remaining]. *)
Definition generation (es : gset (variable * variable)) (remaining : list variable) :
    list variable :=
  filter (fun v => Forall (fun u => (u, v) ∉ es) remaining) remaining.

(** Modelled from the spec: "a topological order of nodes (defined only
    when the directed-edge subgraph is acyclic)".  The wrapper hands the
    directed part to [networkx.topological_sort], which peels off the
    nodes of in-degree zero generation by generation and raises
    [NetworkXUnfeasible] when nodes are left that all have a
    predecessor. *)
Fixpoint kahn (es : gset (variable * variable)) (fuel : nat)
    (remaining : list variable) : result (list variable) :=
  match remaining with
  | [] => inr []
  | _ =>
      match fuel with
      | 0 => inl NetworkXUnfeasible
      | S n =>
          match generation es remaining with
          | [] => inl NetworkXUnfeasible
          | gen =>
              match kahn es n (filter (fun v => v ∉ gen) remaining) with
              | inl e => inl e
              | inr rest => inr (gen ++ rest)
              end
          end
      end
  end.

(** Modelled from the spec: [graph.topological_sort()], on the directed
    edges and all the nodes. *)
Definition topological_sort (g : NxMixedGraph) : result (list variable) :=
  let ns := elements (nodes g) in
  kahn (directed g) (length ns) ns.

End MixedGraph.

(** ** D-separation judgements *)

(** Modelled from the spec: [y0.struct.DSeparationJudgement] is not among
    the sources at hand.  "left: Variable, right: Variable, conditions: set
    of Variable, separated: bool", immutable, with [left] and [right]
    "stored in a canonical (e.g., lexicographically smallest-first) order"
    and the conditions kept without duplicates in the order of their
    names. *)
Record DSeparationJudgement := mkJudgement {
  left : variable;
  right : variable;
  separated : bool;
  conditions : list variable
}.

#[global] Instance DSeparationJudgement_eq_dec : EqDecision DSeparationJudgement.
Proof. solve_decision. Defined.

#[global] Instance DSeparationJudgement_countable : Countable DSeparationJudgement :=
  inj_countable'
    (fun j => (left j, right j, separated j, conditions j))
    (fun t => mkJudgement t.1.1.1 t.1.1.2 t.1.2 t.2)
    (fun j => match j with mkJudgement _ _ _ _ => eq_refl end).

Module Judgement.

(** Modelled from the spec: [DSeparationJudgement.create(left, right,
    conditions, separated)], which puts [left] and [right] in the order of
    their names and keeps the conditions as a set, listed by name. *)
Definition create (l r : variable) (cs : list variable) (sep : bool) :
    DSeparationJudgement :=
  let cs' := sorted name (elements (list_to_set cs : gset variable)) in
  match sorted name [l; r] with
  | [l'; r'] => mkJudgement l' r' sep cs'
  | _ => mkJudgement l r sep cs'
  end.

End Judgement.

(** ** The object store *)

Definition loc := nat.

Inductive object :=
| ONxMixedGraph (g : MixedGraph.NxMixedGraph)
| OADMG (g : Ananke.ADMG)
| OGraph (g : Nx.Graph).

Abbreviation heap := (gmap loc object).

(** Computations that read and write the store and may raise. *)
Definition M (A : Type) : Type := heap → result A * heap.

#[global] Instance M_ret : MRet M := fun A x h => (inr x, h).

#[global] Instance M_bind : MBind M := fun A B k m h =>
  match m h with
  | (inl e, h') => (inl e, h')
  | (inr x, h') => k x h'
  end.

Definition raise {A} (e : exn) : M A := fun h => (inl e, h).

Definition lift {A} (r : result A) : M A := fun h => (r, h).

(** A new object: stored at a location not in use. *)
Definition alloc (o : object) : M loc :=
  fun h => let l := fresh (dom h) in (inr l, <[l := o]> h).

Definition load (l : loc) : M object :=
  fun h => match h !! l with
           | Some o => (inr o, h)
           | None => (inl AttributeError, h)
           end.

(** Assignment to an object that exists. *)
Definition store (l : loc) (o : object) : M unit :=
  fun h => (inr tt, <[l := o]> h).

Definition load_mixed (l : loc) : M MixedGraph.NxMixedGraph :=
  o ← load l;
  match o with ONxMixedGraph g => mret g | _ => raise AttributeError end.

Definition load_admg (l : loc) : M Ananke.ADMG :=
  o ← load l;
  match o with OADMG g => mret g | _ => raise AttributeError end.

Definition load_graph (l : loc) : M Nx.Graph :=
  o ← load l;
  match o with OGraph g => mret g | _ => raise AttributeError end.

(** [isinstance(graph, ADMG)] *)
Definition isinstance_ADMG (l : loc) : M bool :=
  o ← load l;
  mret (match o with OADMG _ => true | _ => false end).

(** [for x in xs: body(x)] *)
Fixpoint for_each {A} (xs : list A) (body : A → M unit) : M unit :=
  match xs with
  | [] => mret tt
  | x :: xs' => body x;; for_each xs' body
  end.

(** Methods of the objects in the store. *)

Definition mixed_to_admg (graph : loc) : M loc :=
  g ← load_mixed graph;
  admg ← lift (MixedGraph.to_admg g);
  alloc (OADMG admg).

Definition admg_ancestors (admg : loc) (vs : gset string) : M (gset string) :=
  g ← load_admg admg; lift (Ananke.ancestors g vs).

Definition admg_parents (admg : loc) (vs : gset string) : M (gset string) :=
  g ← load_admg admg; lift (Ananke.parents g vs).

Definition admg_subgraph (admg : loc) (vs : gset string) : M loc :=
  g ← load_admg admg;
  sub ← lift (Ananke.subgraph g vs);
  alloc (OADMG sub).

Definition admg_add_udedge (admg : loc) (u v : string) : M unit :=
  g ← load_admg admg;
  g' ← lift (Ananke.add_udedge g u v);
  store admg (OADMG g').

(** [copy.deepcopy(x)] *)
Definition deepcopy (l : loc) : M loc :=
  o ← load l; alloc o.

Definition graph_add_nodes_from (graph : loc) (vs : list string) : M unit :=
  g ← load_graph graph; store graph (OGraph (Nx.add_nodes_from g vs)).

Definition graph_add_edges_from (graph : loc) (es : list (string * string)) : M unit :=
  g ← load_graph graph; store graph (OGraph (Nx.add_edges_from g es)).

Definition graph_subgraph (graph : loc) (keep : gset string) : M loc :=
  g ← load_graph graph; alloc (OGraph (Nx.subgraph g keep)).

Definition graph_has_path (graph : loc) (source target : string) : M bool :=
  g ← load_graph graph; lift (Nx.has_path g source target).

(** ** y0.util.combinatorics *)

(** Modelled from the spec: [y0.util.combinatorics.powerset] is not among
    the sources at hand.  "iterate over the power set of the remaining
    nodes, restricted to subsets of size ≤ [max_conditions] when specified,
    in non-decreasing size order". *)
Definition powerset {A} (iterable : list A) (stop : option nat) : list (list A) :=
  let s := iterable in
  let top := match stop with None => length s | Some m => m end in
  flat_map (Itertools.combinations s) (seq 0 (S top)).

(** ** y0.algorithm.conditional_independencies *)

Definition _judgement_grouper (judgement : DSeparationJudgement) : variable * variable :=
  (left judgement, right judgement).

Definition _len_lex (judgement : DSeparationJudgement) : nat * string :=
  (length (conditions judgement),
   String.concat ","%string (map name (conditions judgement))).

(** A retention policy: a key function into any type with a [<]. *)
Inductive retention_policy :=
| Policy {K : Type} `{PyOrd K} (key : DSeparationJudgement → K).

Definition minimal_by {K} `{PyOrd K} (policy : DSeparationJudgement → K)
    (judgements : list DSeparationJudgement) : result (gset DSeparationJudgement) :=
  let judgements := sorted _judgement_grouper judgements in
  chosen ← mapM (fun '(k, vs) => py_min policy vs)
                (groupby _judgement_grouper judgements);
  mret (list_to_set chosen).

Definition minimal (judgements : list DSeparationJudgement)
    (policy : option retention_policy) : result (gset DSeparationJudgement) :=
  match policy with
  | None => minimal_by _len_lex judgements
  | Some (Policy key) => minimal_by key judgements
  end.

(** [order.index(v)] *)
Fixpoint index (order : list variable) (v : variable) : result nat :=
  match order with
  | [] => inl ValueError
  | x :: rest => if decide (x = v) then inr 0 else S <$> index rest v
  end.

Definition _topological_policy (judgement : DSeparationJudgement)
    (order : list variable) : result (nat * nat) :=
  ixs ← mapM (index order) (conditions judgement);
  mret (length (conditions judgement), sum_list ixs).

Definition get_topological_policy (graph : loc) :
    M (DSeparationJudgement → result (nat * nat)) :=
  is_admg ← isinstance_ADMG graph;
  if is_admg : bool then raise NoAnankeError else
  g ← load_mixed graph;
  order ← lift (MixedGraph.topological_sort g);
  mret (fun judgement => _topological_policy judgement order).

Definition disorient (graph : loc) : M loc :=
  g ← load_admg graph;
  rv ← alloc (OGraph Nx.empty);
  graph_add_nodes_from rv (elements (Ananke.vertices g));;
  graph_add_edges_from rv
    (elements (Ananke.di_edges g) ++ elements (Ananke.ud_edges g)
       ++ elements (Ananke.bi_edges g));;
  mret rv.

Definition get_moral_links (graph : loc) : M (list (string * string)) :=
  g ← load_admg graph;
  parents ← mapM (fun v => admg_parents graph {[v]}) (elements (Ananke.vertices g));
  let moral_links :=
    flat_map (fun nodes => Itertools.combinations2 (elements nodes))
             (List.filter (fun _ => bool_decide (1 < length parents)) parents) in
  mret moral_links.

(** The conditions as variables, when they all are ([all(isinstance(c,
    Variable) for c in conditions)]). *)
Definition as_variables (conditions : list value) : option (list variable) :=
  mapM (fun c => match c with VVariable v => Some v | _ => None end) conditions.

Definition are_d_separated (graph : loc) (a b : value)
    (conditions : option (list value)) : M DSeparationJudgement :=
  is_admg ← isinstance_ADMG graph;
  if is_admg : bool then raise NoAnankeError else
  let conditions := default [] conditions in
  match a with
  | VVariable a =>
    match b with
    | VVariable b =>
      match as_variables conditions with
      | Some conditions =>
          let condition_names : gset string := list_to_set (name <$> conditions) in
          let named := {[name a; name b]} ∪ condition_names in
          admg ← mixed_to_admg graph;
          (* Filter to ancestors *)
          keep ← admg_ancestors admg named;
          sub ← admg_subgraph admg keep;
          admg ← deepcopy sub;
          (* Moralize (link parents of mentioned nodes) *)
          links ← get_moral_links admg;
          for_each links (fun '(u, v) => admg_add_udedge admg u v);;
          (* disorient & remove conditions *)
          evidence_graph ← disorient admg;
          g ← load_graph evidence_graph;
          let keep := Nx.nodes g ∖ condition_names in
          evidence_graph ← graph_subgraph evidence_graph keep;
          (* check for path.... *)
          path ← graph_has_path evidence_graph (name a) (name b);
          let separated := negb path in
          mret (Judgement.create a b conditions separated)
      | None => raise (TypeError "some conditions are not variables"%string)
      end
    | _ => raise (TypeError "right argument is not given as a Variable"%string)
    end
  | _ => raise (TypeError "left argument is not given as a Variable"%string)
  end.

(** The inner loop of [d_separations] for one pair: the condition sets are
    tried in order; a true judgement is yielded and, unless [return_all],
    ends the loop. *)
Fixpoint scan_conditions (graph : loc) (a b : variable) (return_all : bool)
    (candidates : list (list variable)) : M (list DSeparationJudgement) :=
  match candidates with
  | [] => mret []
  | conditions :: rest =>
      judgement ← are_d_separated graph (VVariable a) (VVariable b)
                    (Some (VVariable <$> conditions));
      if separated judgement then
        if return_all then
          more ← scan_conditions graph a b return_all rest;
          mret (judgement :: more)
        else mret [judgement]
      else scan_conditions graph a b return_all rest
  end.

Fixpoint scan_pairs (graph : loc) (vertices : gset variable)
    (max_conditions : option nat) (return_all : bool)
    (pairs : list (variable * variable)) : M (list DSeparationJudgement) :=
  match pairs with
  | [] => mret []
  | (a, b) :: rest =>
      here ← scan_conditions graph a b return_all
               (powerset (elements (vertices ∖ {[a; b]})) max_conditions);
      more ← scan_pairs graph vertices max_conditions return_all rest;
      mret (here ++ more)
  end.

(** [d_separations]: the judgements the generator yields, in order (the
    progress bar of [verbose] does not take part). *)
Definition d_separations (graph : loc) (max_conditions : option nat)
    (return_all : bool) : M (list DSeparationJudgement) :=
  is_admg ← isinstance_ADMG graph;
  if is_admg : bool then raise NoAnankeError else
  g ← load_mixed graph;
  let vertices := MixedGraph.nodes g in
  scan_pairs graph vertices max_conditions return_all
    (Itertools.combinations2 (elements vertices)).

(** The key that [get_topological_policy] returns can raise; [min] and
    [minimal] are given once more for such keys. *)
Section raising_key.
Context {A K : Type} `{PyOrd K} (key : A → result K).

Fixpoint min_from_raising (best : A) (best_key : K) (l : list A) : result A :=
  match l with
  | [] => inr best
  | x :: l' =>
      k ← key x;
      if py_lt k best_key then min_from_raising x k l'
      else min_from_raising best best_key l'
  end.

(** [min(l, key=key)] for a key that may raise: the key is called once on
    every element, in order, the first included, and the key of the best
    element so far is kept for the comparisons. *)
Definition py_min_raising (l : list A) : result A :=
  match l with
  | [] => inl ValueError
  | x :: l' => k ← key x; min_from_raising x k l'
  end.

End raising_key.

(** [minimal] for a policy that may raise, as the key that
    [get_topological_policy] returns does on a condition missing from its
    order. *)
Definition minimal_raising {K} `{PyOrd K} (policy : DSeparationJudgement → result K)
    (judgements : list DSeparationJudgement) : result (gset DSeparationJudgement) :=
  let judgements := sorted _judgement_grouper judgements in
  chosen ← mapM (fun '(k, vs) => py_min_raising policy vs)
                (groupby _judgement_grouper judgements);
  mret (list_to_set chosen).

(** [get_conditional_independencies]: [max_conditions] and [return_all]
    are the keyword arguments passed on to [d_separations].  The default
    policy is built first; the generator of [d_separations] is consumed by
    [sorted] inside [minimal]. *)
Definition get_conditional_independencies (graph : loc)
    (policy : option retention_policy) (max_conditions : option nat)
    (return_all : bool) : M (gset DSeparationJudgement) :=
  match policy with
  | None =>
      policy ← get_topological_policy graph;
      judgements ← d_separations graph max_conditions return_all;
      lift (minimal_raising policy judgements)
  | Some _ =>
      judgements ← d_separations graph max_conditions return_all;
      lift (minimal judgements policy)
  end.

(** ** Examples *)

Module Examples.

#[local] Open Scope string_scope.

Definition A := Var "A".
Definition B := Var "B".
Definition C := Var "C".

(** A -> C <- B *)
Definition collider : MixedGraph.NxMixedGraph :=
  MixedGraph.mkMixed {[A; B; C]} {[(A, C); (B, C)]} ∅.

(** A -> C -> B *)
Definition chain : MixedGraph.NxMixedGraph :=
  MixedGraph.mkMixed {[A; B; C]} {[(A, C); (C, B)]} ∅.

Definition heap_of (g : MixedGraph.NxMixedGraph) : heap := {[ 0 := ONxMixedGraph g ]}.

Definition D := Var "D".

(** The ananke form of A -> B, passed where the wrapper is expected. *)
Definition ananke_graph : Ananke.ADMG :=
  Ananke.mkADMG {["A"; "B"]} {[("A", "B")]} ∅ ∅.

Definition ananke_heap : heap := {[ 0 := OADMG ananke_graph ]}.


End Examples.

(** A graph with one node and no edge. *)
Definition single_node : MixedGraph.NxMixedGraph :=
  MixedGraph.mkMixed {[Examples.A]} ∅ ∅.

(** ** The store-free reading of the separation test

    What [are_d_separated] computes from the value of the graph object,
    with the copies it works on left implicit.  [are_d_separated_run]
    below shows that the test on the store returns exactly this. *)

Definition moral_links_of (g : Ananke.ADMG) : result (list (string * string)) :=
  parents ← mapM (fun v => Ananke.parents g {[v]}) (elements (Ananke.vertices g));
  mret (flat_map (fun nodes => Itertools.combinations2 (elements nodes))
          (List.filter (fun _ => bool_decide (1 < length parents)) parents)).

Fixpoint add_udedges (g : Ananke.ADMG) (links : list (string * string)) :
    result Ananke.ADMG :=
  match links with
  | [] => inr g
  | (u, v) :: rest => g' ← Ananke.add_udedge g u v; add_udedges g' rest
  end.

Definition disoriented (g : Ananke.ADMG) : Nx.Graph :=
  Nx.add_edges_from
    (Nx.add_nodes_from Nx.empty (elements (Ananke.vertices g)))
    (elements (Ananke.di_edges g) ++ elements (Ananke.ud_edges g)
       ++ elements (Ananke.bi_edges g)).

Definition evidence_graph_of (g : MixedGraph.NxMixedGraph)
    (named condition_names : gset string) : result Nx.Graph :=
  admg ← MixedGraph.to_admg g;
  keep ← Ananke.ancestors admg named;
  sub ← Ananke.subgraph admg keep;
  links ← moral_links_of sub;
  moral ← add_udedges sub links;
  let evidence_graph := disoriented moral in
  mret (Nx.subgraph evidence_graph (Nx.nodes evidence_graph ∖ condition_names)).

Definition d_separated (g : MixedGraph.NxMixedGraph) (a b : variable)
    (conditions : list variable) : result DSeparationJudgement :=
  let condition_names : gset string := list_to_set (name <$> conditions) in
  let named := {[name a; name b]} ∪ condition_names in
  evidence_graph ← evidence_graph_of g named condition_names;
  path ← Nx.has_path evidence_graph (name a) (name b);
  mret (Judgement.create a b conditions (negb path)).

(** The guards of [are_d_separated], in the order they are tried. *)
Inductive guard_outcome :=
| GuardStore
| GuardAnanke
| GuardLeft
| GuardRight
| GuardConditions
| GuardPassed (a b : variable) (conditions : list variable).

Definition guards (h : heap) (graph : loc) (a b : value) (conditions : option (list value)) : guard_outcome :=
  match h !! graph with
  | None => GuardStore
  | Some (OADMG _) => GuardAnanke
  | Some _ =>
      match a, b with
      | VVariable a, VVariable b =>
          match as_variables (default [] conditions) with
          | Some cs => GuardPassed a b cs
          | None => GuardConditions
          end
      | VVariable _, _ => GuardRight
      | _, _ => GuardLeft
      end
  end.

(** ** Paths

    [edge es u v]: the pair is in the edge set; paths are [rtc (edge es)]. *)
Definition edge {K : Type} `{Countable K} (es : gset (K * K)) (u v : K) : Prop :=
  (u, v) ∈ es.

(** A graph whose directed edges join vertices of the graph. *)
Definition admg_wf (g : Ananke.ADMG) : Prop :=
  ∀ u v, (u, v) ∈ Ananke.di_edges g → u ∈ Ananke.vertices g ∧ v ∈ Ananke.vertices g.

Definition parents_of (g : Ananke.ADMG) (v : string) : gset string :=
  successors (flip_edges (Ananke.di_edges g)) {[v]}.

(** The names a graph knows. *)
Definition node_names (g : MixedGraph.NxMixedGraph) : gset string :=
  set_map name (MixedGraph.nodes g).

(** The ancestor closure of [named] along the directed edges. *)
Definition ancestral (g : MixedGraph.NxMixedGraph) (named : gset string) : gset string :=
  reach (flip_edges (MixedGraph.names (MixedGraph.directed g)))
        (size (node_names g)) named.

(** The links of the moralized ancestral graph: a directed edge, a
    bidirected edge, or two parents of a common child, all within [keep]. *)
Definition linked (g : MixedGraph.NxMixedGraph) (keep : gset string)
    (u v : string) : Prop :=
  u ∈ keep ∧ v ∈ keep ∧
  ((u, v) ∈ MixedGraph.names (MixedGraph.directed g)
   ∨ (u, v) ∈ MixedGraph.names (MixedGraph.undirected g)
   ∨ (u ≠ v ∧ ∃ w, w ∈ keep
        ∧ (u, w) ∈ MixedGraph.names (MixedGraph.directed g)
        ∧ (v, w) ∈ MixedGraph.names (MixedGraph.directed g))).

(** One step in the moralized ancestral graph that avoids the conditions. *)
Definition open_link (g : MixedGraph.NxMixedGraph) (named cn : gset string)
    (u v : string) : Prop :=
  (u ∉ cn) ∧ (v ∉ cn)
  ∧ (linked g (ancestral g named) u v ∨ linked g (ancestral g named) v u).

(** [a] and [b] are joined by a path of such steps. *)
Definition connected (g : MixedGraph.NxMixedGraph) (a b : variable)
    (cs : list variable) : Prop :=
  let cn : gset string := list_to_set (name <$> cs) in
  rtc (open_link g ({[name a; name b]} ∪ cn) cn) (name a) (name b).

(** Some argument is not a [Variable]. *)
Definition not_all_variables (a b : value) (conditions : option (list value)) : Prop :=
  isinstance_Variable a = false ∨ isinstance_Variable b = false
  ∨ ∃ c, c ∈ default [] conditions ∧ isinstance_Variable c = false.

(** The call fails in [nx.has_path], after every earlier step went through. *)
Definition fails_at_path_check (h : heap) (graph : loc) (a b : variable)
    (cs : list variable) : Prop :=
  ∃ g G,
    h !! graph = Some (ONxMixedGraph g)
    ∧ evidence_graph_of g ({[name a; name b]} ∪ list_to_set (name <$> cs))
        (list_to_set (name <$> cs)) = inr G
    ∧ Nx.has_path G (name a) (name b) = inl NodeNotFound
    ∧ (are_d_separated graph (VVariable a) (VVariable b)
         (Some (VVariable <$> cs)) h).1 = inl NodeNotFound.

(** A [<] that is irreflexive and transitive. *)
Definition strict_order {K} (lt : K → K → bool) : Prop :=
  (∀ x, lt x x = false) ∧ (∀ x y z, lt x y = true → lt y z = true → lt x z = true).

(** A strict order in which two keys that are not ordered are equal. *)
Definition total_order {K} (lt : K → K → bool) : Prop :=
  strict_order lt ∧ (∀ x y, lt x y = false → lt y x = false → x = y).

(** [x] may stand before [y] in a list sorted by [key]. *)
Definition key_le {A K} `{PyOrd K} (key : A → K) (x y : A) : Prop :=
  py_lt (key y) (key x) = false.

(** The elements with key [k]. *)
Definition has_key {A K} `{EqDecision K} (key : A → K) (k : K) (x : A) : bool :=
  bool_decide (key x = k).

(** The [<] of the keys of a retention policy, [_len_lex] when none is given. *)
Definition policy_lt (policy : option retention_policy)
    (j1 j2 : DSeparationJudgement) : bool :=
  match policy with
  | None => py_lt (_len_lex j1) (_len_lex j2)
  | Some (Policy key) => py_lt (key j1) (key j2)
  end.

(** The keys of the policy are strictly ordered by their [<]. *)
Definition sound_policy (policy : option retention_policy) : Prop :=
  match policy with
  | None => True
  | Some (@Policy K ord _) => strict_order (@py_lt K ord)
  end.

(** The directed part of the graph has a cycle. *)
Definition directed_cycle (g : MixedGraph.NxMixedGraph) : Prop :=
  ∃ v, tc (edge (MixedGraph.directed g)) v v.

(** [order] lists the nodes once each, every directed edge pointing forward. *)
Definition topological_order (g : MixedGraph.NxMixedGraph) (order : list variable) : Prop :=
  NoDup order
  ∧ (∀ v, v ∈ order ↔ v ∈ MixedGraph.nodes g)
  ∧ ∀ u w i j, (u, w) ∈ MixedGraph.directed g →
      order !! i = Some u → order !! j = Some w → i < j.

(** [s] is in [l] and has no predecessor in [l]. *)
Definition source_in (es : gset (variable * variable)) (l : list variable)
    (s : variable) : Prop :=
  s ∈ l ∧ ∀ u, u ∈ l → (u, s) ∉ es.

(** The store-free reading of the inner loop of [d_separations]. *)
Fixpoint scan_conditions_of (g : MixedGraph.NxMixedGraph) (a b : variable)
    (return_all : bool) (candidates : list (list variable)) :
    result (list DSeparationJudgement) :=
  match candidates with
  | [] => inr []
  | conditions :: rest =>
      judgement ← d_separated g a b conditions;
      if separated judgement then
        if return_all then
          more ← scan_conditions_of g a b return_all rest;
          mret (judgement :: more)
        else mret [judgement]
      else scan_conditions_of g a b return_all rest
  end.

(** The store-free reading of the outer loop. *)
Fixpoint scan_pairs_of (g : MixedGraph.NxMixedGraph) (vertices : gset variable)
    (max_conditions : option nat) (return_all : bool)
    (pairs : list (variable * variable)) : result (list DSeparationJudgement) :=
  match pairs with
  | [] => inr []
  | (a, b) :: rest =>
      here ← scan_conditions_of g a b return_all
               (powerset (elements (vertices ∖ {[a; b]})) max_conditions);
      more ← scan_pairs_of g vertices max_conditions return_all rest;
      mret (here ++ more)
  end.

(** The true judgements among the tests of [candidates], in order. *)
Definition hits (g : MixedGraph.NxMixedGraph) (a b : variable)
    (candidates : list (list variable)) : list DSeparationJudgement :=
  omap (fun conditions =>
          match d_separated g a b conditions with
          | inr judgement => if separated judgement then Some judgement else None
          | inl _ => None
          end) candidates.

(** The condition sets tried for the pair [(a, b)], in order. *)
Definition candidates (g : MixedGraph.NxMixedGraph) (max_conditions : option nat)
    (a b : variable) : list (list variable) :=
  powerset (elements (MixedGraph.nodes g ∖ {[a; b]})) max_conditions.

(** What the pair [(a, b)] contributes to the enumeration. *)
Definition yields (g : MixedGraph.NxMixedGraph) (max_conditions : option nat)
    (return_all : bool) (a b : variable) : list DSeparationJudgement :=
  let found := hits g a b (candidates g max_conditions a b) in
  if return_all then found else take 1 found.

(** The pairs of nodes, in the order of the outer loop. *)
Definition node_pairs (g : MixedGraph.NxMixedGraph) : list (variable * variable) :=
  Itertools.combinations2 (elements (MixedGraph.nodes g)).

(** The set [S] of conditions separates [a] and [b]. *)
Definition separating (g : MixedGraph.NxMixedGraph) (a b : variable)
    (S : gset variable) : Prop :=
  ∃ j, d_separated g a b (elements S) = inr j ∧ separated j = true.

(** * Properties *)

(** ** Running the methods on the store *)

Lemma bind_run {A B} (m : M A) (k : A → M B) h :
  (m ≫= k) h = match m h with (inl e, h') => (inl e, h') | (inr x, h') => k x h' end.
Proof. reflexivity. Qed.

Lemma lift_bind_run {A B} (r : result A) (k : A → M B) (h : heap) :
  (lift r ≫= k) h = match r with inl e => (inl e, h) | inr x => k x h end.
Proof. rewrite bind_run. unfold lift. by destruct r. Qed.

Lemma load_run (h : heap) l o : h !! l = Some o → load l h = (inr o, h).
Proof. intros Hl. unfold load. by rewrite Hl. Qed.

Lemma load_mixed_run (h : heap) l g :
  h !! l = Some (ONxMixedGraph g) → load_mixed l h = (inr g, h).
Proof. intros Hl. unfold load_mixed. by rewrite bind_run, (load_run _ _ _ Hl). Qed.

Lemma load_admg_run (h : heap) l g :
  h !! l = Some (OADMG g) → load_admg l h = (inr g, h).
Proof. intros Hl. unfold load_admg. by rewrite bind_run, (load_run _ _ _ Hl). Qed.

Lemma load_graph_run (h : heap) l g :
  h !! l = Some (OGraph g) → load_graph l h = (inr g, h).
Proof. intros Hl. unfold load_graph. by rewrite bind_run, (load_run _ _ _ Hl). Qed.

Lemma isinstance_ADMG_run (h : heap) l o :
  h !! l = Some o →
  isinstance_ADMG l h = (inr (match o with OADMG _ => true | _ => false end), h).
Proof. intros Hl. unfold isinstance_ADMG. by rewrite bind_run, (load_run _ _ _ Hl). Qed.

Lemma lookup_alloc_old (h : heap) l o x :
  h !! l = Some x → <[fresh (dom h) := o]> h !! l = Some x.
Proof.
  intros Hl. rewrite lookup_insert_ne; [done|].
  intros <-. apply (is_fresh (dom h)). apply elem_of_dom. eauto.
Qed.

Lemma fresh_frame (h0 h : heap) : h0 ⊆ h → h0 !! fresh (dom h) = None.
Proof.
  intros Hsub. apply not_elem_of_dom. intros Hin.
  apply (is_fresh (dom h)). by apply (subseteq_dom h0 h).
Qed.

Lemma alloc_frame (h0 h : heap) o : h0 ⊆ h → h0 ⊆ <[fresh (dom h) := o]> h.
Proof. intros Hsub. apply insert_subseteq_r; [by apply fresh_frame|done]. Qed.

Lemma mixed_to_admg_run (h : heap) l g :
  h !! l = Some (ONxMixedGraph g) →
  mixed_to_admg l h =
    match MixedGraph.to_admg g with
    | inl e => (inl e, h)
    | inr admg => (inr (fresh (dom h)), <[fresh (dom h) := OADMG admg]> h)
    end.
Proof.
  intros Hl. unfold mixed_to_admg.
  rewrite bind_run, (load_mixed_run _ _ _ Hl), lift_bind_run.
  by destruct (MixedGraph.to_admg g).
Qed.

Lemma admg_ancestors_run (h : heap) l g vs :
  h !! l = Some (OADMG g) → admg_ancestors l vs h = (Ananke.ancestors g vs, h).
Proof.
  intros Hl. unfold admg_ancestors. by rewrite bind_run, (load_admg_run _ _ _ Hl).
Qed.

Lemma admg_parents_run (h : heap) l g vs :
  h !! l = Some (OADMG g) → admg_parents l vs h = (Ananke.parents g vs, h).
Proof.
  intros Hl. unfold admg_parents. by rewrite bind_run, (load_admg_run _ _ _ Hl).
Qed.

Lemma admg_subgraph_run (h : heap) l g vs :
  h !! l = Some (OADMG g) →
  admg_subgraph l vs h =
    match Ananke.subgraph g vs with
    | inl e => (inl e, h)
    | inr sub => (inr (fresh (dom h)), <[fresh (dom h) := OADMG sub]> h)
    end.
Proof.
  intros Hl. unfold admg_subgraph.
  rewrite bind_run, (load_admg_run _ _ _ Hl), lift_bind_run.
  by destruct (Ananke.subgraph g vs).
Qed.

Lemma deepcopy_run (h : heap) l o :
  h !! l = Some o → deepcopy l h = (inr (fresh (dom h)), <[fresh (dom h) := o]> h).
Proof. intros Hl. unfold deepcopy. by rewrite bind_run, (load_run _ _ _ Hl). Qed.

Lemma mapM_parents_run (h : heap) l g vs :
  h !! l = Some (OADMG g) →
  mapM (fun v => admg_parents l {[v]}) vs h
  = (mapM (fun v => Ananke.parents g {[v]}) vs, h).
Proof.
  intros Hl. induction vs as [|v vs IH]; [done|].
  cbn [mapM]. rewrite bind_run, (admg_parents_run _ _ _ _ Hl).
  destruct (Ananke.parents g {[v]}) as [e|ps]; [done|].
  cbn. rewrite bind_run, IH.
  destruct (mapM (M:=result) _ vs); reflexivity.
Qed.

Lemma get_moral_links_run (h : heap) l g :
  h !! l = Some (OADMG g) → get_moral_links l h = (moral_links_of g, h).
Proof.
  intros Hl. unfold get_moral_links, moral_links_of.
  rewrite bind_run, (load_admg_run _ _ _ Hl), bind_run, (mapM_parents_run _ _ _ _ Hl).
  destruct (mapM (M:=result) _ _); reflexivity.
Qed.

Lemma admg_add_udedge_run (h : heap) l g u v :
  h !! l = Some (OADMG g) →
  admg_add_udedge l u v h =
    match Ananke.add_udedge g u v with
    | inl e => (inl e, h)
    | inr g' => (inr tt, <[l := OADMG g']> h)
    end.
Proof.
  intros Hl. unfold admg_add_udedge.
  rewrite bind_run, (load_admg_run _ _ _ Hl), lift_bind_run.
  by destruct (Ananke.add_udedge g u v).
Qed.

Lemma add_udedges_run (h : heap) l g links :
  h !! l = Some (OADMG g) →
  ∃ g', for_each links (fun '(u, v) => admg_add_udedge l u v) h
        = (add_udedges g links ≫= (fun _ => inr tt), <[l := OADMG g']> h)
      ∧ (∀ g'', add_udedges g links = inr g'' → g' = g'').
Proof.
  revert h g. induction links as [|[u v] links IH]; intros h g Hl.
  - exists g. split; [|by intros ? [= ->]]. cbn. by rewrite insert_id.
  - cbn [for_each add_udedges].
    rewrite bind_run, (admg_add_udedge_run _ _ _ _ _ Hl).
    destruct (Ananke.add_udedge g u v) as [e|g1] eqn:Hadd.
    + exists g. split; [|done]. cbn. by rewrite insert_id.
    + destruct (IH (<[l := OADMG g1]> h) g1) as (g' & Hrun & Hg'); [by rewrite lookup_insert_eq|].
      exists g'. rewrite Hrun, insert_insert_eq. split; [|done].
      cbn. by destruct (add_udedges g1 links).
Qed.

Lemma disorient_run (h : heap) l g :
  h !! l = Some (OADMG g) →
  disorient l h = (inr (fresh (dom h)), <[fresh (dom h) := OGraph (disoriented g)]> h).
Proof.
  intros Hl. unfold disorient.
  rewrite bind_run, (load_admg_run _ _ _ Hl). unfold alloc at 1. rewrite bind_run.
  unfold graph_add_nodes_from, graph_add_edges_from, store.
  rewrite !bind_run. erewrite load_graph_run by apply lookup_insert_eq.
  rewrite !bind_run. erewrite load_graph_run by apply lookup_insert_eq.
  by rewrite !insert_insert_eq.
Qed.

Lemma graph_subgraph_run (h : heap) l g keep :
  h !! l = Some (OGraph g) →
  graph_subgraph l keep h
  = (inr (fresh (dom h)), <[fresh (dom h) := OGraph (Nx.subgraph g keep)]> h).
Proof.
  intros Hl. unfold graph_subgraph. by rewrite bind_run, (load_graph_run _ _ _ Hl).
Qed.

Lemma graph_has_path_run (h : heap) l g s t :
  h !! l = Some (OGraph g) → graph_has_path l s t h = (Nx.has_path g s t, h).
Proof.
  intros Hl. unfold graph_has_path. by rewrite bind_run, (load_graph_run _ _ _ Hl).
Qed.

Lemma as_variables_fmap cs : as_variables (VVariable <$> cs) = Some cs.
Proof.
  unfold as_variables. induction cs as [|c cs IH]; [done|].
  cbn. cbn in IH. by rewrite IH.
Qed.

(** The store only grows by objects at new locations. *)
Ltac frame :=
  repeat first
    [ done
    | apply alloc_frame
    | apply insert_subseteq_r; [by (apply fresh_frame; frame)|] ].

Ltac rsimpl := cbn [mbind mret result_bind result_ret].

(** On a mixed graph and variables, the test returns what the store-free
    reading says, and leaves every object that existed before in place. *)
Lemma are_d_separated_run (h : heap) graph g a b cs :
  h !! graph = Some (ONxMixedGraph g) →
  ∃ h', are_d_separated graph (VVariable a) (VVariable b)
          (Some (VVariable <$> cs)) h = (d_separated g a b cs, h')
        ∧ h ⊆ h'.
Proof.
  intros Hg. unfold are_d_separated, d_separated, evidence_graph_of.
  rewrite bind_run, (isinstance_ADMG_run _ _ _ Hg). cbv beta iota. unfold default, id.
  rewrite as_variables_fmap.
  rewrite bind_run, (mixed_to_admg_run _ _ _ Hg).
  destruct (MixedGraph.to_admg g) as [e|admg]; rsimpl; [by eexists|].
  rewrite bind_run. erewrite admg_ancestors_run by apply lookup_insert_eq.
  destruct (Ananke.ancestors admg _) as [e|keep]; rsimpl; [eexists; split; [reflexivity|frame]|].
  rewrite bind_run. erewrite admg_subgraph_run by apply lookup_insert_eq.
  destruct (Ananke.subgraph admg keep) as [e|sub]; rsimpl; [eexists; split; [reflexivity|frame]|].
  rewrite bind_run. erewrite deepcopy_run by apply lookup_insert_eq.
  rewrite bind_run. erewrite get_moral_links_run by apply lookup_insert_eq.
  destruct (moral_links_of sub) as [e|links]; rsimpl; [eexists; split; [reflexivity|frame]|].
  rewrite bind_run.
  edestruct (add_udedges_run) as (moral & -> & Hmoral); [apply lookup_insert_eq|].
  destruct (add_udedges sub links) as [e|moral']; rsimpl; [eexists; split; [reflexivity|frame]|].
  rewrite (Hmoral _ eq_refl). clear Hmoral.
  rewrite bind_run. erewrite disorient_run by apply lookup_insert_eq.
  rewrite bind_run. erewrite load_graph_run by apply lookup_insert_eq.
  rewrite bind_run. erewrite graph_subgraph_run by apply lookup_insert_eq.
  rewrite bind_run. erewrite graph_has_path_run by apply lookup_insert_eq.
  destruct (Nx.has_path _ _ _) as [e|path]; rsimpl; (eexists; split; [reflexivity|frame]).
Qed.

Lemma as_variables_Some conds cs :
  as_variables conds = Some cs → conds = VVariable <$> cs.
Proof.
  unfold as_variables. revert cs. induction conds as [|c conds IH]; intros cs Hcs.
  - by injection Hcs as <-.
  - cbn in Hcs. destruct c as [v| |]; try discriminate. cbn in Hcs.
    destruct (mapM _ conds) as [cs'|] eqn:Hm; [|discriminate].
    injection Hcs as <-. cbn. by rewrite (IH cs' eq_refl).
Qed.

Lemma as_variables_None conds :
  as_variables conds = None ↔ ∃ c, c ∈ conds ∧ isinstance_Variable c = false.
Proof.
  unfold as_variables. induction conds as [|c conds IH].
  - split; [discriminate|]. intros (c & Hc & _). by apply elem_of_nil in Hc.
  - cbn. destruct c as [v| |]; cbn.
    + destruct (mapM _ conds) as [cs'|] eqn:Hm.
      * split; [discriminate|]. intros (c & Hc & Hv).
        apply elem_of_cons in Hc as [->|Hc]; [discriminate|].
        destruct IH as [_ IH]. discriminate IH. eauto.
      * split; [|done]. intros _. destruct IH as [IH _].
        destruct (IH eq_refl) as (c & Hc & Hv). exists c. split; [by right|done].
    + split; [|done]. intros _. eexists. split; [by left|done].
    + split; [|done]. intros _. eexists. split; [by left|done].
Qed.

Lemma load_fail (h : heap) l : h !! l = None → load l h = (inl AttributeError, h).
Proof. intros Hl. unfold load. by rewrite Hl. Qed.

Lemma load_mixed_other (h : heap) l :
  (∀ g, h !! l ≠ Some (ONxMixedGraph g)) → load_mixed l h = (inl AttributeError, h).
Proof.
  intros Hl. unfold load_mixed, load. rewrite bind_run.
  destruct (h !! l) as [[]|] eqn:Ho; try done. by destruct (Hl g).
Qed.

Lemma are_d_separated_guards (h : heap) graph a b conditions :
  match guards h graph a b conditions with
  | GuardStore => are_d_separated graph a b conditions h = (inl AttributeError, h)
  | GuardAnanke => are_d_separated graph a b conditions h = (inl NoAnankeError, h)
  | GuardLeft =>
      are_d_separated graph a b conditions h
      = (inl (TypeError "left argument is not given as a Variable"%string), h)
  | GuardRight =>
      are_d_separated graph a b conditions h
      = (inl (TypeError "right argument is not given as a Variable"%string), h)
  | GuardConditions =>
      are_d_separated graph a b conditions h
      = (inl (TypeError "some conditions are not variables"%string), h)
  | GuardPassed va vb cs =>
      are_d_separated graph a b conditions h
      = are_d_separated graph (VVariable va) (VVariable vb) (Some (VVariable <$> cs)) h
  end.
Proof.
  unfold guards, are_d_separated. rewrite bind_run.
  destruct (h !! graph) as [o|] eqn:Ho.
  - rewrite (isinstance_ADMG_run _ _ _ Ho).
    destruct o; try done.
    + destruct a; try done. destruct b; try done.
      destruct (as_variables (default [] conditions)) as [cs|] eqn:Hcs; [|done].
      rewrite (bind_run (isinstance_ADMG graph)), (isinstance_ADMG_run _ _ _ Ho).
      unfold default, id. by rewrite as_variables_fmap.
    + destruct a; try done. destruct b; try done.
      destruct (as_variables (default [] conditions)) as [cs|] eqn:Hcs; [|done].
      rewrite (bind_run (isinstance_ADMG graph)), (isinstance_ADMG_run _ _ _ Ho).
      unfold default, id. by rewrite as_variables_fmap.
  - unfold isinstance_ADMG. rewrite bind_run, (load_fail _ _ Ho). done.
Qed.

Lemma are_d_separated_frame (h : heap) graph a b conditions :
  h ⊆ (are_d_separated graph a b conditions h).2.
Proof.
  pose proof (are_d_separated_guards h graph a b conditions) as Hg.
  destruct (guards h graph a b conditions) eqn:Hgu; rewrite Hg; try done.
  unfold guards in Hgu.
  destruct (h !! graph) as [o|] eqn:Ho; [|done].
  destruct o as [g|g|g]; [|done|].
  - destruct (are_d_separated_run h graph g a0 b0 conditions0 Ho) as (h' & -> & Hsub). done.
  - unfold are_d_separated. rewrite bind_run, (isinstance_ADMG_run _ _ _ Ho).
    unfold default, id. rewrite as_variables_fmap, bind_run.
    unfold mixed_to_admg. rewrite bind_run, load_mixed_other; [done|].
    intros g'. by rewrite Ho.
Qed.

(** ** Reachability *)

Section reach_facts.
Context {K : Type} `{Countable K}.
Implicit Types (es : gset (K * K)) (X V : gset K).

Lemma elem_of_successors es X v :
  v ∈ successors es X ↔ ∃ u, u ∈ X ∧ edge es u v.
Proof.
  unfold successors, edge. rewrite elem_of_map. split.
  - intros ([u v'] & -> & Hin). apply elem_of_filter in Hin as [Hu Hin]. eauto.
  - intros (u & Hu & Hin). exists (u, v). split; [done|]. by apply elem_of_filter.
Qed.

Lemma elem_of_flip_edges es u v : (u, v) ∈ flip_edges es ↔ (v, u) ∈ es.
Proof.
  unfold flip_edges. rewrite elem_of_map. split.
  - by intros ([a b] & [= -> ->] & Hin).
  - intros Hin. by exists (v, u).
Qed.

Lemma reach_incl es n X : X ⊆ reach es n X.
Proof.
  revert X. induction n as [|n IH]; intros X; [done|].
  cbn. etrans; [|apply IH]. set_solver.
Qed.

Lemma reach_sound es n X v :
  v ∈ reach es n X → ∃ u, u ∈ X ∧ rtc (edge es) u v.
Proof.
  revert X. induction n as [|n IH]; intros X Hv.
  - exists v. split; [done|]. apply rtc_refl.
  - cbn in Hv. destruct (IH _ Hv) as (u & Hu & Hpath).
    apply elem_of_union in Hu as [Hu|Hu]; [eauto|].
    apply elem_of_successors in Hu as (w & Hw & Hedge).
    exists w. split; [done|]. by eapply rtc_l.
Qed.

Lemma reach_fixed es n X : successors es X ⊆ X → reach es n X = X.
Proof.
  intros Hclosed. induction n as [|n IH]; [done|].
  cbn. replace (X ∪ successors es X) with X by set_solver. done.
Qed.

Lemma successors_within es X V :
  (∀ u v, edge es u v → v ∈ V) → successors es X ⊆ V.
Proof. intros Hes v (u & _ & Hedge)%elem_of_successors. eauto. Qed.

Lemma reach_within es n X V :
  (∀ u v, edge es u v → v ∈ V) → X ⊆ V → reach es n X ⊆ V.
Proof.
  intros Hes. revert X. induction n as [|n IH]; intros X HX; [done|].
  cbn. apply IH. pose proof (successors_within es X V Hes). set_solver.
Qed.

(** With as much fuel as there are nodes nothing more can be reached. *)
Lemma reach_closed es n X V :
  (∀ u v, edge es u v → v ∈ V) → X ⊆ V → size V ≤ size X + n →
  successors es (reach es n X) ⊆ reach es n X.
Proof.
  intros Hes. revert X. induction n as [|n IH]; intros X HX Hsize.
  - cbn. assert (X = V) as ->.
    { apply set_eq. apply set_subseteq_size_equiv; [done|lia]. }
    by apply successors_within.
  - cbn. destruct (decide (successors es X ⊆ X)) as [Hclosed|Hopen].
    + replace (X ∪ successors es X) with X by set_solver.
      by rewrite reach_fixed.
    + apply IH.
      * pose proof (successors_within es X V Hes). set_solver.
      * assert (X ⊂ X ∪ successors es X) as Hlt by set_solver.
        apply subset_size in Hlt. lia.
Qed.

Lemma closed_rtc es Y u v :
  successors es Y ⊆ Y → u ∈ Y → rtc (edge es) u v → v ∈ Y.
Proof.
  intros Hclosed Hu Hpath. induction Hpath as [|u w v Hedge _ IH]; [done|].
  apply IH, Hclosed, elem_of_successors. eauto.
Qed.

Lemma elem_of_reach es X V v :
  (∀ u v, edge es u v → v ∈ V) → X ⊆ V →
  v ∈ reach es (size V) X ↔ ∃ u, u ∈ X ∧ rtc (edge es) u v.
Proof.
  intros Hes HX. split; [apply reach_sound|].
  intros (u & Hu & Hpath).
  eapply closed_rtc; [|by apply reach_incl|done].
  eapply reach_closed; [done..|lia].
Qed.

Lemma rtc_edge_sym es u v :
  (∀ u v, edge es u v → edge es v u) → rtc (edge es) u v → rtc (edge es) v u.
Proof.
  intros Hsym Hpath. induction Hpath as [|u w v Hedge _ IH]; [done|].
  eapply rtc_r; [done|]. by apply Hsym.
Qed.

End reach_facts.

(** ** ananke *)

Lemma first_missing_None g vs :
  Ananke.first_missing g vs = None ↔ ∀ v, v ∈ vs → v ∈ Ananke.vertices g.
Proof.
  unfold Ananke.first_missing. induction vs as [|v vs IH]; cbn.
  - split; [|done]. intros _ v Hv. by apply elem_of_nil in Hv.
  - case_bool_decide as Hv.
    + split; [done|]. intros Hall. destruct Hv. apply Hall. by left.
    + rewrite IH. split.
      * intros Hall w [->|Hw]%elem_of_cons; auto.
      * intros Hall w Hw. apply Hall. by right.
Qed.

Lemma first_missing_Some g vs v :
  Ananke.first_missing g vs = Some v → v ∈ vs ∧ v ∉ Ananke.vertices g.
Proof.
  unfold Ananke.first_missing. intros Hfind.
  apply find_some in Hfind as [Hin Hv].
  apply bool_decide_eq_true in Hv. split; [|done]. by apply list_elem_of_In.
Qed.

Lemma lookup_all_ok {A} g vs (k : A) :
  vs ⊆ Ananke.vertices g → Ananke.lookup_all g vs k = inr k.
Proof.
  intros Hvs. unfold Ananke.lookup_all.
  destruct (Ananke.first_missing g (elements vs)) as [v|] eqn:Hm; [|done].
  apply first_missing_Some in Hm as [Hin Hv]. apply elem_of_elements in Hin.
  destruct Hv. auto.
Qed.

Lemma lookup_all_missing {A} g vs (k : A) :
  ¬ (vs ⊆ Ananke.vertices g) →
  ∃ v, v ∈ vs ∧ (v ∉ Ananke.vertices g) ∧ Ananke.lookup_all g vs k = inl (KeyError v).
Proof.
  intros Hvs. unfold Ananke.lookup_all.
  destruct (Ananke.first_missing g (elements vs)) as [v|] eqn:Hm.
  - apply first_missing_Some in Hm as [Hin Hv]. apply elem_of_elements in Hin. eauto.
  - destruct Hvs. intros v Hv. eapply first_missing_None; [done|].
    by apply elem_of_elements.
Qed.

Lemma lookup_all_inr {A} g vs (k k' : A) :
  Ananke.lookup_all g vs k = inr k' → k' = k ∧ vs ⊆ Ananke.vertices g.
Proof.
  intros Hl. destruct (decide (vs ⊆ Ananke.vertices g)) as [Hvs|Hvs].
  - rewrite lookup_all_ok in Hl by done. by injection Hl as ->.
  - destruct (lookup_all_missing g vs k Hvs) as (v & _ & _ & Hk). congruence.
Qed.

Lemma elem_of_induced vs es u v :
  (u, v) ∈ Ananke.induced vs es ↔ (u, v) ∈ es ∧ u ∈ vs ∧ v ∈ vs.
Proof. unfold Ananke.induced. rewrite elem_of_filter. cbn. tauto. Qed.

Lemma elem_of_names es u v :
  (u, v) ∈ MixedGraph.names es ↔ (Var u, Var v) ∈ es.
Proof.
  unfold MixedGraph.names. rewrite elem_of_map. split.
  - by intros ([[a] [b]] & [= -> ->] & Hin).
  - intros Hin. by exists (Var u, Var v).
Qed.

Lemma elem_of_node_names g v :
  v ∈ (set_map name (MixedGraph.nodes g) : gset string) ↔ Var v ∈ MixedGraph.nodes g.
Proof.
  rewrite elem_of_map. split.
  - by intros ([a] & -> & Hin).
  - intros Hin. by exists (Var v).
Qed.

Lemma elem_of_endpoints es v :
  v ∈ MixedGraph.endpoints es ↔ ∃ w, (v, w) ∈ es ∨ (w, v) ∈ es.
Proof.
  unfold MixedGraph.endpoints. rewrite elem_of_union, !elem_of_map. split.
  - intros [([a b] & -> & Hin)|([a b] & -> & Hin)]; eauto.
  - intros (w & [Hin|Hin]); [left; by exists (v, w)|right; by exists (w, v)].
Qed.

Lemma directed_in_nodes g u v :
  (u, v) ∈ MixedGraph.directed g → u ∈ MixedGraph.nodes g ∧ v ∈ MixedGraph.nodes g.
Proof.
  intros Hin. unfold MixedGraph.nodes.
  rewrite !elem_of_union, !elem_of_endpoints. split; left; right; eauto.
Qed.

Lemma undirected_in_nodes g u v :
  (u, v) ∈ MixedGraph.undirected g → u ∈ MixedGraph.nodes g ∧ v ∈ MixedGraph.nodes g.
Proof.
  intros Hin. unfold MixedGraph.nodes.
  rewrite !elem_of_union, !elem_of_endpoints. split; right; eauto.
Qed.

(** The conversion never fails: every endpoint is a node. *)
Lemma to_admg_ok g :
  MixedGraph.to_admg g
  = inr (Ananke.mkADMG (set_map name (MixedGraph.nodes g))
           (MixedGraph.names (MixedGraph.directed g))
           (MixedGraph.names (MixedGraph.undirected g)) ∅).
Proof.
  unfold MixedGraph.to_admg, Ananke.new.
  destruct (Ananke.first_missing _ _) as [v|] eqn:Hm; [|done].
  apply first_missing_Some in Hm as [Hin Hv]. destruct Hv. cbn.
  apply list_elem_of_In, in_flat_map in Hin as ([a b] & Hin & Hv).
  apply list_elem_of_In, elem_of_app in Hin.
  rewrite !elem_of_elements, !elem_of_names in Hin.
  apply elem_of_node_names.
  assert (v = a ∨ v = b) as Hab.
  { cbn in Hv. destruct Hv as [<-|[<-|[]]]; auto. }
  destruct Hin as [Hin|Hin].
  - apply directed_in_nodes in Hin. destruct Hab as [->| ->]; tauto.
  - apply undirected_in_nodes in Hin. destruct Hab as [->| ->]; tauto.
Qed.

(** ** itertools *)

Lemma combinations_0 {A} (l : list A) : Itertools.combinations l 0 = [[]].
Proof. by destruct l. Qed.

Lemma combinations_1 {A} (l : list A) :
  Itertools.combinations l 1 = map (fun x => [x]) l.
Proof.
  induction l as [|x l IH]; [done|].
  change (Itertools.combinations (x :: l) 1)
    with (map (cons x) (Itertools.combinations l 0) ++ Itertools.combinations l 1).
  by rewrite IH, combinations_0.
Qed.

Lemma combinations2_cons {A} (x : A) (l : list A) :
  Itertools.combinations2 (x :: l)
  = map (fun y => (x, y)) l ++ Itertools.combinations2 l.
Proof.
  unfold Itertools.combinations2.
  change (Itertools.combinations (x :: l) 2)
    with (map (cons x) (Itertools.combinations l 1) ++ Itertools.combinations l 2).
  rewrite omap_app. f_equal.
  rewrite combinations_1. induction l as [|y l IH]; [done|].
  cbn. by rewrite IH.
Qed.

Lemma combinations2_elem_of {A} (l : list A) u v :
  (u, v) ∈ Itertools.combinations2 l → u ∈ l ∧ v ∈ l.
Proof.
  induction l as [|x l IH]; [by intros ?%elem_of_nil|].
  rewrite combinations2_cons, elem_of_app, list_elem_of_fmap.
  intros [(y & [= -> ->] & Hy)|Hin].
  - split; [by left|by right].
  - destruct (IH Hin). split; by right.
Qed.

Lemma combinations2_ne {A} (l : list A) u v :
  NoDup l → (u, v) ∈ Itertools.combinations2 l → u ≠ v.
Proof.
  induction 1 as [|x l Hx _ IH]; [by intros ?%elem_of_nil|].
  rewrite combinations2_cons, elem_of_app, list_elem_of_fmap.
  intros [(y & [= -> ->] & Hy)|Hin]; [|auto].
  by intros ->.
Qed.

Lemma combinations2_either {A} (l : list A) u v :
  u ∈ l → v ∈ l → u ≠ v →
  (u, v) ∈ Itertools.combinations2 l ∨ (v, u) ∈ Itertools.combinations2 l.
Proof.
  induction l as [|x l IH]; [by intros ?%elem_of_nil|].
  rewrite !combinations2_cons, !elem_of_app, !list_elem_of_fmap.
  intros [->|Hu]%elem_of_cons [->|Hv]%elem_of_cons Hne; try done.
  - left. left. eauto.
  - right. left. eauto.
  - destruct (IH Hu Hv Hne); auto.
Qed.

(** ** Moralization *)

Lemma mapM_result_inr {A B} (f : A → result B) (g : A → B) (l : list A) :
  (∀ x, x ∈ l → f x = inr (g x)) → mapM f l = inr (map g l).
Proof.
  induction l as [|x l IH]; intros Hf; [done|].
  cbn. rewrite (Hf x) by by left. cbn.
  rewrite IH by (intros y Hy; apply Hf; by right). done.
Qed.

Lemma elem_of_parents_of g v p :
  p ∈ parents_of g v ↔ (p, v) ∈ Ananke.di_edges g.
Proof.
  unfold parents_of. rewrite elem_of_successors. unfold edge. split.
  - intros (u & ->%elem_of_singleton & Hin). by apply elem_of_flip_edges.
  - intros Hin. exists v. split; [by apply elem_of_singleton|].
    by apply elem_of_flip_edges.
Qed.

Lemma moral_links_of_ok g :
  admg_wf g →
  ∃ links, moral_links_of g = inr links
    ∧ ∀ u v, ((u, v) ∈ links ∨ (v, u) ∈ links)
             ↔ u ≠ v ∧ ∃ w, (u, w) ∈ Ananke.di_edges g ∧ (v, w) ∈ Ananke.di_edges g.
Proof.
  intros Hwf. unfold moral_links_of.
  rewrite (mapM_result_inr _ (parents_of g)); last first.
  { intros v Hv%elem_of_elements. unfold Ananke.parents.
    apply lookup_all_ok. by apply singleton_subseteq_l. }
  cbn. eexists. split; [done|]. intros u v.
  set (parents := map (parents_of g) (elements (Ananke.vertices g))).
  assert (∀ a b, (a, b) ∈ flat_map (fun nodes => Itertools.combinations2 (elements nodes))
              (List.filter (fun _ => bool_decide (1 < length parents)) parents)
            → a ≠ b ∧ ∃ w, (a, w) ∈ Ananke.di_edges g ∧ (b, w) ∈ Ananke.di_edges g) as Hsound.
  { intros a b Hin. apply list_elem_of_In, in_flat_map in Hin as (ps & Hps & Hin).
    apply filter_In in Hps as [Hps _]. apply list_elem_of_In in Hin.
    apply in_map_iff in Hps as (w & <- & _).
    split; [by eapply combinations2_ne; [apply (NoDup_elements (parents_of g w))|]|].
    apply combinations2_elem_of in Hin as [Ha Hb].
    rewrite !elem_of_elements, !elem_of_parents_of in Ha, Hb. eauto. }
  split.
  - intros [Hin|Hin]; apply Hsound in Hin as (Hne & w & ? & ?); eauto.
  - intros (Hne & w & Hu & Hv).
    destruct (Hwf _ _ Hu) as [Hu' Hw]. destruct (Hwf _ _ Hv) as [Hv' _].
    assert (1 < length parents) as Hlen.
    { unfold parents. rewrite length_map.
      change (1 < size (Ananke.vertices g)).
      assert ({[u; v]} ⊆ Ananke.vertices g) as Hsub by set_solver.
      apply subseteq_size in Hsub. rewrite size_union in Hsub by set_solver.
      rewrite !size_singleton in Hsub. lia. }
    assert (∀ a b, (a, b) ∈ Itertools.combinations2 (elements (parents_of g w)) →
              (a, b) ∈ flat_map (fun nodes => Itertools.combinations2 (elements nodes))
              (List.filter (fun _ => bool_decide (1 < length parents)) parents)) as Hcompl.
    { intros a b Hin. apply list_elem_of_In, in_flat_map.
      exists (parents_of g w). split; [|by apply list_elem_of_In].
      apply filter_In. split; [|by apply bool_decide_eq_true].
      apply in_map, list_elem_of_In, elem_of_elements. done. }
    destruct (combinations2_either (elements (parents_of g w)) u v) as [Hin|Hin];
      rewrite ?elem_of_elements, ?elem_of_parents_of; auto.
Qed.

Lemma add_udedges_ok g links :
  (∀ u v, (u, v) ∈ links → u ∈ Ananke.vertices g ∧ v ∈ Ananke.vertices g) →
  ∃ moral, add_udedges g links = inr moral
    ∧ Ananke.vertices moral = Ananke.vertices g
    ∧ Ananke.di_edges moral = Ananke.di_edges g
    ∧ Ananke.bi_edges moral = Ananke.bi_edges g
    ∧ ∀ e, e ∈ Ananke.ud_edges moral ↔ e ∈ links ∨ e ∈ Ananke.ud_edges g.
Proof.
  revert g. induction links as [|[u v] links IH]; intros g Hin.
  - exists g. repeat split; try done; [by right|].
    intros [?%elem_of_nil|]; done.
  - cbn [add_udedges]. unfold Ananke.add_udedge.
    rewrite lookup_all_ok; last first.
    { destruct (Hin u v) as [? ?]; [by left|]. set_solver. }
    cbn [mbind result_bind].
    edestruct IH as (moral & -> & Hv & Hdi & Hbi & Hud).
    { cbn. intros a b Hab. apply Hin. by right. }
    exists moral. cbn in *. repeat split; try done.
    + intros He. apply Hud in He as [He|He]; [left; by right|].
      apply elem_of_union in He as [->%elem_of_singleton|He]; [left; by left|by right].
    + intros [[->|He]%elem_of_cons|He]; apply Hud; [right|by left|right]; set_solver.
Qed.

(** ** networkx *)

Lemma nodes_add_edges_from g es v :
  v ∈ Nx.nodes (Nx.add_edges_from g es)
  ↔ v ∈ Nx.nodes g ∨ ∃ e, e ∈ es ∧ (v = e.1 ∨ v = e.2).
Proof.
  unfold Nx.add_edges_from. revert g. induction es as [|e es IH]; intros g; cbn.
  - split; [by left|]. intros [?|(e & ?%elem_of_nil & _)]; done.
  - rewrite IH. cbn. rewrite elem_of_union. split.
    + intros [[?|Hv]|(e' & He' & Hv)]; [by left| |].
      * right. exists e. split; [by left|]. set_solver.
      * right. exists e'. split; [by right|done].
    + intros [?|(e' & [->|He']%elem_of_cons & Hv)]; [by left; left| |].
      * left. right. set_solver.
      * right. eauto.
Qed.

Lemma adj_add_edges_from g es u v :
  (u, v) ∈ Nx.adj (Nx.add_edges_from g es)
  ↔ (u, v) ∈ Nx.adj g ∨ (u, v) ∈ es ∨ (v, u) ∈ es.
Proof.
  unfold Nx.add_edges_from. revert g. induction es as [|e es IH]; intros g; cbn.
  - split; [by left|]. intros [?|[?%elem_of_nil|?%elem_of_nil]]; done.
  - rewrite IH. cbn. rewrite !elem_of_cons, elem_of_union. destruct e as [a b]. cbn. split.
    + intros [[?|Hv]|[?|?]]; auto.
      apply elem_of_union in Hv as [Hv|Hv]; apply elem_of_singleton in Hv;
        injection Hv as -> ->; auto.
    + intros [?|[[[= -> ->]|?]|[[= -> ->]|?]]]; auto; left; right; set_solver.
Qed.

Lemma names_in_node_names g u v :
  (u, v) ∈ MixedGraph.names (MixedGraph.directed g) →
  u ∈ node_names g ∧ v ∈ node_names g.
Proof.
  intros Hin%elem_of_names. apply directed_in_nodes in Hin.
  unfold node_names. rewrite !elem_of_node_names. done.
Qed.

Lemma ancestral_incl g named : named ⊆ ancestral g named.
Proof. apply reach_incl. Qed.

Lemma ancestral_within g named :
  named ⊆ node_names g → ancestral g named ⊆ node_names g.
Proof.
  intros Hnamed. apply reach_within; [|done].
  intros u v Hedge. unfold edge in Hedge. rewrite elem_of_flip_edges in Hedge.
  by apply names_in_node_names in Hedge as [? _].
Qed.

Lemma evidence_graph_of_missing g named cn :
  ¬ (named ⊆ node_names g) →
  ∃ v, v ∈ named ∧ (v ∉ node_names g) ∧ evidence_graph_of g named cn = inl (KeyError v).
Proof.
  intros Hnamed. unfold evidence_graph_of. rewrite to_admg_ok. cbn [mbind result_bind].
  unfold Ananke.ancestors.
  match goal with
  | |- context [Ananke.lookup_all ?a ?vs ?k] =>
      destruct (lookup_all_missing a vs k Hnamed) as (v & Hv & Hmiss & ->)
  end.
  by exists v.
Qed.

Lemma evidence_graph_of_ok g named cn :
  named ⊆ node_names g →
  ∃ G, evidence_graph_of g named cn = inr G
    ∧ Nx.nodes G = ancestral g named ∖ cn
    ∧ ∀ u v, (u, v) ∈ Nx.adj G
        ↔ (u ∉ cn) ∧ (v ∉ cn)
          ∧ (linked g (ancestral g named) u v ∨ linked g (ancestral g named) v u).
Proof.
  intros Hnamed. unfold evidence_graph_of. rewrite to_admg_ok. cbn [mbind result_bind].
  unfold Ananke.ancestors. rewrite lookup_all_ok by done.
  cbn [mbind result_bind Ananke.di_edges Ananke.vertices].
  fold (node_names g). fold (ancestral g named).
  set (keep := ancestral g named).
  assert (keep ⊆ node_names g) as Hkeep by by apply ancestral_within.
  unfold Ananke.subgraph. rewrite lookup_all_ok by done.
  cbn [mbind result_bind Ananke.di_edges Ananke.bi_edges].
  set (sub := Ananke.mkADMG keep _ _ ∅).
  assert (admg_wf sub) as Hwf.
  { intros u v Hin. cbn in Hin. apply elem_of_induced in Hin. cbn. tauto. }
  destruct (moral_links_of_ok sub Hwf) as (links & -> & Hlinks).
  cbn [mbind result_bind].
  destruct (add_udedges_ok sub links) as (moral & -> & Hv & Hdi & Hbi & Hud).
  { intros u v Hin.
    destruct (Hlinks u v) as [(_ & w & Hu & Hw) _]; [by left|].
    apply Hwf in Hu as [? _]. apply Hwf in Hw as [? _]. done. }
  cbn [mbind result_bind mret result_ret].
  eexists. split; [done|].
  assert (∀ e, e ∈ (elements (Ananke.di_edges moral) ++ elements (Ananke.ud_edges moral)
                     ++ elements (Ananke.bi_edges moral))
            ↔ (e ∈ Ananke.induced keep (MixedGraph.names (MixedGraph.directed g))
               ∨ e ∈ links
               ∨ e ∈ Ananke.induced keep (MixedGraph.names (MixedGraph.undirected g)))) as Hedges.
  { intros e. rewrite !elem_of_app, !elem_of_elements, Hdi, Hbi, Hud. cbn.
    rewrite elem_of_empty. tauto. }
  assert (∀ u v, (u, v) ∈ links → u ∈ keep ∧ v ∈ keep) as Hlk.
  { intros u v Hin.
    destruct (Hlinks u v) as [(_ & w & Hu & Hw) _]; [by left|].
    apply Hwf in Hu as [? _]. apply Hwf in Hw as [? _]. done. }
  assert (Nx.nodes (disoriented moral) = keep) as Hnodes.
  { apply set_eq. intros v. unfold disoriented. rewrite nodes_add_edges_from. cbn.
    rewrite Hv. cbn. rewrite elem_of_union, elem_of_empty, elem_of_list_to_set, elem_of_elements.
    split; [|tauto]. intros [[Hf|?]|([a b] & He & Hab)]; [destruct Hf|done|].
    apply Hedges in He as [He|[He|He]]; cbn in Hab.
    - apply elem_of_induced in He. destruct Hab as [-> | ->]; tauto.
    - apply Hlk in He. destruct Hab as [-> | ->]; tauto.
    - apply elem_of_induced in He. destruct Hab as [-> | ->]; tauto. }
  split.
  - cbn. rewrite Hnodes. set_solver.
  - intros u v. cbn. rewrite elem_of_filter. cbn. rewrite Hnodes.
    unfold disoriented. rewrite adj_add_edges_from. cbn. rewrite !Hedges.
    rewrite elem_of_empty, !elem_of_induced. unfold linked.
    rewrite !elem_of_difference.
    split.
    + intros ([[Hu Hcu] [Hv' Hcv]] & [Hf|Hcase]); [destruct Hf|]. do 2 (split; [done|]).
      destruct Hcase as [[?|[Hl|?]]|[?|[Hl|?]]]; try tauto.
      * left. repeat split; try done. right; right.
        destruct (Hlinks u v) as [(Hne & w & Huw & Hvw) _]; [by left|].
        cbn in Huw, Hvw. apply elem_of_induced in Huw, Hvw.
        split; [done|]. exists w. tauto.
      * left. repeat split; try done. right; right.
        destruct (Hlinks u v) as [(Hne & w & Huw & Hvw) _]; [by right|].
        cbn in Huw, Hvw. apply elem_of_induced in Huw, Hvw.
        split; [done|]. exists w. tauto.
    + intros (Hcu & Hcv & Hcase).
      assert (u ∈ keep ∧ v ∈ keep) as [Hu Hv'].
      { destruct Hcase as [(? & ? & _)|(? & ? & _)]; done. }
      split; [tauto|]. right.
      assert (∀ a b, a ∈ keep → b ∈ keep → a ≠ b →
                (∃ w, w ∈ keep ∧ (a, w) ∈ MixedGraph.names (MixedGraph.directed g)
                   ∧ (b, w) ∈ MixedGraph.names (MixedGraph.directed g)) →
                (a, b) ∈ links ∨ (b, a) ∈ links) as Hco.
      { intros a b Ha Hb Hne (w & Hw & Haw & Hbw). apply Hlinks. split; [done|].
        exists w. cbn. rewrite !elem_of_induced. tauto. }
      destruct Hcase as [(_ & _ & [?|[?|[Hne Hw]]])|(_ & _ & [?|[?|[Hne Hw]]])]; try tauto.
      * destruct (Hco u v) as [?|?]; auto.
      * destruct (Hco v u) as [?|?]; auto.
Qed.

(** ** The order on names *)

Lemma string_ltb_lt s t : String.ltb s t = true ↔ OrderedTypeEx.String_as_OT.lt s t.
Proof.
  rewrite <- OrderedTypeEx.String_as_OT.cmp_lt.
  unfold String.ltb, OrderedTypeEx.String_as_OT.cmp.
  destruct (String.compare s t); split; congruence.
Qed.

Lemma string_ltb_irrefl s : String.ltb s s = false.
Proof.
  apply not_true_is_false. intros Hlt%string_ltb_lt.
  by apply OrderedTypeEx.String_as_OT.lt_not_eq in Hlt.
Qed.

Lemma string_ltb_trans s t u :
  String.ltb s t = true → String.ltb t u = true → String.ltb s u = true.
Proof.
  rewrite !string_ltb_lt. apply OrderedTypeEx.String_as_OT.lt_trans.
Qed.

Lemma string_ltb_asym s t : String.ltb s t = true → String.ltb t s = false.
Proof.
  intros Hst. apply not_true_is_false. intros Hts.
  pose proof (string_ltb_trans _ _ _ Hst Hts) as Hss.
  by rewrite string_ltb_irrefl in Hss.
Qed.

Lemma string_ltb_total s t :
  String.ltb s t = false → String.ltb t s = false → s = t.
Proof.
  unfold String.ltb. rewrite (String.compare_antisym t s).
  destruct (String.compare s t) eqn:Hcmp; cbn; try discriminate.
  intros _ _. by apply String.compare_eq_iff.
Qed.

Lemma name_inj u v : name u = name v → u = v.
Proof. destruct u, v. cbn. by intros ->. Qed.

(** ** Judgements *)

Lemma sorted_pair u v :
  sorted name [u; v] = if String.ltb (name v) (name u) then [v; u] else [u; v].
Proof. reflexivity. Qed.

Lemma create_sym a b cs sep :
  Judgement.create a b cs sep = Judgement.create b a cs sep.
Proof.
  unfold Judgement.create. rewrite !sorted_pair.
  destruct (String.ltb (name b) (name a)) eqn:Hba.
  - by rewrite (string_ltb_asym _ _ Hba).
  - destruct (String.ltb (name a) (name b)) eqn:Hab; [done|].
    by rewrite (name_inj a b (string_ltb_total _ _ Hab Hba)).
Qed.

Lemma create_separated a b cs sep : separated (Judgement.create a b cs sep) = sep.
Proof.
  unfold Judgement.create. rewrite sorted_pair. by destruct (String.ltb _ _).
Qed.

Lemma create_pair a b cs sep :
  let j := Judgement.create a b cs sep in
  (left j = a ∧ right j = b) ∨ (left j = b ∧ right j = a).
Proof.
  unfold Judgement.create. rewrite sorted_pair. destruct (String.ltb _ _); cbn; auto.
Qed.

(** ** Paths in the evidence graph *)

Lemma has_path_in g s t :
  (∀ u v, (u, v) ∈ Nx.adj g → v ∈ Nx.nodes g) →
  s ∈ Nx.nodes g → t ∈ Nx.nodes g →
  ∃ p, Nx.has_path g s t = inr p ∧ (p = true ↔ rtc (edge (Nx.adj g)) s t).
Proof.
  intros Hadj Hs Ht. unfold Nx.has_path.
  rewrite bool_decide_eq_true_2 by done. eexists. split; [done|].
  rewrite bool_decide_eq_true, elem_of_reach; [|done|by apply singleton_subseteq_l].
  split.
  - by intros (u & ->%elem_of_singleton & Hpath).
  - intros Hpath. exists s. split; [by apply elem_of_singleton|done].
Qed.

Lemma has_path_out g s t :
  s ∉ Nx.nodes g ∨ t ∉ Nx.nodes g → Nx.has_path g s t = inl NodeNotFound.
Proof.
  intros Hout. unfold Nx.has_path. rewrite bool_decide_eq_false_2; [done|]. tauto.
Qed.

Lemma has_path_sym g s t :
  (∀ u v, (u, v) ∈ Nx.adj g → v ∈ Nx.nodes g) →
  (∀ u v, (u, v) ∈ Nx.adj g → (v, u) ∈ Nx.adj g) →
  Nx.has_path g s t = Nx.has_path g t s.
Proof.
  intros Hadj Hsym.
  destruct (decide (s ∈ Nx.nodes g ∧ t ∈ Nx.nodes g)) as [[Hs Ht]|Hout].
  - destruct (has_path_in g s t Hadj Hs Ht) as (p & -> & Hp).
    destruct (has_path_in g t s Hadj Ht Hs) as (q & -> & Hq).
    f_equal. apply eq_true_iff_eq. rewrite Hp, Hq.
    split; by apply rtc_edge_sym.
  - apply not_and_l in Hout. rewrite !has_path_out; [done|tauto|tauto].
Qed.

Lemma elem_of_condition_names (v : variable) (cs : list variable) :
  name v ∈ (list_to_set (name <$> cs) : gset string) ↔ v ∈ cs.
Proof.
  rewrite elem_of_list_to_set, list_elem_of_fmap. split.
  - by intros (c & ->%name_inj & Hc).
  - intros Hv. by exists v.
Qed.

Lemma named_in_graph g a b cs :
  a ∈ MixedGraph.nodes g → b ∈ MixedGraph.nodes g →
  Forall (fun c => c ∈ MixedGraph.nodes g) cs →
  {[name a; name b]} ∪ list_to_set (name <$> cs) ⊆ node_names g.
Proof.
  intros Ha Hb Hcs v. unfold node_names.
  rewrite elem_of_union, elem_of_union, !elem_of_singleton, elem_of_list_to_set,
    list_elem_of_fmap, elem_of_map.
  rewrite Forall_forall in Hcs.
  intros [[->| ->]|(c & -> & Hc)]; eauto.
Qed.

Lemma d_separated_sym g a b cs : d_separated g a b cs = d_separated g b a cs.
Proof.
  unfold d_separated.
  replace ({[name b; name a]} : gset string) with ({[name a; name b]} : gset string)
    by set_solver.
  set (cn := list_to_set (name <$> cs) : gset string).
  set (named := {[name a; name b]} ∪ cn).
  destruct (decide (named ⊆ node_names g)) as [Hnamed|Hnamed].
  - destruct (evidence_graph_of_ok g named cn Hnamed) as (G & -> & Hnodes & Hadj).
    cbn [mbind result_bind].
    rewrite (has_path_sym G (name a) (name b)).
    + destruct (Nx.has_path G (name b) (name a)); [done|].
      cbn. by rewrite create_sym.
    + intros u v [Hu [Hv Hl]]%Hadj. rewrite Hnodes. apply elem_of_difference.
      split; [|done]. destruct Hl as [(_ & ? & _)|(? & _)]; done.
    + intros u v. rewrite !Hadj. tauto.
  - by destruct (evidence_graph_of_missing g named cn Hnamed) as (v & _ & _ & ->).
Qed.

Lemma d_separated_ok g a b cs :
  a ∈ MixedGraph.nodes g → b ∈ MixedGraph.nodes g →
  Forall (fun c => c ∈ MixedGraph.nodes g) cs →
  a ∉ cs → b ∉ cs →
  ∃ sep, d_separated g a b cs = inr (Judgement.create a b cs sep)
       ∧ (sep = true ↔ ¬ connected g a b cs).
Proof.
  intros Ha Hb Hcs Hac Hbc. unfold d_separated, connected.
  set (cn := list_to_set (name <$> cs) : gset string).
  set (named := {[name a; name b]} ∪ cn).
  destruct (evidence_graph_of_ok g named cn) as (G & -> & Hnodes & Hadj).
  { by apply named_in_graph. }
  cbn [mbind result_bind].
  destruct (has_path_in G (name a) (name b)) as (p & -> & Hp).
  - intros u v [Hu [Hv Hl]]%Hadj. rewrite Hnodes. apply elem_of_difference.
    split; [|done]. destruct Hl as [(_ & ? & _)|(? & _)]; done.
  - rewrite Hnodes. apply elem_of_difference. split.
    + apply ancestral_incl. set_solver.
    + unfold cn. by rewrite elem_of_condition_names.
  - rewrite Hnodes. apply elem_of_difference. split.
    + apply ancestral_incl. set_solver.
    + unfold cn. by rewrite elem_of_condition_names.
  - cbn. eexists. split; [done|].
    assert (rtc (edge (Nx.adj G)) (name a) (name b)
            ↔ rtc (open_link g named cn) (name a) (name b)) as <-.
    { split; apply rtc_subrel; intros u v; unfold edge, open_link; by rewrite Hadj. }
    rewrite <- Hp. destruct p; cbn; split; done.
Qed.

Lemma d_separated_conditioned g a b cs :
  a ∈ MixedGraph.nodes g → b ∈ MixedGraph.nodes g →
  Forall (fun c => c ∈ MixedGraph.nodes g) cs →
  a ∈ cs ∨ b ∈ cs →
  ∃ G, evidence_graph_of g ({[name a; name b]} ∪ list_to_set (name <$> cs))
         (list_to_set (name <$> cs)) = inr G
     ∧ Nx.has_path G (name a) (name b) = inl NodeNotFound
     ∧ d_separated g a b cs = inl NodeNotFound.
Proof.
  intros Ha Hb Hcs Hin. unfold d_separated.
  set (cn := list_to_set (name <$> cs) : gset string).
  set (named := {[name a; name b]} ∪ cn).
  destruct (evidence_graph_of_ok g named cn) as (G & -> & Hnodes & Hadj).
  { by apply named_in_graph. }
  cbn [mbind result_bind]. exists G.
  assert (Nx.has_path G (name a) (name b) = inl NodeNotFound) as Hpath.
  { apply has_path_out. rewrite Hnodes, !elem_of_difference.
    unfold cn. rewrite !elem_of_condition_names. tauto. }
  by rewrite Hpath.
Qed.

Lemma d_separated_missing g a b cs :
  ¬ ({[name a; name b]} ∪ list_to_set (name <$> cs) ⊆ node_names g) →
  ∃ v, d_separated g a b cs = inl (KeyError v).
Proof.
  intros Hnamed. unfold d_separated.
  edestruct evidence_graph_of_missing as (v & _ & _ & ->); [exact Hnamed|].
  by exists v.
Qed.

Lemma d_separated_not_type_error g a b cs msg :
  d_separated g a b cs ≠ inl (TypeError msg).
Proof.
  unfold d_separated.
  set (cn := list_to_set (name <$> cs) : gset string).
  set (named := {[name a; name b]} ∪ cn).
  destruct (decide (named ⊆ node_names g)) as [Hnamed|Hnamed].
  - destruct (evidence_graph_of_ok g named cn Hnamed) as (G & -> & _).
    cbn [mbind result_bind]. unfold Nx.has_path. by case_bool_decide.
  - by destruct (evidence_graph_of_missing g named cn Hnamed) as (v & _ & _ & ->).
Qed.

Lemma guards_type_error h graph a b conditions :
  (∃ o, h !! graph = Some o ∧ ∀ g, o ≠ OADMG g) →
  not_all_variables a b conditions ↔
  guards h graph a b conditions = GuardLeft ∨ guards h graph a b conditions = GuardRight
  ∨ guards h graph a b conditions = GuardConditions.
Proof.
  intros (o & Ho & Hna). unfold guards, not_all_variables. rewrite Ho.
  rewrite <- as_variables_None.
  destruct o as [g|g|g]; [|by destruct (Hna g)|];
    destruct a, b; cbn; destruct (as_variables (default [] conditions));
    split; intros H; try tauto; repeat (destruct H as [H|H]; try done); auto.
Qed.

Lemma are_d_separated_conditioned_fails (h : heap) graph a b cs :
  a ∈ cs ∨ b ∈ cs →
  is_ok (are_d_separated graph (VVariable a) (VVariable b)
           (Some (VVariable <$> cs)) h).1 = false.
Proof.
  intros Hin.
  destruct (h !! graph) as [[g|g|g]|] eqn:Ho.
  - destruct (are_d_separated_run h graph g a b cs Ho) as (h' & -> & _). cbn.
    destruct (decide ({[name a; name b]} ∪ list_to_set (name <$> cs) ⊆ node_names g))
      as [Hnamed|Hnamed].
    + assert (a ∈ MixedGraph.nodes g ∧ b ∈ MixedGraph.nodes g
              ∧ Forall (fun c => c ∈ MixedGraph.nodes g) cs) as (Ha & Hb & Hcs).
      { assert (∀ v, name v ∈ node_names g → v ∈ MixedGraph.nodes g) as Hnode.
        { intros [v]. unfold node_names. by rewrite elem_of_node_names. }
        repeat split; [apply Hnode, Hnamed; set_solver..|].
        apply Forall_forall. intros c Hc. apply Hnode, Hnamed.
        apply elem_of_union_r. by apply elem_of_condition_names. }
      by destruct (d_separated_conditioned g a b cs Ha Hb Hcs Hin) as (G & _ & _ & ->).
    + by destruct (d_separated_missing g a b cs Hnamed) as (v & ->).
  - pose proof (are_d_separated_guards h graph (VVariable a) (VVariable b)
                  (Some (VVariable <$> cs))) as Hg.
    unfold guards in Hg. rewrite Ho in Hg. by rewrite Hg.
  - unfold are_d_separated. rewrite bind_run, (isinstance_ADMG_run _ _ _ Ho).
    unfold default, id. rewrite as_variables_fmap, bind_run.
    unfold mixed_to_admg. rewrite bind_run, load_mixed_other; [done|].
    intros g'. by rewrite Ho.
  - pose proof (are_d_separated_guards h graph (VVariable a) (VVariable b)
                  (Some (VVariable <$> cs))) as Hg.
    unfold guards in Hg. rewrite Ho in Hg. by rewrite Hg.
Qed.

(** ** Symmetry of the separation test *)

(** C1.  On a y0 mixed graph the separation test does not depend on the
    order of its two nodes: called with (a, b) and with (b, a) and the same
    conditions it gives the same outcome, and when a and b are nodes of the
    graph, the conditions are nodes too and contain neither, that outcome is
    one judgement, so the two [separated] flags agree and the two judgements
    are equal. *)
Theorem are_d_separated_symmetric (h : heap) graph g a b cs :
  h !! graph = Some (ONxMixedGraph g) →
  (are_d_separated graph (VVariable a) (VVariable b) (Some (VVariable <$> cs)) h).1
  = (are_d_separated graph (VVariable b) (VVariable a) (Some (VVariable <$> cs)) h).1
  ∧ (a ∈ MixedGraph.nodes g → b ∈ MixedGraph.nodes g →
     Forall (fun c => c ∈ MixedGraph.nodes g) cs → a ∉ cs → b ∉ cs →
     ∃ j, (are_d_separated graph (VVariable a) (VVariable b)
             (Some (VVariable <$> cs)) h).1 = inr j
        ∧ (are_d_separated graph (VVariable b) (VVariable a)
             (Some (VVariable <$> cs)) h).1 = inr j).
Proof.
  intros Hg.
  destruct (are_d_separated_run h graph g a b cs Hg) as (h1 & -> & _).
  destruct (are_d_separated_run h graph g b a cs Hg) as (h2 & -> & _).
  cbn [fst]. split; [apply d_separated_sym|].
  intros Ha Hb Hcs Hac Hbc.
  destruct (d_separated_ok g a b cs Ha Hb Hcs Hac Hbc) as (sep & Hsep & _).
  exists (Judgement.create a b cs sep). by rewrite <- (d_separated_sym g a b cs), Hsep.
Qed.

Import Examples.

Lemma are_d_separated_symmetric_witness :
  let ab := are_d_separated 0 (VVariable A) (VVariable B) (Some [VVariable C]) (heap_of chain) in
  let ba := are_d_separated 0 (VVariable B) (VVariable A) (Some [VVariable C]) (heap_of chain) in
  ab.1 = ba.1 ∧ ∃ j, ab.1 = inr j ∧ ba.1 = inr j.
Proof.
  destruct (are_d_separated_symmetric (heap_of chain) 0 chain A B [C]) as [Hsym Hret].
  - reflexivity.
  - split; [exact Hsym|].
    apply Hret; apply (bool_decide_unpack _); vm_compute; exact I.
Defined.

(** ** No mutation of the caller's objects *)

(** C9.  A call of [are_d_separated] that returns a judgement leaves the
    input graph as it was; every object that existed before the call is
    unchanged, the ancestral restriction, the moralization and the
    disorientation having worked on objects allocated by the call. *)
Theorem are_d_separated_no_mutation (h h' : heap) graph a b conditions j :
  are_d_separated graph a b conditions h = (inr j, h') →
  h' !! graph = h !! graph ∧ is_Some (h !! graph) ∧ h ⊆ h'.
Proof.
  intros Hrun.
  pose proof (are_d_separated_frame h graph a b conditions) as Hframe.
  rewrite Hrun in Hframe. cbn in Hframe.
  assert (is_Some (h !! graph)) as [o Ho].
  { pose proof (are_d_separated_guards h graph a b conditions) as Hg.
    unfold guards in Hg. destruct (h !! graph) eqn:Ho; [eauto|]. congruence. }
  split; [|split; [by rewrite Ho|done]].
  rewrite Ho. by apply (lookup_weaken h h').
Qed.

Lemma are_d_separated_no_mutation_witness :
  (are_d_separated 0 (VVariable A) (VVariable B) (Some [VVariable C]) (heap_of collider)).2
    !! 0 = heap_of collider !! 0.
Proof.
  refine (proj1 (are_d_separated_no_mutation (heap_of collider) _ 0
                   (VVariable A) (VVariable B) (Some [VVariable C])
                   (mkJudgement A B false [C]) _)).
  vm_compute. reflexivity.
Defined.

(** ** The type checks *)

(** C8, as stated, fails when the graph is in the ananke form: the left
    argument is a string, yet the error raised is [NoAnankeError], the guard
    on the graph coming first. *)
Lemma type_error_after_ananke_guard :
  not_all_variables (VStr "A") (VVariable B) None
  ∧ (are_d_separated 0 (VStr "A") (VVariable B) None ananke_heap).1 = inl NoAnankeError
  ∧ ¬ ((∃ msg, (are_d_separated 0 (VStr "A") (VVariable B) None ananke_heap).1
                = inl (TypeError msg))
       ↔ not_all_variables (VStr "A") (VVariable B) None).
Proof.
  assert (not_all_variables (VStr "A") (VVariable B) None) as Hnot by by left.
  assert ((are_d_separated 0 (VStr "A") (VVariable B) None ananke_heap).1
          = inl NoAnankeError) as Hrun by reflexivity.
  repeat split; [done..|].
  intros [_ Hiff]. destruct (Hiff Hnot) as [msg Hmsg]. congruence.
Qed.

(** C8, amended.  When the graph is not an ananke ADMG, [are_d_separated]
    raises a type error if and only if [a], [b] or some element of the
    conditions is not a Variable, and it raises it before anything is done
    to a graph: the store is exactly as it was. *)
Theorem are_d_separated_type_error (h : heap) graph o a b conditions :
  h !! graph = Some o → (∀ g, o ≠ OADMG g) →
  ((∃ msg, (are_d_separated graph a b conditions h).1 = inl (TypeError msg))
   ↔ not_all_variables a b conditions)
  ∧ (∀ msg, (are_d_separated graph a b conditions h).1 = inl (TypeError msg) →
       (are_d_separated graph a b conditions h).2 = h).
Proof.
  intros Ho Hna.
  pose proof (are_d_separated_guards h graph a b conditions) as Hg.
  pose proof (guards_type_error h graph a b conditions
                (ex_intro _ o (conj Ho Hna))) as Hty.
  assert (∀ va vb cs msg,
    (are_d_separated graph (VVariable va) (VVariable vb)
       (Some (VVariable <$> cs)) h).1 ≠ inl (TypeError msg)) as Hpassed.
  { intros va vb cs msg. destruct o as [g|g|g]; [|by destruct (Hna g)|].
    - destruct (are_d_separated_run h graph g va vb cs Ho) as (h' & -> & _).
      apply d_separated_not_type_error.
    - unfold are_d_separated. rewrite bind_run, (isinstance_ADMG_run _ _ _ Ho).
      unfold default, id. rewrite as_variables_fmap, bind_run.
      unfold mixed_to_admg. rewrite bind_run, load_mixed_other; [done|].
      intros g'. by rewrite Ho. }
  destruct (guards h graph a b conditions) eqn:Hgu.
  - unfold guards in Hgu. by rewrite Ho in Hgu; destruct o, a, b;
      try destruct (as_variables _).
  - unfold guards in Hgu. rewrite Ho in Hgu. destruct o as [g|g|g];
      [|by destruct (Hna g)|]; by destruct a, b; try destruct (as_variables _).
  - rewrite Hg. cbn. split; [|done]. rewrite Hty. split; [auto|eauto].
  - rewrite Hg. cbn. split; [|done]. rewrite Hty. split; [auto|eauto].
  - rewrite Hg. cbn. split; [|done]. rewrite Hty. split; [auto|eauto].
  - rewrite Hg. split.
    + rewrite Hty. split; [by intros [msg ?%Hpassed]|].
      intros [|[|]]; discriminate.
    + by intros msg ?%Hpassed.
Qed.

Lemma are_d_separated_type_error_witness :
  ((∃ msg, (are_d_separated 0 (VVariable A) (VInt 3) None (heap_of collider)).1
           = inl (TypeError msg))
   ↔ not_all_variables (VVariable A) (VInt 3) None)
  ∧ (∀ msg, (are_d_separated 0 (VVariable A) (VInt 3) None (heap_of collider)).1
            = inl (TypeError msg) →
       (are_d_separated 0 (VVariable A) (VInt 3) None (heap_of collider)).2
       = heap_of collider).
Proof.
  apply (are_d_separated_type_error (heap_of collider) 0 (ONxMixedGraph collider)).
  - reflexivity.
  - intros g. discriminate.
Defined.

(** ** A conditioned endpoint *)

(** C10, as stated, fails in two ways: on a graph in the ananke form the
    call stops at the guard on the graph, and with an endpoint that is not a
    node of the graph it stops in the ancestor query; in neither case is the
    path check reached. *)
Lemma conditioned_endpoint_before_path_check :
  (A ∈ [A] ∧ (are_d_separated 0 (VVariable A) (VVariable B)
                (Some (VVariable <$> [A])) ananke_heap).1 = inl NoAnankeError
   ∧ ¬ fails_at_path_check ananke_heap 0 A B [A])
  ∧ (D ∈ [D] ∧ (are_d_separated 0 (VVariable D) (VVariable B)
                  (Some (VVariable <$> [D])) (heap_of chain)).1 = inl (KeyError "D")
     ∧ ¬ fails_at_path_check (heap_of chain) 0 D B [D]).
Proof.
  split; (split; [by left|]); (split; [by vm_compute|]).
  - intros (g & G & Hg & _). vm_compute in Hg. discriminate.
  - intros (g & G & _ & _ & _ & Hrun). vm_compute in Hrun. discriminate.
Qed.

(** C10, amended.  A call in which [a] or [b] is among the conditions (all
    of them Variables) never returns a judgement; on a y0 mixed graph that
    has [a], [b] and the conditions among its nodes, the exception is the
    [NodeNotFound] of the final path check, every earlier step having
    succeeded and the conditioned endpoint being absent from the evidence
    graph. *)
Theorem conditioned_endpoint_raises (h : heap) graph a b cs :
  a ∈ cs ∨ b ∈ cs →
  is_ok (are_d_separated graph (VVariable a) (VVariable b)
           (Some (VVariable <$> cs)) h).1 = false
  ∧ (∀ g, h !! graph = Some (ONxMixedGraph g) →
       a ∈ MixedGraph.nodes g → b ∈ MixedGraph.nodes g →
       Forall (fun c => c ∈ MixedGraph.nodes g) cs →
       fails_at_path_check h graph a b cs).
Proof.
  intros Hin. split; [by apply are_d_separated_conditioned_fails|].
  intros g Hg Ha Hb Hcs.
  destruct (d_separated_conditioned g a b cs Ha Hb Hcs Hin) as (G & HG & Hpath & Hsep).
  exists g, G. repeat split; try done.
  destruct (are_d_separated_run h graph g a b cs Hg) as (h' & -> & _). done.
Qed.

Lemma conditioned_endpoint_raises_witness :
  is_ok (are_d_separated 0 (VVariable A) (VVariable B)
           (Some (VVariable <$> [A])) (heap_of chain)).1 = false
  ∧ fails_at_path_check (heap_of chain) 0 A B [A].
Proof.
  destruct (conditioned_endpoint_raises (heap_of chain) 0 A B [A]) as [Hfail Hpath].
  - left. apply (bool_decide_unpack _). vm_compute. exact I.
  - split; [exact Hfail|].
    apply (Hpath chain); [reflexivity|apply (bool_decide_unpack _); vm_compute; exact I..].
Defined.

(** ** Colliders *)

Section collider.
Context (g : MixedGraph.NxMixedGraph) (a b c : variable).
Hypothesis Hnodes : MixedGraph.nodes g = {[a; b; c]}.
Hypothesis Hdirected : MixedGraph.directed g = {[(a, c); (b, c)]}.
Hypothesis Hundirected : MixedGraph.undirected g = ∅.
Hypothesis Hab : a ≠ b.
Hypothesis Hac : a ≠ c.
Hypothesis Hbc : b ≠ c.

Lemma collider_edge u v :
  (u, v) ∈ MixedGraph.names (MixedGraph.directed g)
  ↔ (u = name a ∨ u = name b) ∧ v = name c.
Proof.
  rewrite elem_of_names, Hdirected, elem_of_union, !elem_of_singleton.
  split.
  - intros [[= <- <-]|[= <- <-]]; auto.
  - intros [[-> | ->] ->]; destruct a, b, c; auto.
Qed.

Lemma collider_no_bidirected u v :
  (u, v) ∉ MixedGraph.names (MixedGraph.undirected g).
Proof. rewrite elem_of_names, Hundirected. set_solver. Qed.

(** Without conditions the common child is not an ancestor of [a] or [b]. *)
Lemma collider_child_not_ancestral :
  name c ∉ ancestral g ({[name a; name b]} ∪ ∅).
Proof.
  intros (u & Hu & Hpath)%reach_sound.
  assert (u ≠ name c) as Hne.
  { intros ->. apply elem_of_union in Hu as [Hu|Hu]; [|set_solver].
    apply elem_of_union in Hu as [Hu|Hu]; apply elem_of_singleton, name_inj in Hu;
      congruence. }
  apply rtc_inv in Hpath as [?|(w & Hedge & _)]; [done|].
  unfold edge in Hedge. rewrite elem_of_flip_edges, collider_edge in Hedge.
  by destruct Hedge as [_ ->].
Qed.

Lemma collider_marginally_separated : ¬ connected g a b [].
Proof.
  unfold connected. cbn [fmap list_fmap list_to_set foldr].
  intros Hpath.
  pose proof collider_child_not_ancestral as Hc.
  apply rtc_inv in Hpath as [?%name_inj|(w & Hstep & _)]; [done|].
  - destruct Hstep as (_ & _ & [Hl|Hl]).
    + destruct Hl as (_ & Hw & [Hd|[Hu|(_ & x & Hx & Hd & _)]]).
      * apply collider_edge in Hd as [_ ->]. done.
      * by apply collider_no_bidirected in Hu.
      * apply collider_edge in Hd as [_ ->]. done.
    + destruct Hl as (_ & Hw & [Hd|[Hu|(_ & x & Hx & _ & Hd)]]).
      * apply collider_edge in Hd as [_ Heq]. apply name_inj in Heq. done.
      * by apply collider_no_bidirected in Hu.
      * apply collider_edge in Hd as [_ ->]. done.
Qed.

Lemma collider_opened : connected g a b [c].
Proof.
  unfold connected. cbn [fmap list_fmap list_to_set foldr].
  apply rtc_once. unfold open_link.
  assert (∀ v, v ≠ c → name v ∉ ({[name c]} ∪ ∅ : gset string)) as Hout.
  { intros v Hv [Hin|Hin]%elem_of_union; [|set_solver].
    apply elem_of_singleton, name_inj in Hin. done. }
  repeat split; [by apply Hout..|].
  left. repeat split; [apply ancestral_incl; set_solver..|].
  right; right. split; [by intros ?%name_inj|].
  exists (name c). repeat split.
  - apply ancestral_incl. set_solver.
  - apply collider_edge. auto.
  - apply collider_edge. auto.
Qed.

End collider.

(** C2.  In a graph with the three nodes A, B, C whose only edges are
    A -> C and B -> C, the test of A and B with no conditions returns a
    judgement with [separated = True], and the test with the condition C
    returns a judgement with [separated = False]. *)
Theorem collider_blocking (h : heap) graph g (a b c : variable) :
  h !! graph = Some (ONxMixedGraph g) →
  MixedGraph.nodes g = {[a; b; c]} →
  MixedGraph.directed g = {[(a, c); (b, c)]} →
  MixedGraph.undirected g = ∅ →
  a ≠ b → a ≠ c → b ≠ c →
  (∃ j, (are_d_separated graph (VVariable a) (VVariable b) (Some []) h).1 = inr j
        ∧ separated j = true)
  ∧ (∃ j, (are_d_separated graph (VVariable a) (VVariable b)
             (Some [VVariable c]) h).1 = inr j
        ∧ separated j = false).
Proof.
  intros Hg Hnodes Hdirected Hundirected Hab Hac Hbc.
  assert (a ∈ MixedGraph.nodes g ∧ b ∈ MixedGraph.nodes g ∧ c ∈ MixedGraph.nodes g)
    as (Ha & Hb & Hc) by (rewrite Hnodes; set_solver).
  split.
  - destruct (are_d_separated_run h graph g a b [] Hg) as (h' & Hrun & _).
    cbn [fmap list_fmap] in Hrun. rewrite Hrun. cbn [fst].
    destruct (d_separated_ok g a b []) as (sep & -> & Hsep);
      [done|done|done|by intros ?%elem_of_nil..|].
    eexists. split; [done|]. rewrite create_separated. apply Hsep.
    by apply (collider_marginally_separated g a b c).
  - destruct (are_d_separated_run h graph g a b [c] Hg) as (h' & Hrun & _).
    cbn [fmap list_fmap] in Hrun. rewrite Hrun. cbn [fst].
    destruct (d_separated_ok g a b [c]) as (sep & -> & Hsep);
      [done|done|by repeat constructor|by intros ?%list_elem_of_singleton..|].
    eexists. split; [done|]. rewrite create_separated.
    apply not_true_is_false. rewrite Hsep. intros Hnot. apply Hnot.
    by apply (collider_opened g a b c).
Qed.

Lemma collider_blocking_witness :
  (∃ j, (are_d_separated 0 (VVariable A) (VVariable B) (Some []) (heap_of collider)).1
        = inr j ∧ separated j = true)
  ∧ (∃ j, (are_d_separated 0 (VVariable A) (VVariable B) (Some [VVariable C])
             (heap_of collider)).1 = inr j ∧ separated j = false).
Proof.
  apply (collider_blocking (heap_of collider) 0 collider A B C);
    first [ reflexivity | discriminate | by vm_compute ].
Defined.

(** ** Orders on keys *)

Lemma strict_order_asym {K} (lt : K → K → bool) x y :
  strict_order lt → lt x y = true → lt y x = false.
Proof.
  intros [Hirr Htrans] Hxy. apply not_true_is_false. intros Hyx.
  pose proof (Htrans _ _ _ Hxy Hyx) as Hxx. by rewrite Hirr in Hxx.
Qed.

Lemma nat_total_order : total_order (@py_lt nat _).
Proof.
  unfold py_lt, nat_ord. repeat split.
  - intros x. apply Nat.ltb_irrefl.
  - intros x y z. rewrite !Nat.ltb_lt. lia.
  - intros x y. rewrite !Nat.ltb_ge. lia.
Qed.

Lemma string_total_order : total_order (@py_lt string _).
Proof.
  unfold py_lt, string_ord. repeat split.
  - apply string_ltb_irrefl.
  - apply string_ltb_trans.
  - apply string_ltb_total.
Qed.

Lemma variable_total_order : total_order (@py_lt variable _).
Proof.
  unfold py_lt, variable_ord. repeat split.
  - intros x. apply string_ltb_irrefl.
  - intros x y z. apply string_ltb_trans.
  - intros x y Hxy Hyx. by apply name_inj, string_ltb_total.
Qed.

Lemma pair_total_order {A B} `{EqDecision A} `{PyOrd A, PyOrd B} :
  total_order (@py_lt A _) → total_order (@py_lt B _) →
  total_order (@py_lt (A * B) _).
Proof.
  unfold total_order, strict_order. cbv [py_lt pair_ord].
  intros [[HirrA HtrA] HtotA] [[HirrB HtrB] HtotB]. repeat split.
  - intros [a b]. cbn. by case_decide.
  - intros [a1 b1] [a2 b2] [a3 b3]. cbn.
    repeat case_decide; subst; try done; eauto.
    intros Hlt12 Hlt23. pose proof (HtrA _ _ _ Hlt12 Hlt23) as Hxx.
    by rewrite HirrA in Hxx.
  - intros [a1 b1] [a2 b2]. cbn.
    repeat case_decide; subst; try done; intros.
    + f_equal. by apply HtotB.
    + match goal with Hne : _ ≠ _ |- _ => destruct Hne end. by apply HtotA.
Qed.

(** ** Sorting *)

Section sorting_facts.
Context {A K : Type} `{PyOrd K} (key : A → K).
Hypothesis Hord : strict_order (@py_lt K _).

Lemma elem_of_insort x y l : y ∈ insort key x l ↔ y = x ∨ y ∈ l.
Proof.
  induction l as [|z l IH]; cbn.
  - rewrite list_elem_of_singleton, elem_of_nil. tauto.
  - destruct (py_lt (key x) (key z)).
    + by rewrite !elem_of_cons.
    + rewrite !elem_of_cons, IH. tauto.
Qed.

Lemma elem_of_sorted x l : x ∈ sorted key l ↔ x ∈ l.
Proof.
  unfold sorted.
  assert (∀ acc, x ∈ foldl (fun acc x => insort key x acc) acc l ↔ x ∈ acc ∨ x ∈ l) as Hgen.
  { induction l as [|y l IH]; intros acc; cbn.
    - rewrite elem_of_nil. tauto.
    - rewrite IH, elem_of_insort, elem_of_cons. tauto. }
  rewrite Hgen, elem_of_nil. tauto.
Qed.

Lemma insort_sorted x l :
  StronglySorted (key_le key) l → StronglySorted (key_le key) (insort key x l).
Proof.
  destruct Hord as [Hirr Htrans].
  induction 1 as [|y l Hsorted IH Hall]; cbn.
  - repeat constructor.
  - destruct (py_lt (key x) (key y)) eqn:Hxy.
    + constructor; [by constructor|].
      constructor; [by apply (strict_order_asym _ _ _ Hord)|].
      eapply Forall_impl; [done|]. intros z Hyz. unfold key_le in *.
      apply not_true_is_false. intros Hzx.
      by rewrite (Htrans _ _ _ Hzx Hxy) in Hyz.
    + constructor; [done|].
      apply Forall_forall. intros z [->|Hz]%elem_of_insort; [done|].
      rewrite Forall_forall in Hall. auto.
Qed.

Lemma sorted_sorted l : StronglySorted (key_le key) (sorted key l).
Proof.
  unfold sorted.
  assert (∀ acc, StronglySorted (key_le key) acc →
            StronglySorted (key_le key) (foldl (fun acc x => insort key x acc) acc l)) as Hgen.
  { induction l as [|y l IH]; intros acc Hacc; [done|].
    cbn. by apply IH, insort_sorted. }
  apply Hgen. constructor.
Qed.

Lemma min_from_in best l : min_from key best l ∈ best :: l.
Proof.
  revert best. induction l as [|y l IH]; intros best; cbn; [by left|].
  destruct (py_lt (key y) (key best)).
  - right. apply IH.
  - pose proof (IH best) as [Heq|Hin]%elem_of_cons; [rewrite Heq; by left|by do 2 right].
Qed.

Lemma min_from_least best l (seen : A → Prop) :
  (∀ x, seen x → py_lt (key x) (key best) = false) →
  ∀ x, seen x ∨ x ∈ best :: l → py_lt (key x) (key (min_from key best l)) = false.
Proof.
  destruct Hord as [Hirr Htrans].
  revert best seen. induction l as [|y l IH]; intros best seen Hseen x Hx; cbn.
  - destruct Hx as [Hx| ->%list_elem_of_singleton]; auto.
  - destruct (py_lt (key y) (key best)) eqn:Hy.
    + apply (IH y (fun x => seen x ∨ x = best)).
      * intros z [Hz| ->].
        -- apply not_true_is_false. intros Hzy.
           pose proof (Hseen z Hz) as Hzb.
           by rewrite (Htrans _ _ _ Hzy Hy) in Hzb.
        -- by apply (strict_order_asym _ _ _ Hord).
      * destruct Hx as [Hx|[->|Hx]%elem_of_cons]; auto.
    + apply (IH best (fun x => seen x ∨ x = y)).
      * intros z [Hz| ->]; auto.
      * destruct Hx as [Hx|[->|[->|Hx]%elem_of_cons]%elem_of_cons]; auto.
        -- right. by left.
        -- right. by right.
Qed.

(** [min] returns an element of the list that no other element beats. *)
Lemma py_min_spec l :
  l ≠ [] →
  ∃ m, py_min key l = inr m ∧ m ∈ l
     ∧ ∀ x, x ∈ l → py_lt (key x) (key m) = false.
Proof.
  destruct l as [|best l]; [done|]. intros _. eexists. split; [done|].
  split; [apply min_from_in|].
  intros x Hx. apply (min_from_least best l (fun _ => False)); [done|by right].
Qed.

End sorting_facts.

(** ** groupby on a sorted list *)

Lemma filter_none {A} (f : A → bool) (l : list A) :
  (∀ y, y ∈ l → f y = false) → List.filter f l = [].
Proof.
  induction l as [|x l IH]; intros Hf; [done|].
  cbn. rewrite (Hf x) by by left. apply IH. intros y Hy. apply Hf. by right.
Qed.

Section groupby_facts.
Context {A K : Type} `{PyOrd K} `{EqDecision K} (key : A → K).
Hypothesis Htotal : total_order (@py_lt K _).

Lemma groupby_head x l :
  ∃ vs rest, groupby key (x :: l) = (key x, x :: vs) :: rest.
Proof.
  cbn. destruct (groupby key l) as [|[k vs] rest]; [by eexists _, _|].
  case_decide; subst; by eexists _, _.
Qed.

Lemma groupby_nil l : groupby key l = [] → l = [].
Proof.
  destruct l as [|x l]; [done|].
  destruct (groupby_head x l) as (? & ? & ->). done.
Qed.

(** In a sorted list, when a later element has the key of the head, so
    has the element next to the head. *)
Lemma sorted_same_key x z l y :
  StronglySorted (key_le key) (x :: z :: l) → y ∈ z :: l → key y = key x →
  key z = key x.
Proof.
  destruct Htotal as [_ Htot].
  intros Hsorted Hy Hkey.
  apply StronglySorted_inv in Hsorted as [Hl Hx].
  apply Forall_cons in Hx as [Hxz _].
  apply elem_of_cons in Hy as [->|Hy]; [done|].
  apply StronglySorted_inv in Hl as [_ Hz]. rewrite Forall_forall in Hz.
  apply Htot; [exact Hxz|]. rewrite <- Hkey. by apply Hz.
Qed.

Lemma groupby_spec l :
  StronglySorted (key_le key) l →
  NoDup (groupby key l).*1
  ∧ ∀ k vs, (k, vs) ∈ groupby key l →
      vs ≠ [] ∧ vs = List.filter (has_key key k) l.
Proof.
  induction l as [|x l IH]; intros Hsorted.
  - cbn. split; [constructor|]. by intros ?? ?%elem_of_nil.
  - destruct (IH (proj1 (StronglySorted_inv Hsorted))) as (Hnodup & Hgroups).
    assert (∀ k vs, (k, vs) ∈ groupby key l → ∃ y, y ∈ l ∧ key y = k) as Hkeys.
    { intros k vs Hin. destruct (Hgroups k vs Hin) as [Hne ->].
      destruct (List.filter _ l) as [|y ys] eqn:Hf; [done|].
      assert (In y (List.filter (has_key key k) l)) as Hy by (rewrite Hf; by left).
      apply filter_In in Hy as [Hy Hk]. apply bool_decide_eq_true in Hk.
      exists y. split; [by apply list_elem_of_In|done]. }
    assert (∀ k' vs' rest, groupby key l = (k', vs') :: rest → key x ≠ k' →
              ∀ y, y ∈ l → key y ≠ key x) as Hfresh.
    { intros k' vs' rest Hg Hne y Hy Hkey. apply Hne.
      destruct l as [|z l']; [by apply elem_of_nil in Hy|].
      destruct (groupby_head z l') as (vs & rest' & Hhead).
      rewrite Hhead in Hg. injection Hg as <- _ _.
      symmetry. by apply (sorted_same_key x z l' y). }
    assert (∀ k, key x ≠ k →
              List.filter (has_key key k) (x :: l) = List.filter (has_key key k) l)
      as Hskip.
    { intros k Hk. cbn. unfold has_key at 1. by rewrite bool_decide_eq_false_2. }
    assert (List.filter (has_key key (key x)) (x :: l)
            = x :: List.filter (has_key key (key x)) l) as Htake.
    { cbn. unfold has_key at 1. by rewrite bool_decide_eq_true_2. }
    cbn [groupby]. destruct (groupby key l) as [|[k' vs'] rest] eqn:Hg.
    + apply groupby_nil in Hg as ->.
      split; [repeat constructor; by intros ?%elem_of_nil|].
      intros k vs [= -> ->]%list_elem_of_singleton. split; [done|].
      by rewrite Htake.
    + case_decide as Hk.
      * split; [done|]. intros k vs [[= -> ->]|Hin]%elem_of_cons.
        -- split; [done|]. rewrite <- Hk, Htake. f_equal.
           rewrite Hk. apply Hgroups. by left.
        -- assert (k' ≠ k) as Hkk.
           { intros <-. apply NoDup_cons in Hnodup as [Hnotin _]. apply Hnotin.
             apply list_elem_of_fmap. by exists (k', vs). }
           destruct (Hgroups k vs) as [Hne ->]; [by right|]. split; [done|].
           symmetry. apply Hskip. by rewrite Hk.
      * assert (∀ y, y ∈ l → key y ≠ key x) as Hnone by by eapply Hfresh.
        split.
        -- cbn. constructor; [|done]. intros Hin.
           change (k' :: rest.*1) with (((k', vs') :: rest).*1) in Hin.
           apply list_elem_of_fmap in Hin as ([k vs] & Hkx & Hin). cbn in Hkx.
           destruct (Hkeys k vs Hin) as (y & Hy & Hyk).
           apply (Hnone y Hy). congruence.
        -- intros k vs [[= -> ->]|Hin]%elem_of_cons.
           ++ split; [done|]. rewrite Htake. f_equal. symmetry.
              apply filter_none. intros y Hy. unfold has_key.
              apply bool_decide_eq_false_2. by apply Hnone.
           ++ assert (key x ≠ k) as Hkk.
              { intros <-. destruct (Hkeys _ _ Hin) as (y & Hy & Hyk).
                by apply (Hnone y). }
              destruct (Hgroups k vs Hin) as [Hne ->]. split; [done|].
              symmetry. by apply Hskip.
Qed.

Lemma groupby_cover l x : x ∈ l → ∃ vs, (key x, vs) ∈ groupby key l.
Proof.
  induction l as [|y l IH]; [by intros ?%elem_of_nil|].
  intros [->|Hx]%elem_of_cons.
  - destruct (groupby_head y l) as (vs & rest & ->). eexists. by left.
  - destruct (IH Hx) as (vs & Hin). cbn.
    destruct (groupby key l) as [|[k' vs'] rest]; [by apply elem_of_nil in Hin|].
    case_decide as Hk.
    + apply elem_of_cons in Hin as [[= -> ->]|Hin].
      * eexists. by left.
      * eexists. by right.
    + eexists. by right.
Qed.

End groupby_facts.

(** ** The minimal cover *)

Lemma mapM_result_Forall2 {A B} (f : A → result B) (l : list A) :
  (∀ x, x ∈ l → ∃ y, f x = inr y) →
  ∃ ys, mapM f l = inr ys ∧ Forall2 (fun x y => f x = inr y) l ys.
Proof.
  induction l as [|x l IH]; intros Hf.
  - exists []. by split.
  - destruct (Hf x) as (y & Hy); [by left|].
    destruct IH as (ys & Hys & Hall); [intros z Hz; apply Hf; by right|].
    exists (y :: ys). split; [|by constructor].
    cbn. rewrite Hy. cbn. by rewrite Hys.
Qed.

Lemma Forall2_elem_of_r {A B} (R : A → B → Prop) l ys y :
  Forall2 R l ys → y ∈ ys → ∃ x, x ∈ l ∧ R x y.
Proof.
  induction 1 as [|x y' l ys HR _ IH]; [by intros ?%elem_of_nil|].
  intros [->|Hy]%elem_of_cons.
  - exists x. split; [by left|done].
  - destruct (IH Hy) as (x' & Hx' & HR'). exists x'. split; [by right|done].
Qed.

Lemma Forall2_elem_of_l {A B} (R : A → B → Prop) l ys x :
  Forall2 R l ys → x ∈ l → ∃ y, y ∈ ys ∧ R x y.
Proof.
  induction 1 as [|x' y l ys HR _ IH]; [by intros ?%elem_of_nil|].
  intros [->|Hx]%elem_of_cons.
  - exists y. split; [by left|done].
  - destruct (IH Hx) as (y' & Hy' & HR'). exists y'. split; [by right|done].
Qed.

Lemma grouper_total_order : total_order (@py_lt (variable * variable) _).
Proof. apply pair_total_order; apply variable_total_order. Qed.

Lemma elem_of_filter_has_key {A K} `{EqDecision K} (key : A → K) k x l :
  x ∈ List.filter (has_key key k) l ↔ x ∈ l ∧ key x = k.
Proof.
  rewrite !list_elem_of_In, filter_In. unfold has_key.
  by rewrite bool_decide_eq_true.
Qed.

Section minimal_facts.
Context {K : Type} `{PyOrd K} (policy : DSeparationJudgement → K).
Hypothesis Hord : strict_order (@py_lt K _).

Lemma minimal_by_spec judgements :
  ∃ out, minimal_by policy judgements = inr out
    ∧ (∀ j, j ∈ out →
         j ∈ judgements
         ∧ ∀ j', j' ∈ judgements → _judgement_grouper j' = _judgement_grouper j →
             py_lt (policy j') (policy j) = false)
    ∧ (∀ j, j ∈ judgements →
         ∃ j', j' ∈ out ∧ _judgement_grouper j' = _judgement_grouper j)
    ∧ (∀ j1 j2, j1 ∈ out → j2 ∈ out →
         _judgement_grouper j1 = _judgement_grouper j2 → j1 = j2).
Proof.
  unfold minimal_by.
  set (ordered := sorted _judgement_grouper judgements).
  pose proof grouper_total_order as Htot.
  destruct (groupby_spec _judgement_grouper Htot ordered) as (Hnodup & Hgroups).
  { apply sorted_sorted, Htot. }
  set (groups := groupby _judgement_grouper ordered) in *.
  destruct (mapM_result_Forall2 (fun '(k, vs) => py_min policy vs) groups)
    as (chosen & -> & Hchosen).
  { intros [k vs] Hin. destruct (Hgroups k vs Hin) as [Hne _].
    destruct (py_min_spec policy Hord vs Hne) as (m & Hm & _). eauto. }
  cbn. eexists. split; [done|].
  assert (∀ j, j ∈ chosen ↔
            ∃ k vs, (k, vs) ∈ groups ∧ py_min policy vs = inr j) as Hout.
  { intros j. split.
    - intros Hj. destruct (Forall2_elem_of_r _ _ _ _ Hchosen Hj) as ([k vs] & ? & ?).
      eauto.
    - intros (k & vs & Hin & Hmin).
      destruct (Forall2_elem_of_l _ _ _ _ Hchosen Hin) as (j' & Hj' & Hmin').
      cbn in Hmin'. congruence. }
  assert (∀ k vs j, (k, vs) ∈ groups → py_min policy vs = inr j →
            j ∈ judgements ∧ _judgement_grouper j = k
            ∧ ∀ j', j' ∈ judgements → _judgement_grouper j' = k →
                py_lt (policy j') (policy j) = false) as Hgroup.
  { intros k vs j Hin Hmin. destruct (Hgroups k vs Hin) as [Hne Hvs].
    destruct (py_min_spec policy Hord vs Hne) as (m & Hm & Hmin_in & Hleast).
    assert (m = j) as -> by congruence.
    rewrite Hvs in Hmin_in. apply elem_of_filter_has_key in Hmin_in as [Hj Hk].
    apply elem_of_sorted in Hj. repeat split; [done..|].
    intros j' Hj' Hk'. apply Hleast. rewrite Hvs.
    apply elem_of_filter_has_key. split; [by apply elem_of_sorted|done]. }
  split; [|split].
  - intros j Hj. apply elem_of_list_to_set, Hout in Hj as (k & vs & Hin & Hmin).
    destruct (Hgroup k vs j Hin Hmin) as (Hjin & Hk & Hleast). split; [done|].
    intros j' Hj' Hk'. apply Hleast; [done|congruence].
  - intros j Hj.
    destruct (groupby_cover _judgement_grouper ordered j) as (vs & Hin).
    { by apply elem_of_sorted. }
    destruct (Hgroups _ vs Hin) as [Hne _].
    destruct (py_min_spec policy Hord vs Hne) as (m & Hm & _).
    exists m. split.
    + apply elem_of_list_to_set, Hout. eauto.
    + by destruct (Hgroup _ vs m Hin Hm) as (_ & ? & _).
  - intros j1 j2 Hj1 Hj2 Hsame.
    apply elem_of_list_to_set, Hout in Hj1 as (k1 & vs1 & Hin1 & Hmin1).
    apply elem_of_list_to_set, Hout in Hj2 as (k2 & vs2 & Hin2 & Hmin2).
    destruct (Hgroup k1 vs1 j1 Hin1 Hmin1) as (_ & Hk1 & _).
    destruct (Hgroup k2 vs2 j2 Hin2 Hmin2) as (_ & Hk2 & _).
    assert (k1 = k2) as -> by congruence.
    assert (vs1 = vs2) as ->.
    { destruct (Hgroups k2 vs1 Hin1) as [_ ->].
      by destruct (Hgroups k2 vs2 Hin2) as [_ ->]. }
    congruence.
Qed.

End minimal_facts.

Lemma len_lex_strict_order : strict_order (@py_lt (nat * string) _).
Proof. apply pair_total_order; [apply nat_total_order|apply string_total_order]. Qed.

Lemma len_lex_lt j1 j2 :
  py_lt (_len_lex j1) (_len_lex j2) = true
  ↔ length (conditions j1) < length (conditions j2)
    ∨ (length (conditions j1) = length (conditions j2)
       ∧ String.ltb (String.concat "," (map name (conditions j1)))
                    (String.concat "," (map name (conditions j2))) = true).
Proof.
  unfold _len_lex. cbv [py_lt pair_ord]. cbn [fst snd].
  case_decide as Hlen.
  - rewrite Hlen. unfold string_ord. split; [auto|]. intros [?|[_ ?]]; [lia|done].
  - unfold nat_ord. rewrite Nat.ltb_lt. split; [auto|]. intros [?|[? _]]; done.
Qed.

Lemma judgement_grouper_eq j1 j2 :
  _judgement_grouper j1 = _judgement_grouper j2
  ↔ left j1 = left j2 ∧ right j1 = right j2.
Proof.
  unfold _judgement_grouper. split; [by intros [= -> ->]|by intros [-> ->]].
Qed.

(** C3.  For every finite collection of judgements and every policy whose
    keys are strictly ordered by [<], [minimal] returns a set in which
    every judgement comes from the input and has, among the input
    judgements with the same left and the same right, a key that none of
    them undercuts; every (left, right) pair of the input has a judgement
    in the set, and only one; pairs absent from the input have none.
    Without a policy the key is the number of conditions and then the
    condition names joined by commas. *)
Theorem minimal_cover (judgements : list DSeparationJudgement)
    (policy : option retention_policy) :
  sound_policy policy →
  ∃ out, minimal judgements policy = inr out
    ∧ (∀ j, j ∈ out →
         j ∈ judgements
         ∧ ∀ j', j' ∈ judgements → left j' = left j → right j' = right j →
             policy_lt policy j' j = false)
    ∧ (∀ j, j ∈ judgements →
         ∃ j', j' ∈ out ∧ left j' = left j ∧ right j' = right j)
    ∧ (∀ j1 j2, j1 ∈ out → j2 ∈ out →
         left j1 = left j2 → right j1 = right j2 → j1 = j2)
    ∧ (∀ a b, (∀ j, j ∈ judgements → ¬ (left j = a ∧ right j = b)) →
         ∀ j, j ∈ out → ¬ (left j = a ∧ right j = b))
    ∧ (∀ j1 j2, policy_lt None j1 j2 = true
         ↔ length (conditions j1) < length (conditions j2)
           ∨ (length (conditions j1) = length (conditions j2)
              ∧ String.ltb (String.concat "," (map name (conditions j1)))
                           (String.concat "," (map name (conditions j2))) = true)).
Proof.
  intros Hsound.
  assert (∃ out, minimal judgements policy = inr out
    ∧ (∀ j, j ∈ out →
         j ∈ judgements
         ∧ ∀ j', j' ∈ judgements → _judgement_grouper j' = _judgement_grouper j →
             policy_lt policy j' j = false)
    ∧ (∀ j, j ∈ judgements →
         ∃ j', j' ∈ out ∧ _judgement_grouper j' = _judgement_grouper j)
    ∧ (∀ j1 j2, j1 ∈ out → j2 ∈ out →
         _judgement_grouper j1 = _judgement_grouper j2 → j1 = j2))
    as (out & Hout & Hin & Hcover & Hone).
  { destruct policy as [[K ord key]|]; cbn in *.
    - by apply minimal_by_spec.
    - apply minimal_by_spec, len_lex_strict_order. }
  exists out. split; [done|]. split; [|split; [|split; [|split]]].
  - intros j Hj. destruct (Hin j Hj) as [Hfrom Hleast]. split; [done|].
    intros j' Hj' Hl Hr. apply Hleast; [done|]. by apply judgement_grouper_eq.
  - intros j Hj. destruct (Hcover j Hj) as (j' & Hj' & Hsame).
    exists j'. split; [done|]. by apply judgement_grouper_eq.
  - intros j1 j2 Hj1 Hj2 Hl Hr. apply Hone; [done..|].
    by apply judgement_grouper_eq.
  - intros a b Habsent j Hj. apply Habsent. by apply Hin.
  - apply len_lex_lt.
Qed.

Lemma minimal_cover_witness :
  let by_size := Some (Policy (fun j => length (conditions j))) in
  let judgements :=
    [ mkJudgement Examples.A Examples.B true [Examples.C];
      mkJudgement Examples.A Examples.B true [];
      mkJudgement Examples.A Examples.C true [Examples.B] ] in
  ∃ out, minimal judgements by_size = inr out
    ∧ (∀ j, j ∈ judgements →
         ∃ j', j' ∈ out ∧ left j' = left j ∧ right j' = right j)
    ∧ ∀ j1 j2, j1 ∈ out → j2 ∈ out →
        left j1 = left j2 → right j1 = right j2 → j1 = j2.
Proof.
  intros by_size judgements.
  destruct (minimal_cover judgements by_size) as (out & Hout & _ & Hcover & Hone & _).
  - split.
    + intros x. apply Nat.ltb_irrefl.
    + intros x y z. unfold py_lt, nat_ord. rewrite !Nat.ltb_lt. lia.
  - exists out. split; [exact Hout|]. split; [exact Hcover|exact Hone].
Defined.

(** ** Topological sorting *)


Section kahn_facts.
Context (es : gset (variable * variable)).

Lemma elem_of_generation remaining v :
  v ∈ MixedGraph.generation es remaining
  ↔ v ∈ remaining ∧ ∀ u, u ∈ remaining → (u, v) ∉ es.
Proof.
  unfold MixedGraph.generation. rewrite list_elem_of_filter, Forall_forall. tauto.
Qed.

Lemma kahn_unfold n remaining :
  MixedGraph.kahn es (S n) remaining =
    if decide (remaining = []) then inr []
    else if decide (MixedGraph.generation es remaining = []) then inl NetworkXUnfeasible
    else match MixedGraph.kahn es n
                 (filter (fun v => v ∉ MixedGraph.generation es remaining) remaining) with
         | inl e => inl e
         | inr rest => inr (MixedGraph.generation es remaining ++ rest)
         end.
Proof.
  destruct remaining as [|x l]; [done|].
  rewrite decide_False by done.
  cbn [MixedGraph.kahn].
  destruct (MixedGraph.generation es (x :: l)) as [|y gen] eqn:Hgen; [done|].
  by rewrite decide_False.
Qed.




(** *** Acyclic graphs have sources *)

Hypothesis Hacyclic : ∀ v, ¬ tc (edge es) v v.

Lemma source_above l w :
  w ∈ l → ∃ s, source_in es l s ∧ rtc (edge es) s w.
Proof.
  revert w. induction l as [|x l IH]; intros w Hw; [by apply elem_of_nil in Hw|].
  assert (∀ u, u ∈ l → (u, x) ∈ es → ∃ s, source_in es (x :: l) s ∧ rtc (edge es) s x)
    as Hpred.
  { intros u Hu Hux. destruct (IH u Hu) as (s & [Hs Hsrc] & Hsu).
    exists s. split; [|by eapply rtc_r].
    split; [by right|]. intros u' [->|Hu']%elem_of_cons; [|by apply Hsrc].
    intros Hxs. apply (Hacyclic x).
    eapply tc_rtc_r; [by apply tc_once|]. by eapply rtc_r. }
  assert (∃ s, source_in es (x :: l) s ∧ rtc (edge es) s x) as (sx & Hsx & Hsxx).
  { destruct (decide (Exists (fun u => (u, x) ∈ es) l)) as [Hex|Hnone].
    - apply Exists_exists in Hex as (u & Hu & Hux). by eapply Hpred.
    - exists x. split; [|done]. split; [by left|].
      intros u [->|Hu]%elem_of_cons.
      + intros Hxx. apply (Hacyclic x). by apply tc_once.
      + intros Hux. apply Hnone, Exists_exists. eauto. }
  apply elem_of_cons in Hw as [->|Hw]; [eauto|].
  destruct (IH w Hw) as (s & [Hs Hsrc] & Hsw).
  destruct (decide ((x, s) ∈ es)) as [Hxs|Hxs].
  - exists sx. split; [done|].
    etrans; [done|]. by eapply rtc_l.
  - exists s. split; [|done]. split; [by right|].
    intros u [->|Hu]%elem_of_cons; [done|by apply Hsrc].
Qed.

Lemma generation_nonempty remaining :
  remaining ≠ [] → MixedGraph.generation es remaining ≠ [].
Proof.
  intros Hne Hgen. destruct remaining as [|x l]; [done|].
  destruct (source_above (x :: l) x) as (s & Hs & _); [by left|].
  apply elem_of_generation in Hs. rewrite Hgen in Hs. by apply elem_of_nil in Hs.
Qed.

Lemma kahn_acyclic fuel remaining :
  length remaining ≤ fuel → NoDup remaining →
  ∃ order, MixedGraph.kahn es fuel remaining = inr order
    ∧ NoDup order
    ∧ (∀ v, v ∈ order ↔ v ∈ remaining)
    ∧ ∀ u w i j, (u, w) ∈ es → u ∈ remaining →
        order !! i = Some u → order !! j = Some w → i < j.
Proof.
  revert remaining. induction fuel as [|n IH]; intros remaining Hlen Hnodup.
  - destruct remaining; [|cbn in Hlen; lia].
    exists []. repeat split; first [done | by intros ????? ?%elem_of_nil].
  - rewrite kahn_unfold. case_decide as Hnil.
    { subst. exists []. repeat split; first [done | by intros ????? ?%elem_of_nil]. }
    rewrite decide_False by by apply generation_nonempty.
    set (gen := MixedGraph.generation es remaining).
    set (rest := filter (fun v => v ∉ gen) remaining).
    assert (∃ s, s ∈ gen) as (s & Hs).
    { destruct gen as [|s gen'] eqn:Hgen; [by destruct (generation_nonempty remaining)|].
      exists s. by left. }
    destruct (IH rest) as (order & -> & Hnd & Hmem & Hfwd).
    { assert (length rest < length remaining); [|lia].
      apply (length_filter_lt _ _ s); [|by intros []].
      by apply elem_of_generation in Hs as [? _]. }
    { by apply NoDup_filter. }
    exists (gen ++ order). split; [done|].
    assert (∀ v, v ∈ order ↔ v ∈ remaining ∧ v ∉ gen) as Hmem'.
    { intros v. rewrite Hmem. unfold rest. rewrite list_elem_of_filter. tauto. }
    split; [|split].
    + apply NoDup_app. split; [by apply NoDup_filter|]. split; [|done].
      intros v Hv Hv'. by apply Hmem' in Hv' as [_ ?].
    + intros v. rewrite elem_of_app, Hmem'. split.
      * intros [[? _]%elem_of_generation|[? _]]; done.
      * intros Hv. destruct (decide (v ∈ gen)); auto.
    + intros u w i j Huw Hu Hi Hj.
      assert (w ∉ gen) as Hw.
      { intros [_ Hsrc]%elem_of_generation. by apply (Hsrc u). }
      apply lookup_app_Some in Hj as [Hj|[Hjlen Hj]].
      { destruct Hw. by eapply list_elem_of_lookup_2. }
      apply lookup_app_Some in Hi as [Hi|[Hilen Hi]].
      { apply lookup_lt_Some in Hi. lia. }
      assert (i - length gen < j - length gen); [|lia].
      eapply Hfwd; [done| |done..].
      apply Hmem. by eapply list_elem_of_lookup_2.
Qed.

End kahn_facts.

(** ** The topological policy *)

Lemma get_topological_policy_run (h : heap) graph g :
  h !! graph = Some (ONxMixedGraph g) →
  get_topological_policy graph h =
    (match MixedGraph.topological_sort g with
     | inl e => inl e
     | inr order => inr (fun judgement => _topological_policy judgement order)
     end, h).
Proof.
  intros Hg. unfold get_topological_policy.
  rewrite bind_run, (isinstance_ADMG_run _ _ _ Hg).
  rewrite bind_run, (load_mixed_run _ _ _ Hg), lift_bind_run.
  by destruct (MixedGraph.topological_sort g).
Qed.



Lemma topological_sort_acyclic g :
  ¬ directed_cycle g →
  ∃ order, MixedGraph.topological_sort g = inr order ∧ topological_order g order.
Proof.
  intros Hacyclic. unfold MixedGraph.topological_sort.
  destruct (kahn_acyclic (MixedGraph.directed g)
              (fun v Hv => Hacyclic (ex_intro _ v Hv))
              (length (elements (MixedGraph.nodes g)))
              (elements (MixedGraph.nodes g)))
    as (order & -> & Hnodup & Hmem & Hfwd); [done|apply NoDup_elements|].
  exists order. split; [done|]. split; [done|]. split.
  - intros v. by rewrite Hmem, elem_of_elements.
  - intros u w i j Huw. apply Hfwd; [done|].
    apply elem_of_elements. by apply directed_in_nodes in Huw as [? _].
Qed.

Lemma index_lookup order v i : index order v = inr i → order !! i = Some v.
Proof.
  revert i. induction order as [|x order IH]; intros i; cbn; [done|].
  case_decide as Hx; [by intros [= <-]; subst|].
  destruct (index order v) as [e|i']; cbn; [done|].
  intros [= <-]. by apply IH.
Qed.

Lemma index_elem_of order v : v ∈ order → ∃ i, index order v = inr i.
Proof.
  induction order as [|x order IH]; [by intros ?%elem_of_nil|].
  intros Hv. cbn. case_decide as Hx; [eauto|].
  apply elem_of_cons in Hv as [->|Hv]; [done|].
  destruct (IH Hv) as (i & ->). cbn. eauto.
Qed.

Lemma topological_policy_indices order cs :
  Forall (fun c => c ∈ order) cs →
  ∃ ixs, mapM (index order) cs = inr ixs
       ∧ Forall2 (fun c i => order !! i = Some c) cs ixs.
Proof.
  induction 1 as [|c cs Hc _ (ixs & Hixs & Hall)].
  - exists []. by split.
  - destruct (index_elem_of order c Hc) as (i & Hi).
    exists (i :: ixs). cbn. rewrite Hi. cbn. rewrite Hixs. split; [done|].
    constructor; [by apply index_lookup|done].
Qed.




(** C7.  For every acyclic wrapper graph, [get_topological_policy] returns
    a policy built on a topological order of the graph, and for every
    judgement whose conditions are nodes of the graph the key of the policy
    is the pair of the number of conditions and the sum of the positions of
    the conditions in that order; keys compare as pairs, so that fewer
    conditions and then a smaller sum are preferred. *)
Theorem topological_policy_key (h : heap) graph g :
  h !! graph = Some (ONxMixedGraph g) → ¬ directed_cycle g →
  ∃ order policy,
    get_topological_policy graph h = (inr policy, h)
    ∧ topological_order g order
    ∧ (∀ judgement,
         Forall (fun c => c ∈ MixedGraph.nodes g) (conditions judgement) →
         ∃ ixs, Forall2 (fun c i => order !! i = Some c) (conditions judgement) ixs
              ∧ policy judgement = inr (length (conditions judgement), sum_list ixs))
    ∧ ∀ k1 k2 : nat * nat,
        py_lt k1 k2 = true ↔ k1.1 < k2.1 ∨ (k1.1 = k2.1 ∧ k1.2 < k2.2).
Proof.
  intros Hg Hacyclic.
  destruct (topological_sort_acyclic g Hacyclic) as (order & Hsort & Horder).
  exists order, (fun judgement => _topological_policy judgement order).
  split; [by rewrite (get_topological_policy_run _ _ _ Hg), Hsort|].
  split; [done|]. split.
  - intros judgement Hcs. unfold _topological_policy.
    destruct (topological_policy_indices order (conditions judgement)) as (ixs & -> & Hixs).
    { eapply Forall_impl; [done|]. intros c Hc. by apply Horder. }
    by exists ixs.
  - intros [n1 s1] [n2 s2]. cbv [py_lt pair_ord nat_ord]. cbn [fst snd].
    case_decide; rewrite Nat.ltb_lt; lia.
Qed.

Lemma topological_policy_key_witness :
  ∃ order policy,
    get_topological_policy 0 (heap_of chain) = (inr policy, heap_of chain)
    ∧ topological_order chain order.
Proof.
  destruct (topological_policy_key (heap_of chain) 0 chain)
    as (order & policy & Hrun & Horder & _).
  - reflexivity.
  - intros (v & Hcycle).
    assert (∀ u w, tc (edge (MixedGraph.directed chain)) u w →
              (u = A ∧ (w = C ∨ w = B)) ∨ (u = C ∧ w = B)) as Hreach.
    { intros u w. induction 1 as [u w Huw|u m w Hum _ IH].
      - unfold edge, chain in Huw. cbn in Huw. set_solver.
      - unfold edge, chain in Hum. cbn in Hum. set_solver. }
    destruct (Hreach v v Hcycle) as [[-> [?|?]]|[-> ?]]; discriminate.
  - exists order, policy. split; [exact Hrun|exact Horder].
Defined.

(** ** Enumeration *)

Lemma scan_conditions_run (h : heap) graph g a b return_all candidates :
  h !! graph = Some (ONxMixedGraph g) →
  ∃ h', scan_conditions graph a b return_all candidates h
        = (scan_conditions_of g a b return_all candidates, h')
      ∧ h ⊆ h'.
Proof.
  revert h. induction candidates as [|cs rest IH]; intros h Hg.
  - by exists h.
  - cbn [scan_conditions scan_conditions_of]. rewrite bind_run.
    destruct (are_d_separated_run h graph g a b cs Hg) as (h1 & -> & Hsub1).
    assert (h1 !! graph = Some (ONxMixedGraph g)) as Hg1 by by eapply lookup_weaken.
    destruct (d_separated g a b cs) as [e|j]; cbn [mbind result_bind]; [by exists h1|].
    destruct (separated j); [destruct return_all|].
    + rewrite bind_run. destruct (IH h1 Hg1) as (h2 & -> & Hsub2).
      exists h2. split; [|by etrans].
      by destruct (scan_conditions_of g a b true rest).
    + by exists h1.
    + destruct (IH h1 Hg1) as (h2 & -> & Hsub2). exists h2. split; [done|by etrans].
Qed.

Lemma scan_pairs_run (h : heap) graph g vertices max_conditions return_all pairs :
  h !! graph = Some (ONxMixedGraph g) →
  ∃ h', scan_pairs graph vertices max_conditions return_all pairs h
        = (scan_pairs_of g vertices max_conditions return_all pairs, h')
      ∧ h ⊆ h'.
Proof.
  revert h. induction pairs as [|[a b] rest IH]; intros h Hg.
  - by exists h.
  - cbn [scan_pairs scan_pairs_of]. rewrite bind_run.
    destruct (scan_conditions_run h graph g a b return_all
                (powerset (elements (vertices ∖ {[a; b]})) max_conditions) Hg)
      as (h1 & -> & Hsub1).
    assert (h1 !! graph = Some (ONxMixedGraph g)) as Hg1 by by eapply lookup_weaken.
    destruct (scan_conditions_of g a b return_all _) as [e|here];
      cbn [mbind result_bind]; [by exists h1|].
    rewrite bind_run. destruct (IH h1 Hg1) as (h2 & -> & Hsub2).
    exists h2. split; [|by etrans].
    by destruct (scan_pairs_of g vertices max_conditions return_all rest).
Qed.

Lemma d_separations_run (h : heap) graph g max_conditions return_all :
  h !! graph = Some (ONxMixedGraph g) →
  ∃ h', d_separations graph max_conditions return_all h
        = (scan_pairs_of g (MixedGraph.nodes g) max_conditions return_all
             (Itertools.combinations2 (elements (MixedGraph.nodes g))), h')
      ∧ h ⊆ h'.
Proof.
  intros Hg. unfold d_separations.
  rewrite bind_run, (isinstance_ADMG_run _ _ _ Hg).
  rewrite bind_run, (load_mixed_run _ _ _ Hg).
  by apply scan_pairs_run.
Qed.

(** Without errors the inner loop yields the hits, all of them or the first. *)
Lemma scan_conditions_of_hits g a b return_all candidates :
  (∀ cs, cs ∈ candidates → ∃ j, d_separated g a b cs = inr j) →
  scan_conditions_of g a b return_all candidates
  = inr (if return_all then hits g a b candidates
         else take 1 (hits g a b candidates)).
Proof.
  induction candidates as [|cs rest IH]; intros Hok.
  - by destruct return_all.
  - cbn [scan_conditions_of]. unfold hits. cbn [omap list_omap]. fold (hits g a b rest).
    destruct (Hok cs) as (j & ->); [by left|]. cbn [mbind result_bind].
    rewrite IH by (intros cs' Hcs'; apply Hok; by right).
    destruct (separated j), return_all; done.
Qed.

(** ** Subsets in order of size *)

Lemma elem_of_combinations {A} (l : list A) r cs :
  cs ∈ Itertools.combinations l r ↔ cs `sublist_of` l ∧ length cs = r.
Proof.
  revert r cs. induction l as [|x l IH]; intros r cs.
  - destruct r as [|r]; cbn.
    + rewrite list_elem_of_singleton. split.
      * intros ->. split; [constructor|done].
      * intros [_ Hlen]. by apply nil_length_inv.
    + split; [by intros ?%elem_of_nil|].
      intros [Hsub Hlen]. apply sublist_nil_r in Hsub as ->. done.
  - destruct r as [|r].
    + rewrite combinations_0, list_elem_of_singleton. split.
      * intros ->. split; [apply sublist_nil_l|done].
      * intros [_ Hlen]. by apply nil_length_inv.
    + change (Itertools.combinations (x :: l) (S r))
        with (map (cons x) (Itertools.combinations l r)
              ++ Itertools.combinations l (S r)).
      rewrite elem_of_app, list_elem_of_fmap, sublist_cons_r. split.
      * intros [(cs' & -> & [Hsub Hlen]%IH)|[Hsub Hlen]%IH].
        -- split; [right; eauto|cbn; lia].
        -- split; [by left|done].
      * intros [[Hsub|(cs' & -> & Hsub)] Hlen].
        -- right. by apply IH.
        -- left. exists cs'. split; [done|]. apply IH. split; [done|].
           cbn in Hlen. lia.
Qed.

Lemma elem_of_powerset {A} (l : list A) stop cs :
  cs ∈ powerset l stop
  ↔ cs `sublist_of` l ∧ match stop with None => True | Some m => length cs ≤ m end.
Proof.
  unfold powerset.
  rewrite list_elem_of_In, in_flat_map. setoid_rewrite <- list_elem_of_In.
  setoid_rewrite elem_of_seq. setoid_rewrite elem_of_combinations. split.
  - intros (r & Hr & Hsub & Hlen). split; [done|]. destruct stop; [lia|done].
  - intros [Hsub Hlen]. exists (length cs). split; [|done].
    pose proof (sublist_length _ _ Hsub). destruct stop; lia.
Qed.

Lemma powerset_sorted {A} (l : list A) stop :
  StronglySorted (fun cs cs' => length cs ≤ length cs') (powerset l stop).
Proof.
  unfold powerset. generalize (S match stop with None => length l | Some m => m end).
  generalize 0. intros k n. revert k. induction n as [|n IH]; intros k; [constructor|].
  cbn [seq flat_map]. apply StronglySorted_app. split; [|split].
  - intros cs cs' [_ Hcs]%elem_of_combinations Hin.
    apply list_elem_of_In, in_flat_map in Hin as (r & Hr & Hin).
    apply list_elem_of_In, elem_of_seq in Hr.
    apply list_elem_of_In, elem_of_combinations in Hin as [_ ?]. lia.
  - assert (Forall (fun cs => length cs = k) (Itertools.combinations l k)) as Hall.
    { apply Forall_forall. by intros cs [_ ?]%elem_of_combinations. }
    induction Hall as [|cs css Hcs Hall IHall]; constructor; [done|].
    eapply Forall_impl; [done|]. cbn. lia.
  - apply IH.
Qed.

Lemma powerset_zero {A} (l : list A) : powerset l (Some 0) = [[]].
Proof. unfold powerset. cbn. by rewrite combinations_0. Qed.

(** ** Pairs of nodes *)

Lemma combinations2_NoDup {A} (l : list A) :
  NoDup l → NoDup (Itertools.combinations2 l).
Proof.
  induction 1 as [|x l Hx Hl IH]; [constructor|].
  rewrite combinations2_cons. apply NoDup_app. split; [|split; [|done]].
  - apply NoDup_fmap_2; [|done]. by intros ?? [=].
  - intros [u v] (y & [= -> ->] & Hy)%list_elem_of_fmap Hin.
    by apply combinations2_elem_of in Hin as [? _].
Qed.

Lemma combinations2_not_both {A} (l : list A) u v :
  NoDup l → (u, v) ∈ Itertools.combinations2 l → (v, u) ∉ Itertools.combinations2 l.
Proof.
  induction 1 as [|x l Hx Hl IH]; [by intros ?%elem_of_nil|].
  rewrite !combinations2_cons, !elem_of_app, !list_elem_of_fmap.
  intros [(y & [= -> ->] & Hy)|Hin] [(z & [= -> ->] & Hz)|Hin']; try done.
  - by apply combinations2_elem_of in Hin' as [_ ?].
  - by apply combinations2_elem_of in Hin as [_ ?].
  - by apply IH in Hin.
Qed.

Lemma d_separated_inr g a b cs j :
  d_separated g a b cs = inr j → ∃ sep, j = Judgement.create a b cs sep.
Proof.
  unfold d_separated.
  destruct (evidence_graph_of g _ _) as [e|G]; cbn [mbind result_bind]; [done|].
  destruct (Nx.has_path G _ _) as [e|p]; cbn; [done|].
  intros [= <-]. eauto.
Qed.

Lemma list_to_set_names (cs : list variable) :
  (list_to_set (name <$> cs) : gset string)
  = set_map name (list_to_set cs : gset variable).
Proof.
  apply set_eq. intros v.
  rewrite elem_of_list_to_set, elem_of_map, list_elem_of_fmap.
  by setoid_rewrite elem_of_list_to_set.
Qed.

(** The test depends on the conditions as a set. *)
Lemma d_separated_set g a b cs1 cs2 :
  (list_to_set cs1 : gset variable) = list_to_set cs2 →
  d_separated g a b cs1 = d_separated g a b cs2.
Proof.
  intros Hset. unfold d_separated, Judgement.create.
  by rewrite !list_to_set_names, Hset.
Qed.

Lemma length_insort {A K} `{PyOrd K} (key : A → K) x l :
  length (insort key x l) = S (length l).
Proof.
  induction l as [|y l IH]; [done|]. cbn.
  destruct (py_lt (key x) (key y)); cbn; [done|by rewrite IH].
Qed.

Lemma length_sorted {A K} `{PyOrd K} (key : A → K) l :
  length (sorted key l) = length l.
Proof.
  unfold sorted.
  assert (∀ acc, length (foldl (fun acc x => insort key x acc) acc l)
                 = length acc + length l) as Hgen.
  { induction l as [|x l IH]; intros acc; cbn; [lia|].
    rewrite IH, length_insort. lia. }
  by rewrite Hgen.
Qed.

Lemma create_conditions_length a b cs sep :
  NoDup cs → length (conditions (Judgement.create a b cs sep)) = length cs.
Proof.
  intros Hcs. unfold Judgement.create. rewrite sorted_pair.
  assert (length (sorted name (elements (list_to_set cs : gset variable)))
          = length cs) as Hlen.
  { rewrite length_sorted. by rewrite (elements_list_to_set cs Hcs). }
  by destruct (String.ltb _ _).
Qed.

Lemma create_conditions a b cs sep :
  conditions (Judgement.create a b cs sep)
  = sorted name (elements (list_to_set cs : gset variable)).
Proof. unfold Judgement.create. rewrite sorted_pair. by destruct (String.ltb _ _). Qed.

Lemma elem_of_hits g a b cands j :
  j ∈ hits g a b cands
  ↔ ∃ cs, cs ∈ cands ∧ d_separated g a b cs = inr j ∧ separated j = true.
Proof.
  unfold hits. rewrite list_elem_of_omap. split.
  - intros (cs & Hcs & Hj). exists cs. split; [done|].
    destruct (d_separated g a b cs) as [e|j']; [done|].
    destruct (separated j') eqn:Hsep; [|done]. by injection Hj as <-.
  - intros (cs & Hcs & Hj & Hsep). exists cs. split; [done|]. by rewrite Hj, Hsep.
Qed.

(** In a traversal by non-decreasing size the first hit is a smallest one. *)
Lemma first_hit_least g a b cands j :
  StronglySorted (fun cs cs' : list variable => length cs ≤ length cs') cands →
  j ∈ take 1 (hits g a b cands) →
  ∃ cs, cs ∈ cands ∧ d_separated g a b cs = inr j ∧ separated j = true
      ∧ ∀ cs' j', cs' ∈ cands → d_separated g a b cs' = inr j' →
          separated j' = true → length cs ≤ length cs'.
Proof.
  induction 1 as [|cs cands Hsorted IH Hall].
  - by intros ?%elem_of_nil.
  - unfold hits. cbn [omap list_omap]. fold (hits g a b cands).
    destruct (d_separated g a b cs) as [e|j0] eqn:Hcs.
    + intros Hj. destruct (IH Hj) as (cs0 & Hin & Hd & Hsep & Hleast).
      exists cs0. split; [by right|]. split; [done|]. split; [done|].
      intros cs' j' [->|Hcs']%elem_of_cons Hd' Hsep'; [congruence|eauto].
    + destruct (separated j0) eqn:Hsep0.
      * cbn. intros ->%list_elem_of_singleton.
        exists cs. split; [by left|]. split; [done|]. split; [done|].
        rewrite Forall_forall in Hall.
        intros cs' j' [->|Hcs']%elem_of_cons _ _; [done|by apply Hall].
      * intros Hj. destruct (IH Hj) as (cs0 & Hin & Hd & Hsep & Hleast).
        exists cs0. split; [by right|]. split; [done|]. split; [done|].
        intros cs' j' [->|Hcs']%elem_of_cons Hd' Hsep'; [congruence|eauto].
Qed.

Section enumeration.
Context (g : MixedGraph.NxMixedGraph).

Lemma elem_of_node_pairs a b :
  (a, b) ∈ node_pairs g → a ∈ MixedGraph.nodes g ∧ b ∈ MixedGraph.nodes g ∧ a ≠ b.
Proof.
  intros Hin. unfold node_pairs in Hin.
  pose proof (combinations2_ne _ _ _ (NoDup_elements (MixedGraph.nodes g)) Hin).
  apply combinations2_elem_of in Hin as [Ha Hb].
  by rewrite !elem_of_elements in Ha, Hb.
Qed.

Lemma node_pairs_cover a b :
  a ∈ MixedGraph.nodes g → b ∈ MixedGraph.nodes g → a ≠ b →
  (a, b) ∈ node_pairs g ∨ (b, a) ∈ node_pairs g.
Proof.
  intros Ha Hb Hne. apply combinations2_either; [by apply elem_of_elements..|done].
Qed.

Lemma elem_of_candidates max_conditions a b cs :
  cs ∈ candidates g max_conditions a b →
  NoDup cs ∧ Forall (fun c => c ∈ MixedGraph.nodes g) cs ∧ (a ∉ cs) ∧ (b ∉ cs)
  ∧ match max_conditions with None => True | Some m => length cs ≤ m end.
Proof.
  intros [Hsub Hlen]%elem_of_powerset.
  assert (∀ c, c ∈ cs → c ∈ MixedGraph.nodes g ∖ {[a; b]}) as Hcs.
  { intros c Hc. apply elem_of_elements. by apply (sublist_subseteq _ _ Hsub). }
  split; [exact (sublist_NoDup _ _ (NoDup_elements _) Hsub)|].
  split; [apply Forall_forall; intros c Hc%Hcs; set_solver|].
  split; [intros Ha%Hcs; set_solver|]. split; [intros Hb%Hcs; set_solver|done].
Qed.

(** Every test of the enumeration returns a judgement. *)
Lemma candidates_tested max_conditions a b cs :
  (a, b) ∈ node_pairs g → cs ∈ candidates g max_conditions a b →
  ∃ sep, d_separated g a b cs = inr (Judgement.create a b cs sep).
Proof.
  intros (Ha & Hb & _)%elem_of_node_pairs (_ & Hcs & Hac & Hbc & _)%elem_of_candidates.
  destruct (d_separated_ok g a b cs Ha Hb Hcs Hac Hbc) as (sep & Hsep & _). eauto.
Qed.

Lemma scan_pairs_of_yields max_conditions return_all pairs :
  (∀ p, p ∈ pairs → p ∈ node_pairs g) →
  scan_pairs_of g (MixedGraph.nodes g) max_conditions return_all pairs
  = inr (flat_map (fun p => yields g max_conditions return_all p.1 p.2) pairs).
Proof.
  induction pairs as [|[a b] pairs IH]; intros Hpairs; [done|].
  cbn [scan_pairs_of flat_map fst snd].
  fold (candidates g max_conditions a b).
  rewrite scan_conditions_of_hits; last first.
  { intros cs Hcs. destruct (candidates_tested max_conditions a b cs) as (sep & ->);
      [apply Hpairs; by left|done|eauto]. }
  cbn [mbind result_bind]. rewrite IH by (intros p Hp; apply Hpairs; by right).
  done.
Qed.

Lemma elem_of_yields max_conditions return_all a b j :
  j ∈ yields g max_conditions return_all a b →
  ∃ cs, cs ∈ candidates g max_conditions a b
      ∧ d_separated g a b cs = inr j ∧ separated j = true.
Proof.
  unfold yields. intros Hj. apply elem_of_hits.
  destruct return_all; [done|]. by apply (subseteq_take 1).
Qed.

(** A separating set within the bound is among the candidates, up to
    the order of its elements. *)
Lemma separating_candidate max_conditions a b (S : gset variable) :
  S ⊆ MixedGraph.nodes g ∖ {[a; b]} →
  match max_conditions with None => True | Some m => size S ≤ m end →
  ∃ cs, cs ∈ candidates g max_conditions a b ∧ length cs = size S
      ∧ d_separated g a b cs = d_separated g a b (elements S).
Proof.
  intros HS Hmax.
  set (cs := filter (fun c => c ∈ S) (elements (MixedGraph.nodes g ∖ {[a; b]}))).
  assert (cs ≡ₚ elements S) as Hperm.
  { apply NoDup_Permutation; [apply NoDup_filter, NoDup_elements|apply NoDup_elements|].
    intros c. unfold cs. rewrite list_elem_of_filter, !elem_of_elements. set_solver. }
  assert (length cs = size S) as Hlen by by rewrite Hperm.
  exists cs. split; [|split; [done|]].
  - apply elem_of_powerset. split; [apply sublist_filter|].
    destruct max_conditions; [lia|done].
  - apply d_separated_set. apply set_eq. intros c.
    by rewrite !elem_of_list_to_set, Hperm.
Qed.

Lemma first_yield_minimal max_conditions a b j (S : gset variable) :
  (a, b) ∈ node_pairs g →
  j ∈ yields g max_conditions false a b →
  S ⊆ MixedGraph.nodes g ∖ {[a; b]} → separating g a b S →
  length (conditions j) ≤ size S.
Proof.
  intros Hpair Hj HS (jS & HjS & HsepS). unfold yields in Hj.
  destruct (first_hit_least g a b _ j (powerset_sorted _ _) Hj)
    as (cs & Hcs & Hd & Hsep & Hleast).
  destruct (elem_of_candidates _ _ _ _ Hcs) as (Hnodup & _ & _ & _ & Hbound).
  destruct (d_separated_inr _ _ _ _ _ Hd) as (sep & ->).
  rewrite create_conditions_length by done.
  assert (match max_conditions with None => True | Some m => size S ≤ m end
          ∨ length cs ≤ size S) as [Hmax|Hle]; [|..|done].
  { destruct max_conditions as [m|]; [|by left].
    destruct (decide (size S ≤ m)); [by left|right; lia]. }
  destruct (separating_candidate max_conditions a b S HS Hmax)
    as (cs' & Hcs' & <- & Heq).
  eapply Hleast; [done|by rewrite Heq|done].
Qed.

End enumeration.

Lemma NoDup_flat_map_keys {A B K} (key : B → K) (F : A → list B) (l : list A) :
  NoDup l →
  (∀ p, p ∈ l → length (F p) ≤ 1) →
  (∀ p q x y, p ∈ l → q ∈ l → x ∈ F p → y ∈ F q → key x = key y → p = q) →
  NoDup (key <$> flat_map F l).
Proof.
  induction 1 as [|p l Hp Hl IH]; intros Hlen Hinj; [constructor|].
  cbn [flat_map]. rewrite fmap_app. apply NoDup_app. split; [|split].
  - specialize (Hlen p ltac:(by left)).
    destruct (F p) as [|x [|y xs]]; cbn in *; [constructor| |lia].
    apply NoDup_singleton.
  - intros k (x & -> & Hx)%list_elem_of_fmap (y & Hk & Hy)%list_elem_of_fmap.
    apply list_elem_of_In, in_flat_map in Hy as (q & Hq & Hy).
    apply list_elem_of_In in Hq, Hy.
    assert (p = q) as <-; [|done].
    eapply Hinj; [by left|by right|done..].
  - apply IH.
    + intros q Hq. apply Hlen. by right.
    + intros q q' x y Hq Hq'. apply Hinj; by right.
Qed.

Lemma hits_nil_conditions g a b j :
  j ∈ hits g a b [[]] → conditions j = [].
Proof.
  intros (cs & ->%list_elem_of_singleton & Hd & _)%elem_of_hits.
  apply d_separated_inr in Hd as (sep & ->).
  rewrite create_conditions. cbn [list_to_set foldr]. by rewrite elements_empty.
Qed.

Lemma yields_zero g return_all a b :
  yields g (Some 0) return_all a b = hits g a b [[]].
Proof.
  unfold yields, candidates. rewrite powerset_zero.
  destruct return_all; [done|]. unfold hits. cbn.
  destruct (d_separated g a b []) as [e|j]; [done|]. by destruct (separated j).
Qed.

Lemma yields_pair g max_conditions return_all a b j :
  j ∈ yields g max_conditions return_all a b →
  _judgement_grouper j = (a, b) ∨ _judgement_grouper j = (b, a).
Proof.
  intros (cs & _ & Hd & _)%elem_of_yields.
  apply d_separated_inr in Hd as (sep & ->).
  unfold _judgement_grouper.
  destruct (create_pair a b cs sep) as [[-> ->]|[-> ->]]; auto.
Qed.

Lemma first_yields_one_per_pair g max_conditions :
  NoDup (_judgement_grouper
           <$> flat_map (fun p => yields g max_conditions false p.1 p.2) (node_pairs g)).
Proof.
  apply NoDup_flat_map_keys.
  - apply combinations2_NoDup, NoDup_elements.
  - intros [a b] _. unfold yields. rewrite length_take. lia.
  - intros [a b] [a' b'] x y Hp Hq Hx Hy Hkey. cbn [fst snd] in *.
    apply yields_pair in Hx, Hy. rewrite Hkey in Hx.
    destruct Hx as [Hx|Hx], Hy as [Hy|Hy]; rewrite Hx in Hy;
      injection Hy as -> ->; try done.
    + by apply combinations2_not_both in Hp; [|apply NoDup_elements].
    + by apply combinations2_not_both in Hp; [|apply NoDup_elements].
Qed.

(** C5.  With [max_conditions = 0] the condition sets tried for a pair of
    nodes are the empty one and no other; the judgements yielded are, pair
    by pair, the judgement of the test without conditions when it is true,
    so every one of them has no conditions; and every two distinct nodes
    make one of the pairs of the loop. *)
Theorem zero_conditions_enumeration (h : heap) graph g return_all :
  h !! graph = Some (ONxMixedGraph g) →
  (∀ a b, candidates g (Some 0) a b = [[]])
  ∧ (∀ a b, a ∈ MixedGraph.nodes g → b ∈ MixedGraph.nodes g → a ≠ b →
       (a, b) ∈ node_pairs g ∨ (b, a) ∈ node_pairs g)
  ∧ ∃ out h',
      d_separations graph (Some 0) return_all h = (inr out, h')
      ∧ out = flat_map (fun p => hits g p.1 p.2 [[]]) (node_pairs g)
      ∧ ∀ j, j ∈ out → conditions j = [].
Proof.
  intros Hg. split; [intros a b; apply powerset_zero|].
  split; [apply node_pairs_cover|].
  destruct (d_separations_run h graph g (Some 0) return_all Hg) as (h' & Hrun & _).
  rewrite scan_pairs_of_yields in Hrun by done. fold (node_pairs g) in Hrun.
  eexists _, h'. split; [exact Hrun|].
  rewrite (flat_map_ext _ (fun p => hits g p.1 p.2 [[]]))
    by (intros p; apply yields_zero).
  split; [done|].
  intros j Hj. apply list_elem_of_In, in_flat_map in Hj as (p & _ & Hj).
  apply list_elem_of_In in Hj. by eapply hits_nil_conditions.
Qed.

Lemma zero_conditions_enumeration_witness :
  candidates chain (Some 0) A B = [[]]
  ∧ ∃ out h', d_separations 0 (Some 0) false (heap_of chain) = (inr out, h')
            ∧ ∀ j, j ∈ out → conditions j = [].
Proof.
  destruct (zero_conditions_enumeration (heap_of chain) 0 chain false)
    as (Hcands & _ & out & h' & Hrun & _ & Hnone).
  - reflexivity.
  - split; [apply Hcands|]. exists out, h'. split; [exact Hrun|exact Hnone].
Defined.

(** C6.  Without [return_all] the enumeration yields, pair by pair, the
    first true judgement met while the condition sets are tried in
    non-decreasing size: at most one judgement per unordered pair of nodes,
    and its conditions are no more than those of any set that separates the
    pair.  With [return_all] it yields every true judgement: for every pair
    of the loop and every set of the other nodes within [max_conditions]
    whose test is true, the judgement of that test. *)
Theorem first_hit_enumeration (h : heap) graph g max_conditions :
  h !! graph = Some (ONxMixedGraph g) →
  ∃ first every h1 h2,
    d_separations graph max_conditions false h = (inr first, h1)
    ∧ d_separations graph max_conditions true h = (inr every, h2)
    ∧ first = flat_map (fun p => take 1 (hits g p.1 p.2
                                   (candidates g max_conditions p.1 p.2)))
                (node_pairs g)
    ∧ (∀ a b, StronglySorted (fun cs cs' : list variable => length cs ≤ length cs')
                (candidates g max_conditions a b))
    ∧ NoDup (_judgement_grouper <$> first)
    ∧ (∀ j, j ∈ first →
         separated j = true
         ∧ ∃ a b, (a, b) ∈ node_pairs g
             ∧ (_judgement_grouper j = (a, b) ∨ _judgement_grouper j = (b, a))
             ∧ ∀ S : gset variable, S ⊆ MixedGraph.nodes g ∖ {[a; b]} →
                 separating g a b S → length (conditions j) ≤ size S)
    ∧ (∀ a b (S : gset variable) j,
         (a, b) ∈ node_pairs g → S ⊆ MixedGraph.nodes g ∖ {[a; b]} →
         match max_conditions with None => True | Some m => size S ≤ m end →
         d_separated g a b (elements S) = inr j → separated j = true →
         j ∈ every)
    ∧ (∀ j, j ∈ every →
         ∃ a b cs, (a, b) ∈ node_pairs g ∧ cs ∈ candidates g max_conditions a b
           ∧ d_separated g a b cs = inr j ∧ separated j = true).
Proof.
  intros Hg.
  destruct (d_separations_run h graph g max_conditions false Hg) as (h1 & Hrun1 & _).
  destruct (d_separations_run h graph g max_conditions true Hg) as (h2 & Hrun2 & _).
  rewrite scan_pairs_of_yields in Hrun1, Hrun2 by done.
  fold (node_pairs g) in Hrun1, Hrun2.
  eexists _, _, h1, h2. split; [exact Hrun1|]. split; [exact Hrun2|].
  split; [done|]. split; [intros a b; apply powerset_sorted|].
  split; [apply first_yields_one_per_pair|]. split; [|split].
  - intros j Hj. apply list_elem_of_In, in_flat_map in Hj as ([a b] & Hp & Hj).
    apply list_elem_of_In in Hp, Hj. cbn [fst snd] in Hj.
    split; [by apply elem_of_yields in Hj as (cs & _ & _ & ?)|].
    exists a, b. split; [done|]. split; [by eapply yields_pair|].
    intros S HS Hsep. by eapply first_yield_minimal.
  - intros a b S j Hp HS Hmax Hd Hsep.
    destruct (separating_candidate g max_conditions a b S HS Hmax)
      as (cs & Hcs & _ & Heq).
    apply list_elem_of_In, in_flat_map. exists (a, b).
    split; [by apply list_elem_of_In|]. apply list_elem_of_In.
    cbn [fst snd]. unfold yields. apply elem_of_hits.
    exists cs. split; [done|]. by rewrite Heq.
  - intros j Hj. apply list_elem_of_In, in_flat_map in Hj as ([a b] & Hp & Hj).
    apply list_elem_of_In in Hp, Hj. cbn [fst snd] in Hj.
    apply elem_of_yields in Hj as (cs & ? & ? & ?). by exists a, b, cs.
Qed.

Lemma first_hit_enumeration_witness :
  ∃ first every h1 h2,
    d_separations 0 None false (heap_of chain) = (inr first, h1)
    ∧ d_separations 0 None true (heap_of chain) = (inr every, h2)
    ∧ NoDup (_judgement_grouper <$> first).
Proof.
  destruct (first_hit_enumeration (heap_of chain) 0 chain None)
    as (first & every & h1 & h2 & Hrun1 & Hrun2 & _ & _ & Hone & _).
  - reflexivity.
  - exists first, every, h1, h2. split; [exact Hrun1|]. split; [exact Hrun2|exact Hone].
Defined.

(** * Further properties of the code *)

(** ** Moral links *)

(** X1.  On an ADMG whose directed edges join its vertices,
    [get_moral_links] returns, without touching the store, a list that
    holds a pair of vertices in one order or the other exactly when the two
    are distinct parents of a common child; the guard [len(parents) > 1],
    which looks at the list of parent sets, never drops such a pair. *)
Theorem get_moral_links_coparents (h : heap) graph g :
  h !! graph = Some (OADMG g) → admg_wf g →
  ∃ links, get_moral_links graph h = (inr links, h)
    ∧ ∀ u v, ((u, v) ∈ links ∨ (v, u) ∈ links)
        ↔ u ≠ v ∧ ∃ w, (u, w) ∈ Ananke.di_edges g ∧ (v, w) ∈ Ananke.di_edges g.
Proof.
  intros Hg Hwf. rewrite (get_moral_links_run _ _ _ Hg).
  destruct (moral_links_of_ok g Hwf) as (links & -> & Hlinks). by exists links.
Qed.

Lemma get_moral_links_coparents_witness :
  ∃ links, get_moral_links 0 ananke_heap = (inr links, ananke_heap)
    ∧ ∀ u v, ((u, v) ∈ links ∨ (v, u) ∈ links)
        ↔ u ≠ v ∧ ∃ w, (u, w) ∈ Ananke.di_edges ananke_graph
                     ∧ (v, w) ∈ Ananke.di_edges ananke_graph.
Proof.
  apply (get_moral_links_coparents ananke_heap 0 ananke_graph).
  - reflexivity.
  - intros u v Hin. cbn in Hin. apply elem_of_singleton in Hin.
    injection Hin as -> ->. cbn. set_solver.
Defined.

(** ** Disorientation *)

(** X2.  [disorient] leaves the ADMG as it is and returns a new networkx
    graph: its nodes are the vertices and the endpoints of the edges, and
    two nodes are adjacent exactly when a directed, undirected or bidirected
    edge joins them in one direction or the other, so that adjacency is
    symmetric. *)
Theorem disorient_undirected (h : heap) graph g :
  h !! graph = Some (OADMG g) →
  ∃ rv G,
    disorient graph h = (inr rv, <[rv := OGraph G]> h)
    ∧ h !! rv = None
    ∧ (∀ u v, (u, v) ∈ Nx.adj G
         ↔ ∃ e, (e = (u, v) ∨ e = (v, u))
              ∧ (e ∈ Ananke.di_edges g ∨ e ∈ Ananke.ud_edges g
                 ∨ e ∈ Ananke.bi_edges g))
    ∧ (∀ u v, (u, v) ∈ Nx.adj G → (v, u) ∈ Nx.adj G)
    ∧ (∀ u v, (u, v) ∈ Nx.adj G → u ∈ Nx.nodes G ∧ v ∈ Nx.nodes G)
    ∧ Ananke.vertices g ⊆ Nx.nodes G.
Proof.
  intros Hg. rewrite (disorient_run _ _ _ Hg).
  exists (fresh (dom h)), (disoriented g). split; [done|].
  split; [by apply fresh_frame|].
  assert (∀ u v, (u, v) ∈ Nx.adj (disoriented g)
            ↔ ∃ e, (e = (u, v) ∨ e = (v, u))
                 ∧ (e ∈ Ananke.di_edges g ∨ e ∈ Ananke.ud_edges g
                    ∨ e ∈ Ananke.bi_edges g)) as Hadj.
  { intros u v. unfold disoriented. rewrite adj_add_edges_from. cbn.
    rewrite elem_of_empty, !elem_of_app, !elem_of_elements. split.
    - intros [[]|[Hin|Hin]]; eexists; (split; [|exact Hin]); auto.
    - intros (e & [-> | ->] & Hin); auto. }
  split; [done|]. split; [|split].
  - intros u v. rewrite !Hadj. intros (e & [-> | ->] & Hin); eauto.
  - intros u v (e & He & Hin)%Hadj. unfold disoriented.
    rewrite !nodes_add_edges_from.
    assert (e ∈ elements (Ananke.di_edges g) ++ elements (Ananke.ud_edges g)
                ++ elements (Ananke.bi_edges g)) as Hin'.
    { rewrite !elem_of_app, !elem_of_elements. tauto. }
    split; right; exists e; (split; [done|]); destruct He as [-> | ->]; auto.
  - intros v Hv. unfold disoriented. rewrite nodes_add_edges_from. left. cbn.
    apply elem_of_union_r, elem_of_list_to_set. by apply elem_of_elements.
Qed.

Lemma disorient_undirected_witness :
  ∃ rv G, disorient 0 ananke_heap = (inr rv, <[rv := OGraph G]> ananke_heap)
        ∧ ananke_heap !! rv = None.
Proof.
  destruct (disorient_undirected ananke_heap 0 ananke_graph) as (rv & G & Hrun & Hnew & _).
  - reflexivity.
  - exists rv, G. split; [exact Hrun|exact Hnew].
Defined.

(** ** The separation test *)

Lemma d_separated_errors g a b cs e :
  d_separated g a b cs = inl e → e = NodeNotFound ∨ ∃ v, e = KeyError v.
Proof.
  unfold d_separated.
  set (cn := list_to_set (name <$> cs) : gset string).
  set (named := {[name a; name b]} ∪ cn).
  destruct (decide (named ⊆ node_names g)) as [Hnamed|Hnamed].
  - destruct (evidence_graph_of_ok g named cn Hnamed) as (G & -> & _).
    cbn [mbind result_bind]. unfold Nx.has_path.
    case_bool_decide; cbn; [done|]. intros [= <-]. by left.
  - destruct (evidence_graph_of_missing g named cn Hnamed) as (v & _ & _ & ->).
    cbn. intros [= <-]. right. by exists v.
Qed.

(** X3.  Whatever its other arguments, [are_d_separated] raises
    [NoAnankeError] exactly when the graph is an ananke ADMG: no later step
    of the test raises that error. *)
Theorem are_d_separated_ananke_error (h : heap) graph a b conditions :
  (are_d_separated graph a b conditions h).1 = inl NoAnankeError
  ↔ ∃ g, h !! graph = Some (OADMG g).
Proof.
  pose proof (are_d_separated_guards h graph a b conditions) as Hguard.
  unfold guards in Hguard.
  destruct (h !! graph) as [[g|g|g]|] eqn:Hg.
  - split; [|by intros (? & [=])].
    destruct a as [va| |]; [|by rewrite Hguard..].
    destruct b as [vb| |]; [|by rewrite Hguard..].
    destruct (as_variables (default [] conditions)) as [cs|]; [|by rewrite Hguard].
    rewrite Hguard.
    destruct (are_d_separated_run h graph g va vb cs Hg) as (h' & -> & _). cbn.
    intros [|[v ?]]%d_separated_errors; done.
  - rewrite Hguard. split; eauto.
  - split; [|by intros (? & [=])].
    destruct a as [va| |]; [|by rewrite Hguard..].
    destruct b as [vb| |]; [|by rewrite Hguard..].
    destruct (as_variables (default [] conditions)) as [cs|]; [|by rewrite Hguard].
    rewrite Hguard. unfold are_d_separated.
    rewrite bind_run, (isinstance_ADMG_run _ _ _ Hg).
    unfold default, id. rewrite as_variables_fmap, bind_run.
    unfold mixed_to_admg. rewrite bind_run, load_mixed_other; [done|].
    intros g'. by rewrite Hg.
  - rewrite Hguard. split; [done|by intros (? & [=])].
Qed.

(** X4.  For two nodes of a mixed graph and conditions that are nodes other
    than the two, [are_d_separated] returns a judgement, and the judgement
    says separated exactly when no path joins the two nodes in the
    moralized ancestral graph once the conditions are taken out. *)
Theorem are_d_separated_moral_graph (h : heap) graph g a b cs :
  h !! graph = Some (ONxMixedGraph g) →
  a ∈ MixedGraph.nodes g → b ∈ MixedGraph.nodes g →
  Forall (fun c => c ∈ MixedGraph.nodes g) cs → a ∉ cs → b ∉ cs →
  ∃ j, (are_d_separated graph (VVariable a) (VVariable b)
          (Some (VVariable <$> cs)) h).1 = inr j
     ∧ (separated j = true ↔ ¬ connected g a b cs).
Proof.
  intros Hg Ha Hb Hcs Hac Hbc.
  destruct (are_d_separated_run h graph g a b cs Hg) as (h' & -> & _).
  destruct (d_separated_ok g a b cs Ha Hb Hcs Hac Hbc) as (sep & -> & Hsep).
  eexists. split; [done|]. by rewrite create_separated.
Qed.

Lemma are_d_separated_moral_graph_witness :
  ∃ j, (are_d_separated 0 (VVariable A) (VVariable B)
          (Some (VVariable <$> [C])) (heap_of chain)).1 = inr j
     ∧ (separated j = true ↔ ¬ connected chain A B [C]).
Proof.
  apply (are_d_separated_moral_graph (heap_of chain) 0 chain A B [C]);
    [reflexivity|apply (bool_decide_unpack _); vm_compute; exact I..].
Defined.

(** X5.  The test takes its conditions as a set: two lists of conditions
    with the same elements, in any order and with any repetitions, give the
    same outcome. *)
Theorem are_d_separated_conditions_as_set (h : heap) graph g a b cs1 cs2 :
  h !! graph = Some (ONxMixedGraph g) →
  (∀ c, c ∈ cs1 ↔ c ∈ cs2) →
  (are_d_separated graph (VVariable a) (VVariable b) (Some (VVariable <$> cs1)) h).1
  = (are_d_separated graph (VVariable a) (VVariable b) (Some (VVariable <$> cs2)) h).1.
Proof.
  intros Hg Hsame.
  destruct (are_d_separated_run h graph g a b cs1 Hg) as (h1 & -> & _).
  destruct (are_d_separated_run h graph g a b cs2 Hg) as (h2 & -> & _).
  cbn. apply d_separated_set. apply set_eq. intros c.
  by rewrite !elem_of_list_to_set.
Qed.

Lemma are_d_separated_conditions_as_set_witness :
  (are_d_separated 0 (VVariable A) (VVariable B)
     (Some (VVariable <$> [C; C])) (heap_of chain)).1
  = (are_d_separated 0 (VVariable A) (VVariable B)
       (Some (VVariable <$> [C])) (heap_of chain)).1.
Proof.
  apply (are_d_separated_conditions_as_set (heap_of chain) 0 chain A B [C; C] [C]).
  - reflexivity.
  - intros c. rewrite !elem_of_cons, !elem_of_nil. tauto.
Defined.

(** X6.  A node is never separated from itself: tested against itself,
    with conditions that are other nodes, the judgement says
    [separated = False]. *)
Theorem are_d_separated_same_node (h : heap) graph g a cs :
  h !! graph = Some (ONxMixedGraph g) →
  a ∈ MixedGraph.nodes g → Forall (fun c => c ∈ MixedGraph.nodes g) cs → a ∉ cs →
  ∃ j, (are_d_separated graph (VVariable a) (VVariable a)
          (Some (VVariable <$> cs)) h).1 = inr j
     ∧ separated j = false.
Proof.
  intros Hg Ha Hcs Hac.
  destruct (are_d_separated_run h graph g a a cs Hg) as (h' & -> & _).
  destruct (d_separated_ok g a a cs Ha Ha Hcs Hac Hac) as (sep & -> & Hsep).
  eexists. split; [done|]. rewrite create_separated.
  apply not_true_is_false. rewrite Hsep. intros Hnot. apply Hnot.
  unfold connected. apply rtc_refl.
Qed.

Lemma are_d_separated_same_node_witness :
  ∃ j, (are_d_separated 0 (VVariable A) (VVariable A)
          (Some (VVariable <$> [C])) (heap_of chain)).1 = inr j
     ∧ separated j = false.
Proof.
  apply (are_d_separated_same_node (heap_of chain) 0 chain A [C]);
    [reflexivity|apply (bool_decide_unpack _); vm_compute; exact I..].
Defined.

(** ** Chains *)

(** With enough fuel the ancestral set holds every ancestor. *)
Lemma elem_of_ancestral g named v :
  named ⊆ node_names g →
  v ∈ ancestral g named
  ↔ ∃ u, u ∈ named
       ∧ rtc (edge (flip_edges (MixedGraph.names (MixedGraph.directed g)))) u v.
Proof.
  intros Hnamed. unfold ancestral. apply elem_of_reach; [|done].
  intros u w Hedge. unfold edge in Hedge. rewrite elem_of_flip_edges in Hedge.
  by apply names_in_node_names in Hedge as [? _].
Qed.

Section chain.
Context (g : MixedGraph.NxMixedGraph) (a b c : variable).
Hypothesis Hnodes : MixedGraph.nodes g = {[a; b; c]}.
Hypothesis Hdirected : MixedGraph.directed g = {[(a, c); (c, b)]}.
Hypothesis Hundirected : MixedGraph.undirected g = ∅.
Hypothesis Hab : a ≠ b.
Hypothesis Hac : a ≠ c.
Hypothesis Hbc : b ≠ c.

Lemma chain_edge u v :
  (u, v) ∈ MixedGraph.names (MixedGraph.directed g)
  ↔ (u = name a ∧ v = name c) ∨ (u = name c ∧ v = name b).
Proof.
  rewrite elem_of_names, Hdirected, elem_of_union, !elem_of_singleton.
  split.
  - intros [[= <- <-]|[= <- <-]]; auto.
  - intros [[-> ->]|[-> ->]]; destruct a, b, c; auto.
Qed.

Lemma chain_no_bidirected u v :
  (u, v) ∉ MixedGraph.names (MixedGraph.undirected g).
Proof. rewrite elem_of_names, Hundirected. set_solver. Qed.

Lemma chain_names_in_graph cs :
  Forall (fun x => x ∈ MixedGraph.nodes g) cs →
  {[name a; name b]} ∪ list_to_set (name <$> cs) ⊆ node_names g.
Proof. apply named_in_graph; rewrite Hnodes; set_solver. Qed.

(** The mediator is an ancestor of [b]. *)
Lemma chain_mediator_ancestral cs :
  Forall (fun x => x ∈ MixedGraph.nodes g) cs →
  name c ∈ ancestral g ({[name a; name b]} ∪ list_to_set (name <$> cs)).
Proof.
  intros Hcs. apply elem_of_ancestral; [by apply chain_names_in_graph|].
  exists (name b). split; [set_solver|].
  apply rtc_once. unfold edge. rewrite elem_of_flip_edges. apply chain_edge. auto.
Qed.

Lemma chain_connected : connected g a b [].
Proof.
  unfold connected. cbn [fmap list_fmap list_to_set foldr].
  pose proof (chain_mediator_ancestral [] (Forall_nil_2 _)) as Hc.
  cbn [fmap list_fmap list_to_set foldr] in Hc.
  apply rtc_l with (name c); [|apply rtc_once].
  - split; [set_solver|]. split; [set_solver|]. left.
    split; [apply ancestral_incl; set_solver|]. split; [done|].
    left. apply chain_edge. auto.
  - split; [set_solver|]. split; [set_solver|]. left.
    split; [done|]. split; [apply ancestral_incl; set_solver|].
    left. apply chain_edge. auto.
Qed.

Lemma chain_blocked : ¬ connected g a b [c].
Proof.
  unfold connected. cbn [fmap list_fmap list_to_set foldr].
  intros [?%name_inj|(w & Hstep & _)]%rtc_inv; [done|].
  destruct Hstep as (_ & Hw & [Hl|Hl]).
  - destruct Hl as (_ & _ & [Hd|[Hu|(Hne & x & _ & Hd & Hd')]]).
    + apply chain_edge in Hd as [[_ ->]|[Hca _]]; [set_solver|].
      by apply name_inj in Hca.
    + by apply chain_no_bidirected in Hu.
    + apply chain_edge in Hd as [[_ ->]|[Hca _]]; [|by apply name_inj in Hca].
      apply chain_edge in Hd' as [[-> _]|[_ Hcb]]; [done|].
      apply name_inj in Hcb. done.
  - destruct Hl as (_ & _ & [Hd|[Hu|(Hne & x & _ & Hd' & Hd)]]).
    + apply chain_edge in Hd as [[_ Hac']|[_ Hab']]; apply name_inj in Hac' || apply name_inj in Hab'; done.
    + by apply chain_no_bidirected in Hu.
    + apply chain_edge in Hd as [[_ ->]|[Hca _]]; [|by apply name_inj in Hca].
      apply chain_edge in Hd' as [[-> _]|[_ Hcb]]; [done|].
      apply name_inj in Hcb. done.
Qed.

End chain.

(** X7.  In a graph with the three nodes A, B, C whose only edges are
    A -> C and C -> B, the test of A and B without conditions says
    [separated = False], and the test with the mediator C as condition says
    [separated = True]. *)
Theorem chain_blocking (h : heap) graph g (a b c : variable) :
  h !! graph = Some (ONxMixedGraph g) →
  MixedGraph.nodes g = {[a; b; c]} →
  MixedGraph.directed g = {[(a, c); (c, b)]} →
  MixedGraph.undirected g = ∅ →
  a ≠ b → a ≠ c → b ≠ c →
  (∃ j, (are_d_separated graph (VVariable a) (VVariable b) (Some []) h).1 = inr j
        ∧ separated j = false)
  ∧ (∃ j, (are_d_separated graph (VVariable a) (VVariable b)
             (Some [VVariable c]) h).1 = inr j
        ∧ separated j = true).
Proof.
  intros Hg Hnodes Hdirected Hundirected Hab Hac Hbc.
  assert (a ∈ MixedGraph.nodes g ∧ b ∈ MixedGraph.nodes g ∧ c ∈ MixedGraph.nodes g)
    as (Ha & Hb & Hc) by (rewrite Hnodes; set_solver).
  split.
  - destruct (are_d_separated_run h graph g a b [] Hg) as (h' & Hrun & _).
    cbn [fmap list_fmap] in Hrun. rewrite Hrun. cbn [fst].
    destruct (d_separated_ok g a b []) as (sep & -> & Hsep);
      [done|done|done|by intros ?%elem_of_nil..|].
    eexists. split; [done|]. rewrite create_separated.
    apply not_true_is_false. rewrite Hsep. intros Hnot. apply Hnot.
    by apply (chain_connected g a b c).
  - destruct (are_d_separated_run h graph g a b [c] Hg) as (h' & Hrun & _).
    cbn [fmap list_fmap] in Hrun. rewrite Hrun. cbn [fst].
    destruct (d_separated_ok g a b [c]) as (sep & -> & Hsep);
      [done|done|by repeat constructor|by intros ?%list_elem_of_singleton..|].
    eexists. split; [done|]. rewrite create_separated. apply Hsep.
    by apply (chain_blocked g a b c).
Qed.

Lemma chain_blocking_witness :
  (∃ j, (are_d_separated 0 (VVariable A) (VVariable B) (Some []) (heap_of chain)).1
        = inr j ∧ separated j = false)
  ∧ (∃ j, (are_d_separated 0 (VVariable A) (VVariable B) (Some [VVariable C])
             (heap_of chain)).1 = inr j ∧ separated j = true).
Proof.
  apply (chain_blocking (heap_of chain) 0 chain A B C);
    first [ reflexivity | discriminate | by vm_compute ].
Defined.

(** ** More on the minimal cover *)

Section minimal_more.
Context {K : Type} `{PyOrd K} (policy : DSeparationJudgement → K).
Hypothesis Hord : strict_order (@py_lt K _).

Lemma minimal_by_idempotent judgements :
  ∃ out, minimal_by policy judgements = inr out
       ∧ minimal_by policy (elements out) = inr out.
Proof.
  destruct (minimal_by_spec policy Hord judgements) as (out & Hout & Hin & Hcover & Hone).
  exists out. split; [done|].
  destruct (minimal_by_spec policy Hord (elements out)) as (out' & -> & Hin' & Hcover' & _).
  f_equal. apply set_eq. intros j. split.
  - intros Hj. apply elem_of_elements. by apply Hin'.
  - intros Hj. destruct (Hcover' j) as (j' & Hj' & Hsame); [by apply elem_of_elements|].
    assert (j' = j) as <-; [|done].
    apply Hone; [|done..]. apply elem_of_elements. by apply Hin'.
Qed.

End minimal_more.

(** X8.  [minimal] is idempotent: for a policy whose keys are strictly
    ordered, reducing the set it returns gives that set again. *)
Theorem minimal_idempotent (judgements : list DSeparationJudgement)
    (policy : option retention_policy) :
  sound_policy policy →
  ∃ out, minimal judgements policy = inr out
       ∧ minimal (elements out) policy = inr out.
Proof.
  intros Hsound. destruct policy as [[K ord key]|]; cbn in *.
  - by apply minimal_by_idempotent.
  - apply minimal_by_idempotent, len_lex_strict_order.
Qed.

Lemma minimal_idempotent_witness :
  let by_size := Some (Policy (fun j => length (conditions j))) in
  let judgements :=
    [ mkJudgement A B true [C]; mkJudgement A B true [];
      mkJudgement A C true [B] ] in
  ∃ out, minimal judgements by_size = inr out
       ∧ minimal (elements out) by_size = inr out.
Proof.
  intros by_size judgements.
  apply (minimal_idempotent judgements by_size). split.
  - intros x. apply Nat.ltb_irrefl.
  - intros x y z. unfold py_lt, nat_ord. rewrite !Nat.ltb_lt. lia.
Defined.

(** X9.  Without a policy, [minimal] keeps for each (left, right) pair of
    the input an input judgement with the fewest conditions: every input
    judgement has a kept one with its left and right, every kept judgement
    is an input one, no input judgement with the same left and right has
    fewer conditions, and among those with as many none has joined
    condition names that come earlier. *)
Theorem minimal_default_fewest_conditions (judgements : list DSeparationJudgement) :
  ∃ out, minimal judgements None = inr out
    ∧ (∀ j', j' ∈ judgements →
         ∃ j, j ∈ out ∧ left j = left j' ∧ right j = right j')
    ∧ ∀ j, j ∈ out →
        j ∈ judgements
        ∧ ∀ j', j' ∈ judgements → left j' = left j → right j' = right j →
            length (conditions j) ≤ length (conditions j')
            ∧ (length (conditions j') = length (conditions j) →
               String.ltb (String.concat "," (map name (conditions j')))
                          (String.concat "," (map name (conditions j))) = false).
Proof.
  destruct (minimal_by_spec _len_lex len_lex_strict_order judgements)
    as (out & Hout & Hin & Hcover & _).
  exists out. split; [exact Hout|]. split.
  - intros j' Hj'. destruct (Hcover j' Hj') as (j & Hj & Hsame).
    exists j. split; [done|]. by apply judgement_grouper_eq.
  - intros j Hj. destruct (Hin j Hj) as [Hfrom Hleast]. split; [done|].
    intros j' Hj' Hl Hr.
    assert (_judgement_grouper j' = _judgement_grouper j) as Hsame
      by by apply judgement_grouper_eq.
    specialize (Hleast j' Hj' Hsame).
    apply not_true_iff_false in Hleast. rewrite len_lex_lt in Hleast.
    split.
    + destruct (decide (length (conditions j) ≤ length (conditions j'))); [done|].
      destruct Hleast. left. lia.
    + intros Hlen. apply not_true_is_false. intros Hlt. apply Hleast. by right.
Qed.

(** ** More on the enumeration *)

Lemma d_separations_mixed (h : heap) graph g max_conditions return_all :
  h !! graph = Some (ONxMixedGraph g) →
  ∃ h', d_separations graph max_conditions return_all h
        = (inr (flat_map (fun p => yields g max_conditions return_all p.1 p.2)
                  (node_pairs g)), h')
      ∧ h ⊆ h'.
Proof.
  intros Hg.
  destruct (d_separations_run h graph g max_conditions return_all Hg) as (h' & Hrun & Hsub).
  rewrite scan_pairs_of_yields in Hrun by done. by exists h'.
Qed.

Lemma d_separations_not_mixed (h : heap) graph max_conditions return_all :
  (∀ g, h !! graph ≠ Some (ONxMixedGraph g)) →
  d_separations graph max_conditions return_all h
  = (inl (match h !! graph with
          | Some (OADMG _) => NoAnankeError
          | _ => AttributeError
          end), h).
Proof.
  intros Hg. unfold d_separations. rewrite bind_run.
  destruct (h !! graph) as [o|] eqn:Ho.
  - rewrite (isinstance_ADMG_run _ _ _ Ho). destruct o as [g|g|g]; [by destruct (Hg g)|done|].
    rewrite bind_run, load_mixed_other; [done|]. intros g'. by rewrite Ho.
  - unfold isinstance_ADMG. by rewrite bind_run, (load_fail _ _ Ho).
Qed.

(** X10.  On a mixed graph with fewer than two nodes there is no pair to
    test: [d_separations] yields nothing and leaves the store exactly as it
    was. *)
Theorem d_separations_few_nodes (h : heap) graph g max_conditions return_all :
  h !! graph = Some (ONxMixedGraph g) →
  size (MixedGraph.nodes g) < 2 →
  d_separations graph max_conditions return_all h = (inr [], h).
Proof.
  intros Hg Hsize. unfold d_separations.
  rewrite bind_run, (isinstance_ADMG_run _ _ _ Hg).
  rewrite bind_run, (load_mixed_run _ _ _ Hg).
  change (size (MixedGraph.nodes g)) with (length (elements (MixedGraph.nodes g))) in Hsize.
  destruct (elements (MixedGraph.nodes g)) as [|x [|y l]]; [done|done|].
  cbn in Hsize. lia.
Qed.

Lemma d_separations_few_nodes_witness :
  d_separations 0 None false (heap_of single_node) = (inr [], heap_of single_node).
Proof.
  apply (d_separations_few_nodes (heap_of single_node) 0 single_node).
  - reflexivity.
  - vm_compute. lia.
Defined.

(** X11.  [d_separations] changes no object that existed before the call,
    the input graph included, whatever the graph argument is and whether
    the enumeration ends with a result or an error. *)
Theorem d_separations_no_mutation (h : heap) graph max_conditions return_all :
  h ⊆ (d_separations graph max_conditions return_all h).2.
Proof.
  destruct (h !! graph) as [[g|g|g]|] eqn:Hg.
  - by destruct (d_separations_mixed h graph g max_conditions return_all Hg)
      as (h' & -> & Hsub).
  - rewrite d_separations_not_mixed; [done|]. intros g'. by rewrite Hg.
  - rewrite d_separations_not_mixed; [done|]. intros g'. by rewrite Hg.
  - rewrite d_separations_not_mixed; [done|]. intros g'. by rewrite Hg.
Qed.

(** X12.  [d_separations] raises [NoAnankeError] exactly when the graph is
    an ananke ADMG; on a mixed graph it always ends with a list of
    judgements. *)
Theorem d_separations_ananke_error (h : heap) graph max_conditions return_all :
  ((d_separations graph max_conditions return_all h).1 = inl NoAnankeError
   ↔ ∃ g, h !! graph = Some (OADMG g))
  ∧ ((∃ g, h !! graph = Some (ONxMixedGraph g)) →
     ∃ out, (d_separations graph max_conditions return_all h).1 = inr out).
Proof.
  split.
  - destruct (h !! graph) as [[g|g|g]|] eqn:Hg.
    + destruct (d_separations_mixed h graph g max_conditions return_all Hg)
        as (h' & -> & _). cbn. split; [done|by intros (? & [=])].
    + rewrite d_separations_not_mixed by (intros g'; by rewrite Hg).
      rewrite Hg. cbn. split; eauto.
    + rewrite d_separations_not_mixed by (intros g'; by rewrite Hg).
      rewrite Hg. cbn. split; [done|by intros (? & [=])].
    + rewrite d_separations_not_mixed by (intros g'; by rewrite Hg).
      rewrite Hg. cbn. split; [done|by intros (? & [=])].
  - intros (g & Hg).
    destruct (d_separations_mixed h graph g max_conditions return_all Hg)
      as (h' & -> & _). eauto.
Qed.

Lemma conditions_same_set (j : DSeparationJudgement) a b cs sep :
  j = Judgement.create a b cs sep →
  (list_to_set (conditions j) : gset variable) = list_to_set cs.
Proof.
  intros ->. rewrite create_conditions. apply set_eq. intros c.
  by rewrite elem_of_list_to_set, elem_of_sorted, elem_of_elements.
Qed.

Lemma yields_reproducible g max_conditions return_all a b j :
  j ∈ yields g max_conditions return_all a b →
  separated j = true
  ∧ d_separated g (left j) (right j) (conditions j) = inr j.
Proof.
  intros Hj. pose proof (yields_pair _ _ _ _ _ _ Hj) as Hpair.
  apply elem_of_yields in Hj as (cs & _ & Hd & Hsep). split; [done|].
  destruct (d_separated_inr _ _ _ _ _ Hd) as (sep & Hcreate).
  assert (d_separated g a b (conditions j) = inr j) as Hab.
  { rewrite <- Hd. apply d_separated_set. by eapply conditions_same_set. }
  unfold _judgement_grouper in Hpair.
  destruct Hpair as [[= -> ->]|[= -> ->]]; [done|by rewrite d_separated_sym].
Qed.

(** X13.  Every judgement that [d_separations] yields is a true one, and
    testing its own left, right and conditions again, on the store the
    enumeration leaves, returns that very judgement. *)
Theorem d_separations_yields_reproducible (h : heap) graph g max_conditions return_all :
  h !! graph = Some (ONxMixedGraph g) →
  ∃ out h',
    d_separations graph max_conditions return_all h = (inr out, h')
    ∧ ∀ j, j ∈ out →
        separated j = true
        ∧ (are_d_separated graph (VVariable (left j)) (VVariable (right j))
             (Some (VVariable <$> conditions j)) h').1 = inr j.
Proof.
  intros Hg.
  destruct (d_separations_mixed h graph g max_conditions return_all Hg)
    as (h' & Hrun & Hsub).
  eexists _, h'. split; [exact Hrun|].
  intros j Hj. apply list_elem_of_In, in_flat_map in Hj as ([a b] & _ & Hj).
  apply list_elem_of_In, yields_reproducible in Hj as [Hsep Hd]. split; [done|].
  assert (h' !! graph = Some (ONxMixedGraph g)) as Hg' by by eapply lookup_weaken.
  destruct (are_d_separated_run h' graph g (left j) (right j) (conditions j) Hg')
    as (h'' & -> & _). done.
Qed.

Lemma d_separations_yields_reproducible_witness :
  ∃ out h',
    d_separations 0 None true (heap_of collider) = (inr out, h')
    ∧ ∀ j, j ∈ out →
        separated j = true
        ∧ (are_d_separated 0 (VVariable (left j)) (VVariable (right j))
             (Some (VVariable <$> conditions j)) h').1 = inr j.
Proof.
  apply (d_separations_yields_reproducible (heap_of collider) 0 collider None true).
  reflexivity.
Defined.

Lemma create_grouper a b cs sep cs' sep' :
  _judgement_grouper (Judgement.create a b cs sep)
  = _judgement_grouper (Judgement.create a b cs' sep').
Proof.
  unfold _judgement_grouper, Judgement.create. rewrite sorted_pair.
  by destruct (String.ltb _ _).
Qed.

(** X14.  The judgements yielded without [return_all] are among those
    yielded with it, and the two enumerations cover the same (left, right)
    pairs: a pair with a true judgement under [return_all] has one
    without. *)
Theorem d_separations_first_among_all (h : heap) graph g max_conditions :
  h !! graph = Some (ONxMixedGraph g) →
  ∃ first every h1 h2,
    d_separations graph max_conditions false h = (inr first, h1)
    ∧ d_separations graph max_conditions true h = (inr every, h2)
    ∧ (∀ j, j ∈ first → j ∈ every)
    ∧ (∀ j, j ∈ every →
         ∃ j', j' ∈ first ∧ _judgement_grouper j' = _judgement_grouper j).
Proof.
  intros Hg.
  destruct (d_separations_mixed h graph g max_conditions false Hg) as (h1 & Hrun1 & _).
  destruct (d_separations_mixed h graph g max_conditions true Hg) as (h2 & Hrun2 & _).
  eexists _, _, h1, h2. split; [exact Hrun1|]. split; [exact Hrun2|]. split.
  - intros j Hj. apply list_elem_of_In, in_flat_map in Hj as (p & Hp & Hj).
    apply list_elem_of_In, in_flat_map. exists p. split; [done|].
    apply list_elem_of_In. apply list_elem_of_In in Hj.
    unfold yields in *. by apply (subseteq_take 1).
  - intros j Hj. apply list_elem_of_In, in_flat_map in Hj as ([a b] & Hp & Hj).
    apply list_elem_of_In in Hj. cbn [fst snd] in Hj.
    assert (∃ j', j' ∈ yields g max_conditions false a b) as (j' & Hj').
    { unfold yields in *.
      destruct (hits g a b (candidates g max_conditions a b)) as [|j0 l];
        [by apply elem_of_nil in Hj|].
      exists j0. cbn. by left. }
    exists j'. split.
    + apply list_elem_of_In, in_flat_map. exists (a, b). split; [done|].
      by apply list_elem_of_In.
    + apply elem_of_yields in Hj as (cs & _ & Hd & _).
      apply elem_of_yields in Hj' as (cs' & _ & Hd' & _).
      apply d_separated_inr in Hd as (sep & ->).
      apply d_separated_inr in Hd' as (sep' & ->).
      apply create_grouper.
Qed.

Lemma d_separations_first_among_all_witness :
  ∃ first every h1 h2,
    d_separations 0 (Some 1) false (heap_of chain) = (inr first, h1)
    ∧ d_separations 0 (Some 1) true (heap_of chain) = (inr every, h2)
    ∧ (∀ j, j ∈ first → j ∈ every)
    ∧ (∀ j, j ∈ every →
         ∃ j', j' ∈ first ∧ _judgement_grouper j' = _judgement_grouper j).
Proof.
  apply (d_separations_first_among_all (heap_of chain) 0 chain (Some 1)).
  reflexivity.
Defined.

(** ** get_conditional_independencies *)

(** ** The topological policy on conditions outside its order *)

Lemma index_error order v e : index order v = inl e → e = ValueError ∧ v ∉ order.
Proof.
  induction order as [|x order IH]; cbn.
  - intros [= <-]. split; [done|]. by intros ?%elem_of_nil.
  - case_decide as Hx; [done|].
    destruct (index order v) as [e'|i]; cbn; [|done].
    intros [= <-]. destruct IH as [-> Hnotin]; [done|]. split; [done|].
    intros [->|Hin]%elem_of_cons; [done|by apply Hnotin].
Qed.

Lemma index_missing order v : v ∉ order → index order v = inl ValueError.
Proof.
  intros Hv. destruct (index order v) as [e|i] eqn:Hi.
  - by apply index_error in Hi as [-> _].
  - apply index_lookup, list_elem_of_lookup_2 in Hi. done.
Qed.

Lemma mapM_index_missing order cs c :
  c ∈ cs → c ∉ order → mapM (index order) cs = inl ValueError.
Proof.
  intros Hc Hnotin. induction cs as [|x cs IH]; [by apply elem_of_nil in Hc|].
  cbn. destruct (index order x) as [e|i] eqn:Hi; cbn.
  - by apply index_error in Hi as [-> _].
  - apply elem_of_cons in Hc as [->|Hc].
    + by rewrite (index_missing _ _ Hnotin) in Hi.
    + by rewrite (IH Hc).
Qed.

(** X15.  The key of the topological policy raises [ValueError] exactly
    when some condition of the judgement is missing from the order, and
    returns a key exactly when all of them are in it. *)
Theorem topological_policy_value_error (judgement : DSeparationJudgement)
    (order : list variable) :
  (_topological_policy judgement order = inl ValueError
   ↔ ∃ c, c ∈ conditions judgement ∧ c ∉ order)
  ∧ (is_ok (_topological_policy judgement order) = true
     ↔ ∀ c, c ∈ conditions judgement → c ∈ order).
Proof.
  unfold _topological_policy.
  destruct (decide (Forall (fun c => c ∈ order) (conditions judgement))) as [Hall|Hsome].
  - destruct (topological_policy_indices order _ Hall) as (ixs & -> & _). cbn.
    rewrite Forall_forall in Hall. split; split; try done.
    intros (c & Hc & Hnotin). destruct Hnotin. by apply Hall.
  - pose proof Hsome as Hex. apply not_Forall_Exists in Hex; [|apply _].
    apply Exists_exists in Hex as (c & Hc & Hnotin).
    rewrite (mapM_index_missing order _ c Hc Hnotin). cbn.
    split; split; try done; [by eauto|].
    intros Hall. destruct Hsome. by apply Forall_forall.
Qed.

(** ** A key that raises on no element *)

Section raising_key_facts.
Context {A K : Type} `{PyOrd K} (key : A → result K) (f : A → K).

Lemma min_from_raising_total best l :
  (∀ x, x ∈ l → key x = inr (f x)) →
  min_from_raising key best (f best) l = inr (min_from f best l).
Proof.
  revert best. induction l as [|x l IH]; intros best Hkey; [done|].
  cbn. rewrite (Hkey x) by by left. cbn.
  destruct (py_lt (f x) (f best)); apply IH; intros y Hy; apply Hkey; by right.
Qed.

Lemma py_min_raising_total l :
  (∀ x, x ∈ l → key x = inr (f x)) → py_min_raising key l = py_min f l.
Proof.
  destruct l as [|x l]; [done|]. intros Hkey.
  cbn. rewrite (Hkey x) by by left. cbn.
  apply min_from_raising_total. intros y Hy. apply Hkey. by right.
Qed.

End raising_key_facts.

Lemma mapM_result_ext {A B} (f g : A → result B) (l : list A) :
  (∀ x, x ∈ l → f x = g x) → mapM f l = mapM g l.
Proof.
  induction l as [|x l IH]; intros Hfg; [done|].
  cbn. rewrite (Hfg x) by by left. rewrite IH; [done|].
  intros y Hy. apply Hfg. by right.
Qed.

Lemma minimal_raising_total {K} `{PyOrd K}
    (policy : DSeparationJudgement → result K) (f : DSeparationJudgement → K)
    judgements :
  (∀ j, j ∈ judgements → policy j = inr (f j)) →
  minimal_raising policy judgements = minimal_by f judgements.
Proof.
  intros Hkey. unfold minimal_raising, minimal_by.
  set (ordered := sorted _judgement_grouper judgements).
  pose proof grouper_total_order as Htot.
  destruct (groupby_spec _judgement_grouper Htot ordered) as (_ & Hgroups).
  { apply sorted_sorted, Htot. }
  rewrite (mapM_result_ext (fun '(k, vs) => py_min_raising policy vs)
             (fun '(k, vs) => py_min f vs)); [done|].
  intros [k vs] Hin. apply py_min_raising_total. intros j Hj.
  destruct (Hgroups k vs Hin) as [_ Hvs]. rewrite Hvs in Hj.
  apply elem_of_filter_has_key in Hj as [Hj _].
  apply Hkey. by apply elem_of_sorted in Hj.
Qed.

(** ** Groups of one judgement *)

Lemma insort_Permutation {A K} `{PyOrd K} (key : A → K) x l :
  insort key x l ≡ₚ x :: l.
Proof.
  induction l as [|y l IH]; cbn; [done|].
  destruct (py_lt (key x) (key y)); [done|].
  rewrite IH. apply perm_swap.
Qed.

Lemma sorted_Permutation {A K} `{PyOrd K} (key : A → K) l :
  sorted key l ≡ₚ l.
Proof.
  unfold sorted.
  assert (∀ acc, foldl (fun acc x => insort key x acc) acc l ≡ₚ acc ++ l) as Hgen.
  { induction l as [|y l IH]; intros acc; cbn.
    - by rewrite app_nil_r.
    - rewrite IH, insort_Permutation. cbn. apply Permutation_middle. }
  apply Hgen.
Qed.

Lemma groupby_NoDup {A K} `{EqDecision K} (key : A → K) l :
  NoDup (key <$> l) → groupby key l = (fun x => (key x, [x])) <$> l.
Proof.
  induction l as [|x l IH]; [done|].
  intros [Hx Hl]%NoDup_cons. cbn [groupby]. rewrite (IH Hl).
  destruct l as [|y l]; [done|]. cbn.
  rewrite decide_False; [done|].
  intros Hxy. apply Hx. rewrite Hxy. by left.
Qed.

Lemma mapM_py_min_singletons {K} `{PyOrd K} (policy : DSeparationJudgement → K)
    (l : list DSeparationJudgement) :
  mapM (fun '(k, vs) => py_min policy vs)
    ((fun x => (_judgement_grouper x, [x])) <$> l) = inr l.
Proof.
  induction l as [|x l IH]; [done|]. cbn. by rewrite IH.
Qed.

Lemma minimal_by_NoDup {K} `{PyOrd K} (policy : DSeparationJudgement → K) l :
  NoDup (_judgement_grouper <$> l) →
  minimal_by policy l = inr (list_to_set l).
Proof.
  intros Hnodup. unfold minimal_by.
  rewrite groupby_NoDup by by rewrite sorted_Permutation.
  rewrite mapM_py_min_singletons. cbn. f_equal.
  apply set_eq. intros j. by rewrite !elem_of_list_to_set, elem_of_sorted.
Qed.

(** ** Running get_conditional_independencies *)

Lemma chain_acyclic : ¬ directed_cycle chain.
Proof.
  intros (v & Hcycle).
  assert (∀ u w, tc (edge (MixedGraph.directed chain)) u w →
            (u = A ∧ (w = C ∨ w = B)) ∨ (u = C ∧ w = B)) as Hreach.
  { intros u w. induction 1 as [u w Huw|u m w Hum _ IH].
    - unfold edge, chain in Huw. cbn in Huw. set_solver.
    - unfold edge, chain in Hum. cbn in Hum. set_solver. }
  destruct (Hreach v v Hcycle) as [[-> [?|?]]|[-> ?]]; discriminate.
Qed.

Lemma yields_conditions_nodes g max_conditions return_all a b j :
  j ∈ yields g max_conditions return_all a b →
  ∃ cs, cs ∈ candidates g max_conditions a b
      ∧ (∃ sep, j = Judgement.create a b cs sep)
      ∧ length (conditions j) = length cs
      ∧ Forall (fun c => c ∈ MixedGraph.nodes g) (conditions j).
Proof.
  intros Hj. apply elem_of_yields in Hj as (cs & Hcs & Hd & _).
  apply d_separated_inr in Hd as (sep & ->).
  exists cs. split; [done|]. split; [by eexists|].
  apply elem_of_candidates in Hcs as (Hnodup & Hnodes & _).
  split; [by apply create_conditions_length|].
  rewrite create_conditions. apply Forall_forall. intros c Hc.
  apply elem_of_sorted, elem_of_elements, elem_of_list_to_set in Hc.
  rewrite Forall_forall in Hnodes. by apply Hnodes.
Qed.

Lemma enumerated_conditions_nodes g max_conditions return_all j :
  j ∈ flat_map (fun p => yields g max_conditions return_all p.1 p.2) (node_pairs g) →
  Forall (fun c => c ∈ MixedGraph.nodes g) (conditions j).
Proof.
  intros Hj. apply list_elem_of_In, in_flat_map in Hj as ([a b] & _ & Hj).
  apply list_elem_of_In, yields_conditions_nodes in Hj as (? & _ & _ & _ & ?). done.
Qed.

Lemma get_conditional_independencies_default_run (h : heap) graph g
    max_conditions return_all :
  h !! graph = Some (ONxMixedGraph g) → ¬ directed_cycle g →
  ∃ (key : DSeparationJudgement → nat * nat) h',
    get_conditional_independencies graph None max_conditions return_all h
    = (minimal_by key
         (flat_map (fun p => yields g max_conditions return_all p.1 p.2)
            (node_pairs g)), h')
    ∧ h ⊆ h'
    ∧ ∀ j, Forall (fun c => c ∈ MixedGraph.nodes g) (conditions j) →
        (key j).1 = length (conditions j).
Proof.
  intros Hg Hacyclic.
  destruct (topological_sort_acyclic g Hacyclic) as (order & Hsort & Horder).
  destruct (d_separations_mixed h graph g max_conditions return_all Hg)
    as (h' & Hrun & Hsub).
  set (key := fun j => match _topological_policy j order with
                       | inr k => k
                       | inl _ => (0, 0)
                       end).
  assert (∀ j, Forall (fun c => c ∈ MixedGraph.nodes g) (conditions j) →
            _topological_policy j order = inr (key j)
            ∧ (key j).1 = length (conditions j)) as Hkey.
  { intros j Hcs. unfold key, _topological_policy.
    destruct (topological_policy_indices order (conditions j)) as (ixs & -> & _); [|done].
    eapply Forall_impl; [done|]. intros c Hc. by apply Horder. }
  exists key, h'. split; [|split; [done|]].
  - unfold get_conditional_independencies.
    rewrite bind_run, (get_topological_policy_run _ _ _ Hg), Hsort.
    rewrite bind_run, Hrun. unfold lift. f_equal.
    apply minimal_raising_total. intros j Hj.
    by apply Hkey, (enumerated_conditions_nodes g max_conditions return_all).
  - intros j Hj. by apply Hkey.
Qed.

Lemma get_conditional_independencies_policy_run (h : heap) graph g
    (policy : retention_policy) max_conditions return_all :
  h !! graph = Some (ONxMixedGraph g) →
  ∃ h',
    get_conditional_independencies graph (Some policy) max_conditions return_all h
    = (minimal
         (flat_map (fun p => yields g max_conditions return_all p.1 p.2)
            (node_pairs g)) (Some policy), h')
    ∧ h ⊆ h'.
Proof.
  intros Hg.
  destruct (d_separations_mixed h graph g max_conditions return_all Hg)
    as (h' & Hrun & Hsub).
  exists h'. split; [|done].
  unfold get_conditional_independencies. by rewrite bind_run, Hrun.
Qed.

(** X16.  On an ananke ADMG [get_conditional_independencies] raises
    [NoAnankeError] and leaves the store as it was, with the default policy
    (the error of [get_topological_policy]) and with a supplied one (the
    error of [d_separations]). *)
Theorem get_conditional_independencies_ananke (h : heap) graph g
    (policy : option retention_policy) max_conditions return_all :
  h !! graph = Some (OADMG g) →
  get_conditional_independencies graph policy max_conditions return_all h
  = (inl NoAnankeError, h).
Proof.
  intros Hg. unfold get_conditional_independencies. destruct policy as [policy|].
  - rewrite bind_run, d_separations_not_mixed by (intros g'; by rewrite Hg).
    by rewrite Hg.
  - rewrite bind_run. unfold get_topological_policy.
    by rewrite bind_run, (isinstance_ADMG_run _ _ _ Hg).
Qed.

Lemma get_conditional_independencies_ananke_witness :
  get_conditional_independencies 0 None None false ananke_heap
  = (inl NoAnankeError, ananke_heap).
Proof.
  apply (get_conditional_independencies_ananke ananke_heap 0 ananke_graph).
  reflexivity.
Defined.



(** X18.  Without [return_all], [get_conditional_independencies] returns
    exactly the set of the judgements that [d_separations] yields, whatever
    the policy: each pair has one judgement, so [minimal] drops none. *)
Theorem get_conditional_independencies_first_hits (h : heap) graph g
    (policy : option retention_policy) max_conditions :
  h !! graph = Some (ONxMixedGraph g) →
  (policy = None → ¬ directed_cycle g) →
  ∃ out h1 h2,
    d_separations graph max_conditions false h = (inr out, h1)
    ∧ get_conditional_independencies graph policy max_conditions false h
      = (inr (list_to_set out), h2)
    ∧ h ⊆ h2.
Proof.
  intros Hg Hacyclic.
  destruct (d_separations_mixed h graph g max_conditions false Hg) as (h1 & Hrun & _).
  pose proof (first_yields_one_per_pair g max_conditions) as Hnodup.
  destruct policy as [[K ord key]|].
  - destruct (get_conditional_independencies_policy_run h graph g
                (Policy key) max_conditions false Hg) as (h2 & Hget & Hsub).
    eexists _, h1, h2. split; [exact Hrun|]. split; [|done].
    rewrite Hget. cbn [minimal]. by rewrite minimal_by_NoDup.
  - destruct (get_conditional_independencies_default_run h graph g
                max_conditions false Hg) as (key & h2 & Hget & Hsub & _); [by apply Hacyclic|].
    eexists _, h1, h2. split; [exact Hrun|]. split; [|done].
    rewrite Hget. by rewrite minimal_by_NoDup.
Qed.

Lemma get_conditional_independencies_first_hits_witness :
  ∃ out h1 h2,
    d_separations 0 None false (heap_of chain) = (inr out, h1)
    ∧ get_conditional_independencies 0 None None false (heap_of chain)
      = (inr (list_to_set out), h2)
    ∧ heap_of chain ⊆ h2.
Proof.
  apply (get_conditional_independencies_first_hits (heap_of chain) 0 chain None None).
  - reflexivity.
  - intros _. exact chain_acyclic.
Defined.

Lemma separating_sym g a b S : separating g a b S → separating g b a S.
Proof. unfold separating. by rewrite (d_separated_sym g b a). Qed.

Lemma topological_key_lt (k1 k2 : nat * nat) :
  py_lt k1 k2 = false → k2.1 ≤ k1.1.
Proof.
  destruct k1 as [n1 s1], k2 as [n2 s2]. cbv [py_lt pair_ord nat_ord]. cbn [fst snd].
  case_decide; [lia|]. rewrite Nat.ltb_ge. lia.
Qed.

(** X19.  With the default policy on an acyclic mixed graph, every
    judgement that [get_conditional_independencies] returns is a true one
    with the fewest conditions: no set of other nodes that separates its
    left and right is smaller than its conditions. *)
Theorem get_conditional_independencies_fewest_conditions (h : heap) graph g
    max_conditions return_all :
  h !! graph = Some (ONxMixedGraph g) → ¬ directed_cycle g →
  ∃ out h',
    get_conditional_independencies graph None max_conditions return_all h
    = (inr out, h')
    ∧ ∀ j, j ∈ out →
        separated j = true
        ∧ ∀ S : gset variable,
            S ⊆ MixedGraph.nodes g ∖ {[left j; right j]} →
            separating g (left j) (right j) S →
            length (conditions j) ≤ size S.
Proof.
  intros Hg Hacyclic.
  destruct (get_conditional_independencies_default_run h graph g
              max_conditions return_all Hg Hacyclic) as (key & h' & Hget & _ & Hkey).
  set (every := flat_map (fun p => yields g max_conditions return_all p.1 p.2)
                  (node_pairs g)) in *.
  destruct (minimal_by_spec key (proj1 (pair_total_order nat_total_order nat_total_order)) every)
    as (out & Hmin & Hin & _ & _).
  exists out, h'. split; [by rewrite Hget, Hmin|].
  intros j Hj. destruct (Hin j Hj) as [Hevery Hleast].
  pose proof Hevery as Hyield.
  apply list_elem_of_In, in_flat_map in Hyield as ([a b] & Hpair & Hyield).
  apply list_elem_of_In in Hpair, Hyield. cbn [fst snd] in Hyield.
  split; [by apply elem_of_yields in Hyield as (? & _ & _ & ?)|].
  intros S HS Hsep.
  assert (S ⊆ MixedGraph.nodes g ∖ {[a; b]} ∧ separating g a b S) as [HS' Hsep'].
  { pose proof (yields_pair _ _ _ _ _ _ Hyield) as Hlr. unfold _judgement_grouper in Hlr.
    destruct Hlr as [[= Hl Hr]|[= Hl Hr]]; rewrite Hl, Hr in HS, Hsep.
    - done.
    - split; [set_solver|by apply separating_sym]. }
  destruct return_all; [|by eapply first_yield_minimal].
  destruct (yields_conditions_nodes _ _ _ _ _ _ Hyield)
    as (cs & Hcs & (sep & Hcreate) & Hlen & Hnodes).
  assert (match max_conditions with
          | Some m => size S ≤ m
          | None => True
          end
          ∨ ∃ m, max_conditions = Some m ∧ m < size S) as [Hbound|(m & -> & Hbound)].
  { destruct max_conditions as [m|]; [|by left].
    destruct (decide (size S ≤ m)); [by left|right]. exists m. split; [done|lia]. }
  - destruct (separating_candidate g max_conditions a b S HS' Hbound)
      as (cs' & Hcs' & Hlen' & Hd').
    destruct Hsep' as (j0 & Hd0 & Hsep0). rewrite <- Hd' in Hd0.
    assert (j0 ∈ yields g max_conditions true a b) as Hyield0.
    { unfold yields. apply elem_of_hits. eauto. }
    assert (j0 ∈ every) as Hevery0.
    { apply list_elem_of_In, in_flat_map. exists (a, b).
      split; by apply list_elem_of_In. }
    destruct (yields_conditions_nodes _ _ _ _ _ _ Hyield0)
      as (cs0 & _ & (sep0 & Hcreate0) & _ & Hnodes0).
    pose proof (d_separated_inr _ _ _ _ _ Hd0) as (sep1 & Hcreate1).
    assert (_judgement_grouper j0 = _judgement_grouper j) as Hsame.
    { rewrite Hcreate1, Hcreate. apply create_grouper. }
    pose proof (Hleast j0 Hevery0 Hsame) as Hlt%topological_key_lt.
    rewrite (Hkey j Hnodes), (Hkey j0 Hnodes0) in Hlt.
    rewrite <- Hlen'. etrans; [exact Hlt|].
    rewrite Hcreate1, create_conditions_length; [done|].
    by apply elem_of_candidates in Hcs' as (? & _).
  - apply elem_of_candidates in Hcs as (_ & _ & _ & _ & Hm). lia.
Qed.

Lemma get_conditional_independencies_fewest_conditions_witness :
  ∃ out h',
    get_conditional_independencies 0 None None true (heap_of chain)
    = (inr out, h')
    ∧ ∀ j, j ∈ out →
        separated j = true
        ∧ ∀ S : gset variable,
            S ⊆ MixedGraph.nodes chain ∖ {[left j; right j]} →
            separating chain (left j) (right j) S →
            length (conditions j) ≤ size S.
Proof.
  apply (get_conditional_independencies_fewest_conditions (heap_of chain) 0 chain None true).
  - reflexivity.
  - exact chain_acyclic.
Defined.

(** X20.  [get_conditional_independencies] covers every separable pair
    once: for a policy with a strict order (or the default one on an
    acyclic graph), each pair of distinct nodes that some set of other nodes
    within [max_conditions] separates has a judgement in the result, and no
    two judgements of the result have the same left and right. *)
Theorem get_conditional_independencies_cover (h : heap) graph g
    (policy : option retention_policy) max_conditions return_all :
  h !! graph = Some (ONxMixedGraph g) →
  (policy = None → ¬ directed_cycle g) →
  sound_policy policy →
  ∃ out h',
    get_conditional_independencies graph policy max_conditions return_all h
    = (inr out, h')
    ∧ (∀ a b (S : gset variable),
         a ∈ MixedGraph.nodes g → b ∈ MixedGraph.nodes g → a ≠ b →
         S ⊆ MixedGraph.nodes g ∖ {[a; b]} →
         match max_conditions with Some m => size S ≤ m | None => True end →
         separating g a b S →
         ∃ j, j ∈ out
            ∧ (_judgement_grouper j = (a, b) ∨ _judgement_grouper j = (b, a)))
    ∧ (∀ j1 j2, j1 ∈ out → j2 ∈ out →
         _judgement_grouper j1 = _judgement_grouper j2 → j1 = j2).
Proof.
  intros Hg Hacyclic Hsound.
  set (every := flat_map (fun p => yields g max_conditions return_all p.1 p.2)
                  (node_pairs g)).
  assert (∃ (out : gset DSeparationJudgement) h',
            get_conditional_independencies graph policy max_conditions return_all h
            = (inr out, h')
            ∧ (∀ j, j ∈ every →
                 ∃ j', j' ∈ out ∧ _judgement_grouper j' = _judgement_grouper j)
            ∧ (∀ j1 j2, j1 ∈ out → j2 ∈ out →
                 _judgement_grouper j1 = _judgement_grouper j2 → j1 = j2))
    as (out & h' & Hget & Hcover & Hone).
  { destruct policy as [[K ord key]|].
    - destruct (get_conditional_independencies_policy_run h graph g
                  (Policy key) max_conditions return_all Hg) as (h' & Hget & _).
      destruct (minimal_by_spec key Hsound every) as (out & Hmin & _ & Hcover & Hone).
      exists out, h'. split; [|done]. rewrite Hget. cbn [minimal]. fold every. by rewrite Hmin.
    - destruct (get_conditional_independencies_default_run h graph g
                  max_conditions return_all Hg) as (key & h' & Hget & _ & _);
        [by apply Hacyclic|].
      destruct (minimal_by_spec key (proj1 (pair_total_order nat_total_order nat_total_order)) every)
        as (out & Hmin & _ & Hcover & Hone).
      exists out, h'. split; [|done]. rewrite Hget. fold every. by rewrite Hmin. }
  exists out, h'. split; [done|]. split; [|done].
  assert (∀ a b (S : gset variable),
            (a, b) ∈ node_pairs g →
            S ⊆ MixedGraph.nodes g ∖ {[a; b]} →
            match max_conditions with Some m => size S ≤ m | None => True end →
            separating g a b S →
            ∃ j, j ∈ out
               ∧ (_judgement_grouper j = (a, b) ∨ _judgement_grouper j = (b, a)))
    as Hpair.
  { intros a b S Hab HS Hbound (j0 & Hd0 & Hsep0).
    destruct (separating_candidate g max_conditions a b S HS Hbound)
      as (cs & Hcs & _ & Hd).
    rewrite <- Hd in Hd0.
    assert (j0 ∈ hits g a b (candidates g max_conditions a b)) as Hhit.
    { apply elem_of_hits. eauto. }
    assert (∃ j1, j1 ∈ yields g max_conditions return_all a b) as (j1 & Hj1).
    { unfold yields. destruct return_all; [eauto|].
      destruct (hits g a b (candidates g max_conditions a b)) as [|j1 l];
        [by apply elem_of_nil in Hhit|].
      exists j1. cbn. by left. }
    destruct (Hcover j1) as (j & Hj & Hsame).
    { apply list_elem_of_In, in_flat_map. exists (a, b).
      split; by apply list_elem_of_In. }
    exists j. split; [done|]. rewrite Hsame. by eapply yields_pair. }
  intros a b S Ha Hb Hne HS Hbound Hsep.
  destruct (node_pairs_cover g a b Ha Hb Hne) as [Hab|Hba].
  - by apply (Hpair a b S).
  - destruct (Hpair b a S) as (j & Hj & Hlr); [done|set_solver|done| |].
    + by apply separating_sym.
    + exists j. split; [done|]. tauto.
Qed.

Lemma get_conditional_independencies_cover_witness :
  ∃ out h',
    get_conditional_independencies 0 None (Some 1) true (heap_of chain)
    = (inr out, h')
    ∧ (∀ a b (S : gset variable),
         a ∈ MixedGraph.nodes chain → b ∈ MixedGraph.nodes chain → a ≠ b →
         S ⊆ MixedGraph.nodes chain ∖ {[a; b]} →
         size S ≤ 1 →
         separating chain a b S →
         ∃ j, j ∈ out
            ∧ (_judgement_grouper j = (a, b) ∨ _judgement_grouper j = (b, a)))
    ∧ (∀ j1 j2, j1 ∈ out → j2 ∈ out →
         _judgement_grouper j1 = _judgement_grouper j2 → j1 = j2).
Proof.
  apply (get_conditional_independencies_cover (heap_of chain) 0 chain None (Some 1) true).
  - reflexivity.
  - intros _. exact chain_acyclic.
  - exact I.
Defined.
